(** * Tone.MultiSampler and Tone.BufferSource: a shallow embedding

    The development follows the JavaScript sources
    [Tone/core/Tone.js], [Tone/source/BufferSource.js] and
    [Tone/instrument/MultiSampler.js].

    Conventions of the embedding:
    - a JavaScript number that is a MIDI note or an interval is a [Z];
      a time, a duration or a gain is an exact rational [Q] (rounding of
      double precision arithmetic is not modelled); the transcendental
      values, [Math.pow(2, interval / 12)] and the conversions between
      decibels, gains and the equal-power scale, are real numbers;
    - a JavaScript object used as a map is a [gmap] from property keys
      (strings) to values; a number used as a property key is converted
      with [ToString];
    - an object literal that holds options is the list of its own
      properties, in the order of their creation;
    - objects are passed by reference: the sampler keeps its BufferSource
      objects in a store and the registry holds indices into it;
    - the calls that the sources make on the native audio nodes and on the
      clock (automation of the gain, start of the buffer source node,
      timeouts) are recorded in the object; what the native nodes do with
      them, errors of their own included, is outside the sources and is
      not modelled;
    - a [throw] is the [Throw] result. The methods throw before they
      change their object, so the object after a throw is the object
      before the call; the one exception is a [triggerRelease] whose
      [stop] throws after the entry was removed, which does not happen for
      a source that the sampler has started. *)

From Stdlib Require Import ZArith QArith Qminmax Qround Reals Lra Lia.
From Stdlib Require Import Sorted.
From Stdlib Require Lqa.
From Stdlib Require Import String Ascii DecimalString DecimalZ.
From stdpp Require Import base option list gmap strings.

Local Open Scope Z_scope.

(** * The model *)

(** ** Results of calls that may throw *)

(** The [Error]s thrown by the sources (the first three under the names
    that the specification gives them) and by Tone.Buffers:
    - [InvalidKeyError]: "Tone.MultiSampler: note must be the note's pitch"
      and "Tone.MultiSampler: url keys must be the note's pitch";
    - [AlreadyStartedError]: "Tone.BufferSource can only be started once.";
    - [BufferNotReadyError]: "Tone.BufferSource: buffer is either not set
      or not loaded.";
    - [MissingBufferError]: a [Tone.Buffers.get] of a key that is absent. *)
Inductive Error :=
  | InvalidKeyError
  | AlreadyStartedError
  | BufferNotReadyError
  | MissingBufferError.

Inductive Result (A : Type) :=
  | OK (a : A)
  | Throw (e : Error).
Arguments OK {A} a.
Arguments Throw {A} e.

Definition bind {A B} (r : Result A) (k : A -> Result B) : Result B :=
  match r with
  | OK a => k a
  | Throw e => Throw e
  end.

Notation "'do' x <- r ; k" := (bind r (fun x => k))
  (at level 10, x name, r at level 100, k at level 200).

(** ** JavaScript values used as notes and keys *)

(** A note argument is a string or a number (the [Note|Midi] of the
    documentation of [add]); the numbers are the integral ones. *)
Inductive JsValue :=
  | JsString (s : string)
  | JsNumber (n : Z).

(** The result of [parseFloat]. *)
Inductive Number :=
  | NaN
  | Infinity (negative : bool)
  | Finite (q : Q).

Definition isNaN (x : Number) : bool :=
  match x with
  | NaN => true
  | _ => false
  end.

(** [ToString] of an integral number: its decimal digits, with a leading
    minus sign when negative (ECMAScript Number::toString, exact below
    10^21). *)
Definition ToString (n : Z) : string := NilZero.string_of_int (Z.to_int n).

(** The property key a value denotes. *)
Definition ToPropertyKey (v : JsValue) : string :=
  match v with
  | JsString s => s
  | JsNumber n => ToString n
  end.

Definition isDigit (c : ascii) : bool :=
  (48 <=? nat_of_ascii c)%nat && (nat_of_ascii c <=? 57)%nat.

Definition digitValue (c : ascii) : Z := Z.of_nat (nat_of_ascii c) - 48.

(** White space skipped by [parseFloat] (the ASCII part of StrWhiteSpaceChar). *)
Definition isWhiteSpace (c : ascii) : bool :=
  let n := nat_of_ascii c in
  (n =? 32)%nat || ((9 <=? n)%nat && (n <=? 13)%nat).

Fixpoint trimStart (s : string) : string :=
  match s with
  | String c r => if isWhiteSpace c then trimStart r else s
  | EmptyString => EmptyString
  end.

(** The longest prefix of decimal digits, and what follows it. *)
Fixpoint spanDigits (s : string) : string * string :=
  match s with
  | String c r =>
      if isDigit c then
        let (d, t) := spanDigits r in (String c d, t)
      else (EmptyString, s)
  | EmptyString => (EmptyString, EmptyString)
  end.

Fixpoint digitsValue (acc : Z) (d : string) : Z :=
  match d with
  | String c r => digitsValue (10 * acc + digitValue c) r
  | EmptyString => acc
  end.

(** The exponent part [e|E (+|-)? digits] at the head of [s], 0 when there
    is none. *)
Definition exponentPart (s : string) : Z :=
  match s with
  | String c r =>
      if (Ascii.eqb c "e" || Ascii.eqb c "E")%bool then
        let '(neg, r') :=
          match r with
          | String "-" t => (true, t)
          | String "+" t => (false, t)
          | _ => (false, r)
          end in
        let (d, _) := spanDigits r' in
        match d with
        | EmptyString => 0
        | _ => if (neg : bool) then - digitsValue 0 d else digitsValue 0 d
        end
      else 0
  | EmptyString => 0
  end.

(** An optional sign at the head of [s]: whether it is a minus, and what
    follows it. *)
Definition splitSign (s : string) : bool * string :=
  match s with
  | String c r =>
      if Ascii.eqb c "-" then (true, r)
      else if Ascii.eqb c "+" then (false, r)
      else (false, s)
  | EmptyString => (false, s)
  end.

(** The fraction [. digits] at the head of [s]: its digits, and what
    follows them. *)
Definition fractionPart (s : string) : string * string :=
  match s with
  | String c r =>
      if Ascii.eqb c "." then spanDigits r else (EmptyString, s)
  | EmptyString => (EmptyString, s)
  end.

(** The unsigned literal at the head of [s0]: [Infinity], or digits with
    an optional fraction and an optional exponent, at least one digit
    before or after the point. *)
Definition parseDecimal (neg : bool) (s0 : string) : Number :=
  if String.prefix "Infinity" s0 then Infinity neg
  else
    let (ip, s1) := spanDigits s0 in
    let (fp, s2) := fractionPart s1 in
    match ip, fp with
    | EmptyString, EmptyString => NaN
    | _, _ =>
        let mantissa := digitsValue 0 (ip ++ fp) in
        let scale := exponentPart s2 - Z.of_nat (String.length fp) in
        let q := (inject_Z mantissa * Qpower (10 # 1) scale)%Q in
        Finite (if neg then Qopp q else q)
    end.

(** [parseFloat(string)]: leading white space is skipped, then the longest
    prefix that is a decimal literal is converted; [NaN] when there is no
    such prefix. *)
Definition parseFloat (input : string) : Number :=
  let (neg, s0) := splitSign (trimStart input) in
  parseDecimal neg s0.

(** [parseFloat] applied to a value: the argument is converted to a string
    first. *)
Definition parseFloat_value (v : JsValue) : Number :=
  parseFloat (ToPropertyKey v).

(** ** Tone.js: type checks and conversions *)

Module Tone.

(** Tone.isString *)
Definition isString (arg : JsValue) : bool :=
  match arg with
  | JsString _ => true
  | JsNumber _ => false
  end.

Definition isPitchLetter (c : ascii) : bool :=
  let n := nat_of_ascii c in
  ((97 <=? n)%nat && (n <=? 103)%nat) || ((65 <=? n)%nat && (n <=? 71)%nat).

(** [-?[0-9]+] at the head of [s]. *)
Definition startsWithOctave (s : string) : bool :=
  match s with
  | String "-" (String d _) => isDigit d
  | String d _ => isDigit d
  | EmptyString => false
  end.

Definition isFlat (c : ascii) : bool := Ascii.eqb c "b" || Ascii.eqb c "B".
Definition isSharp (c : ascii) : bool :=
  Ascii.eqb c "#" || Ascii.eqb c "x" || Ascii.eqb c "X".

(** The regular expression [/^([a-g]{1}(?:b|#|x|bb)?)(-?[0-9]+)/i]: it is
    anchored at the start only, and matches when one of the alternatives
    of the accidental (none, one character, or [bb]) is followed by the
    octave. *)
Definition noteRegExp_test (s : string) : bool :=
  match s with
  | String c r =>
      isPitchLetter c &&
      (startsWithOctave r ||
       match r with
       | String a r1 =>
           ((isFlat a || isSharp a) && startsWithOctave r1) ||
           match r1 with
           | String a' r2 => isFlat a && isFlat a' && startsWithOctave r2
           | EmptyString => false
           end
       | EmptyString => false
       end)
  | EmptyString => false
  end.

(** Tone.isNote *)
Definition isNote (arg : JsValue) : bool :=
  match arg with
  | JsString s => noteRegExp_test s
  | JsNumber _ => false
  end.

(** Tone.defaultArg, at a value that is not an object literal. *)
Definition defaultArg {A} (given : option A) (fallback : A) : A :=
  match given with
  | None => fallback
  | Some a => a
  end.

(** Tone.isUndef *)
Definition isUndef {A} (val : option A) : bool :=
  match val with
  | None => true
  | Some _ => false
  end.

(** Tone.intervalToFrequencyRatio: [Math.pow(2, interval / 12)]. *)
Definition intervalToFrequencyRatio (interval : Z) : R :=
  Rpower 2 (IZR interval / 12).

(** Tone.equalPowerScale: [Math.sin(percent * piFactor)] with
    [piFactor = 0.5 * Math.PI]. *)
Definition equalPowerScale (percent : R) : R :=
  let piFactor := (0.5 * PI)%R in
  sin (percent * piFactor).

(** Tone.dbToGain: [Math.pow(2, db / 6)]. *)
Definition dbToGain (db : R) : R := Rpower 2 (db / 6).

(** Tone.gainToDb: [20 * (Math.log(gain) / Math.LN10)], for a positive
    [gain] (the logarithm of a gain that is not positive is no real
    number). *)
Definition gainToDb (gain : R) : R := (20 * (ln gain / ln 10))%R.

(** Tone.State *)
Inductive State := Started | Stopped | Paused.

End Tone.

(** ** The audio context and the buffers *)

(** What the sources read from the audio context: [this.now()] and
    [this.sampleTime]. *)
Record Context := {
  now : Q;
  sampleTime : Q
}.

(** Modelled from the spec: Tone.Buffer (Tone/core/Buffer.js is not among
    the sources): a buffer handle with a [loaded] flag and the [duration]
    of its audio data in seconds; [name] tells one recording from
    another. *)
Record ToneBuffer := {
  name : string;
  loaded : bool;
  duration : Q
}.

(** Modelled from the spec: Tone.prototype.toSeconds (Tone/type/Type.js is
    not among the sources): a time given in seconds is that number, and an
    omitted time is the current time of the clock. *)
Definition toSeconds (ctx : Context) (time : option Q) : Q :=
  match time with
  | Some t => t
  | None => now ctx
  end.

Definition Qlt_bool (x y : Q) : bool := negb (Qle_bool y x).

(** The remainder operator [%] on numbers: the quotient is truncated
    towards zero; [None] is the [NaN] of a zero divisor. *)
Definition js_rem (a b : Q) : option Q :=
  if Qeq_bool b 0 then None
  else
    let q := (a / b)%Q in
    Some (a - b * inject_Z (Z.quot (Qnum q) (Zpos (Qden q))))%Q.

(** ** Tone.BufferSource *)

Module BufferSource.

Local Open Scope Q_scope.

(** A call made on the gain parameter of the envelope. *)
Inductive AudioParamCall :=
  | setValueAtTime (value time : Q)
  | linearRampToValueAtTime (value time : Q)
  | cancelScheduledValues (time : Q).

(** The fields of a Tone.BufferSource. [loop], [loopStart] and [loopEnd]
    are the properties of the same name (they live on the native node);
    [_gainNode] lists the calls made on [this._gainNode.gain], oldest
    first; [_source_buffer] and [_source_start] are the buffer given to
    the native node and the arguments of its [start], whose offset is
    [None] when it is [NaN]; [_onendedTimeout] is the delay of the
    pending timeout, [None] for the initial handle -1. *)
Record t := {
  _startTime : Q;
  _stopTime : Q;
  _gainNode : list AudioParamCall;
  _source_buffer : option ToneBuffer;
  _source_start : option (Q * option Q);
  buffer : option ToneBuffer;
  playbackRate : R;
  fadeIn : Q;
  fadeOut : Q;
  _gain : Q;
  _onendedTimeout : option Q;
  loop : bool;
  loopStart : Q;
  loopEnd : Q
}.

(** The options of the constructor. *)
Record Options := {
  o_buffer : option ToneBuffer;
  o_loop : bool;
  o_loopStart : Q;
  o_loopEnd : Q;
  o_fadeIn : Q;
  o_fadeOut : Q;
  o_playbackRate : R
}.

(** Tone.BufferSource.defaults *)
Definition defaults : Options := {|
  o_buffer := None;
  o_loop := false;
  o_loopStart := 0;
  o_loopEnd := 0;
  o_fadeIn := 0;
  o_fadeOut := 0;
  o_playbackRate := 1%R
|}.

(** new Tone.BufferSource(options) *)
Definition new (options : Options) : t := {|
  _startTime := -1;
  _stopTime := -1;
  _gainNode := [];
  _source_buffer := None;
  _source_start := None;
  buffer := o_buffer options;
  playbackRate := o_playbackRate options;
  fadeIn := o_fadeIn options;
  fadeOut := o_fadeOut options;
  _gain := 1;
  _onendedTimeout := None;
  loop := o_loop options;
  loopStart := o_loopStart options;
  loopEnd := o_loopEnd options
|}.

(** [this.buffer.loaded]: false when the buffer is not set. *)
Definition buffer_loaded (this : t) : bool :=
  match buffer this with
  | Some b => loaded b
  | None => false
  end.

(** [this.buffer.duration]: 0 when the buffer is not set. *)
Definition buffer_duration (this : t) : Q :=
  match buffer this with
  | Some b => duration b
  | None => 0
  end.

Definition set_startTime (x : Q) (this : t) : t :=
  {| _startTime := x; _stopTime := _stopTime this;
     _gainNode := _gainNode this; _source_buffer := _source_buffer this;
     _source_start := _source_start this; buffer := buffer this;
     playbackRate := playbackRate this; fadeIn := fadeIn this;
     fadeOut := fadeOut this; _gain := _gain this;
     _onendedTimeout := _onendedTimeout this; loop := loop this;
     loopStart := loopStart this; loopEnd := loopEnd this |}.

Definition set_stopTime (x : Q) (this : t) : t :=
  {| _startTime := _startTime this; _stopTime := x;
     _gainNode := _gainNode this; _source_buffer := _source_buffer this;
     _source_start := _source_start this; buffer := buffer this;
     playbackRate := playbackRate this; fadeIn := fadeIn this;
     fadeOut := fadeOut this; _gain := _gain this;
     _onendedTimeout := _onendedTimeout this; loop := loop this;
     loopStart := loopStart this; loopEnd := loopEnd this |}.

Definition set_gain (x : Q) (this : t) : t :=
  {| _startTime := _startTime this; _stopTime := _stopTime this;
     _gainNode := _gainNode this; _source_buffer := _source_buffer this;
     _source_start := _source_start this; buffer := buffer this;
     playbackRate := playbackRate this; fadeIn := fadeIn this;
     fadeOut := fadeOut this; _gain := x;
     _onendedTimeout := _onendedTimeout this; loop := loop this;
     loopStart := loopStart this; loopEnd := loopEnd this |}.

(** The calls [cs] are made on the gain parameter, in that order. *)
Definition gain_calls (cs : list AudioParamCall) (this : t) : t :=
  {| _startTime := _startTime this; _stopTime := _stopTime this;
     _gainNode := _gainNode this ++ cs;
     _source_buffer := _source_buffer this;
     _source_start := _source_start this; buffer := buffer this;
     playbackRate := playbackRate this; fadeIn := fadeIn this;
     fadeOut := fadeOut this; _gain := _gain this;
     _onendedTimeout := _onendedTimeout this; loop := loop this;
     loopStart := loopStart this; loopEnd := loopEnd this |}.

(** [Tone.context.clearTimeout(this._onendedTimeout)] followed by
    [this._onendedTimeout = Tone.context.setTimeout(callback, delay)]. *)
Definition set_onendedTimeout (delay : Q) (this : t) : t :=
  {| _startTime := _startTime this; _stopTime := _stopTime this;
     _gainNode := _gainNode this; _source_buffer := _source_buffer this;
     _source_start := _source_start this; buffer := buffer this;
     playbackRate := playbackRate this; fadeIn := fadeIn this;
     fadeOut := fadeOut this; _gain := _gain this;
     _onendedTimeout := Some delay; loop := loop this;
     loopStart := loopStart this; loopEnd := loopEnd this |}.

(** The three statements that start the native node:
    [this._source.buffer = this.buffer.get()],
    [this._source.loopEnd = this.loopEnd || this.buffer.duration] and
    [this._source.start(time, offset)]. *)
Definition source_start (time : Q) (offset : option Q) (this : t) : t :=
  {| _startTime := _startTime this; _stopTime := _stopTime this;
     _gainNode := _gainNode this; _source_buffer := buffer this;
     _source_start := Some (time, offset); buffer := buffer this;
     playbackRate := playbackRate this; fadeIn := fadeIn this;
     fadeOut := fadeOut this; _gain := _gain this;
     _onendedTimeout := _onendedTimeout this; loop := loop this;
     loopStart := loopStart this;
     loopEnd := if Qeq_bool (loopEnd this) 0 then buffer_duration this
                else loopEnd this |}.

(** The getter of [state], read when the clock shows [now ctx]. *)
Definition state (ctx : Context) (this : t) : Tone.State :=
  if negb (Qeq_bool (_startTime this) (-1))
     && Qle_bool (_startTime this) (now ctx)
     && Qlt_bool (now ctx) (_stopTime this)
  then Tone.Started
  else Tone.Stopped.

(** Tone.BufferSource.prototype.stop *)
Definition stop (ctx : Context) (this : t) (time fadeOutTime : option Q)
  : Result t :=
  if buffer_loaded this then
    let time := toSeconds ctx time in
    let fadeOutTime :=
      match fadeOutTime with
      | None => fadeOut this
      | Some f => f
      end in
    let this := set_stopTime (time + fadeOutTime) this in
    let this :=
      gain_calls [cancelScheduledValues (_startTime this + sampleTime ctx)]
        this in
    let time := Qmax (_startTime this) time in
    let this :=
      if Qlt_bool 0 fadeOutTime then
        gain_calls [setValueAtTime (_gain this) time;
                    linearRampToValueAtTime 0 (time + fadeOutTime)] this
      else
        gain_calls [setValueAtTime 0 time] this in
    OK (set_onendedTimeout (_stopTime this - now ctx) this)
  else Throw BufferNotReadyError.

(** The offset given to the native node (lines 203 to 212 of the source):
    when looping, an offset beyond the end of the loop is moved back into
    the loop. *)
Definition wrapped_offset (this : t) (offset : Q) : option Q :=
  if loop this then
    let loopEnd :=
      if Qeq_bool (loopEnd this) 0 then buffer_duration this
      else loopEnd this in
    let loopStart := loopStart this in
    let loopDuration := loopEnd - loopStart in
    if Qlt_bool loopEnd offset then
      match js_rem (offset - loopStart) loopDuration with
      | Some r => Some (r + loopStart)
      | None => None
      end
    else Some offset
  else Some offset.

(** Tone.BufferSource.prototype.start *)
Definition start (ctx : Context) (this : t)
    (time offset duration gain fadeInTime : option Q) : Result t :=
  if negb (Qeq_bool (_startTime this) (-1)) then Throw AlreadyStartedError
  else if buffer_loaded this then
    let time := toSeconds ctx time in
    let offset :=
      if loop this then Tone.defaultArg offset (loopStart this)
      else Tone.defaultArg offset 0 in
    let gain := Tone.defaultArg gain 1 in
    let this := set_gain gain this in
    let fadeInTime :=
      match fadeInTime with
      | None => fadeIn this
      | Some f => f
      end in
    let this :=
      if Qlt_bool 0 fadeInTime then
        gain_calls [setValueAtTime 0 time;
                    linearRampToValueAtTime (_gain this) (time + fadeInTime)]
          this
      else
        gain_calls [setValueAtTime gain time] this in
    let this := set_startTime (time + fadeInTime) this in
    let computedDur :=
      Tone.defaultArg duration (buffer_duration this - offset) in
    let computedDur := Qmax computedDur 0 in
    do this <-
      (if negb (loop this) || (loop this && negb (Tone.isUndef duration))
       then
         let computedDur :=
           if negb (loop this)
           then Qmin computedDur (buffer_duration this - offset)
           else computedDur in
         stop ctx this (Some (time + computedDur + fadeInTime))
           (Some fadeInTime)
       else OK this);
    OK (source_start time (wrapped_offset this offset) this)
  else Throw BufferNotReadyError.

End BufferSource.

(** ** Tone.Buffers *)

Module Buffers.

(** What [add] and the constructor are given for a key: the url of a
    recording still to be fetched, or a buffer. *)
Inductive Source :=
  | Url (u : string)
  | Buffer (b : ToneBuffer).

(** Modelled from the spec: the buffer that Tone.Buffers (Tone/core/Buffers.js
    is not among the sources) registers for a source: a buffer that is
    given is registered as it is, a url starts an asynchronous load and is
    registered as a buffer that is not loaded yet. *)
Definition buffer_of (src : Source) : ToneBuffer :=
  match src with
  | Url u => {| name := u; loaded := false; duration := 0 |}
  | Buffer b => b
  end.

(** Modelled from the spec: new Tone.Buffers(urls): one buffer per key of
    [urls]. *)
Definition new (urls : gmap string Source) : gmap string ToneBuffer :=
  buffer_of <$> urls.

(** Modelled from the spec: Tone.Buffers.prototype.has: true iff an entry
    exists for exactly that key (no search). *)
Definition has (bufs : gmap string ToneBuffer) (key : JsValue) : bool :=
  bool_decide (is_Some (bufs !! ToPropertyKey key)).

(** Modelled from the spec: Tone.Buffers.prototype.get: the buffer of an
    exact key; a missing key is an error. *)
Definition get (bufs : gmap string ToneBuffer) (key : JsValue)
  : Result ToneBuffer :=
  match bufs !! ToPropertyKey key with
  | Some b => OK b
  | None => Throw MissingBufferError
  end.

(** Modelled from the spec: Tone.Buffers.prototype.add: registers the
    buffer of [url] under [key]; an existing key is overwritten. *)
Definition add (bufs : gmap string ToneBuffer) (key : JsValue) (url : Source)
  : gmap string ToneBuffer :=
  <[ToPropertyKey key := buffer_of url]> bufs.

End Buffers.

(** ** Tone.MultiSampler *)

Module MultiSampler.

(** An entry of [_activeSources]: [{note : midi, source : source}], where
    [source] is a reference to a BufferSource object. *)
Record ActiveSource := {
  note : Z;
  source : nat
}.

(** The fields of a Tone.MultiSampler. [heap] is the store of the
    BufferSource objects that the sampler has created and connected to its
    output, in the order of their creation; a reference is an index into
    it. *)
Record t := {
  _buffers : gmap string ToneBuffer;
  _activeSources : gmap string (list ActiveSource);
  attack : Q;
  release : Q;
  heap : list BufferSource.t
}.

Definition set_buffers (bufs : gmap string ToneBuffer) (this : t) : t :=
  {| _buffers := bufs; _activeSources := _activeSources this;
     attack := attack this; release := release this; heap := heap this |}.

Definition set_activeSources (act : gmap string (list ActiveSource))
    (this : t) : t :=
  {| _buffers := _buffers this; _activeSources := act;
     attack := attack this; release := release this; heap := heap this |}.

Definition set_heap (h : list BufferSource.t) (this : t) : t :=
  {| _buffers := _buffers this; _activeSources := _activeSources this;
     attack := attack this; release := release this; heap := h |}.

Definition MAX_INTERVAL : Z := 24.

(** The [while] loop of [_findClosest], entered with the current value of
    [interval]. The loop ends when [interval] reaches [MAX_INTERVAL];
    [fuel] bounds the number of tests of its condition. *)
Fixpoint _findClosest_loop (fuel : nat) (bufs : gmap string ToneBuffer)
    (midi interval : Z) : option Z :=
  match fuel with
  | O => None
  | S fuel' =>
      if interval <? MAX_INTERVAL then
        if Buffers.has bufs (JsNumber (midi + interval)) then
          Some (- interval)
        else if Buffers.has bufs (JsNumber (midi - interval)) then
          Some interval
        else _findClosest_loop fuel' bufs midi (interval + 1)
      else None
  end.

(** Tone.MultiSampler.prototype._findClosest; [None] is [null]. *)
Definition _findClosest (this : t) (midi : Z) : option Z :=
  _findClosest_loop (S (Z.to_nat MAX_INTERVAL)) (_buffers this) midi 0.

Section WithPitchCodec.

(** [Tone.Frequency(note).toMidi()] (Tone/type/Frequency.js is not among
    the sources): the conversion of a note to its MIDI number. *)
Variable toMidi : JsValue -> Z.

(** The loop of the constructor over the keys of [urls], in the order of
    their enumeration. *)
Fixpoint urlMap_of (urls : list (string * Buffers.Source))
    (urlMap : gmap string Buffers.Source)
  : Result (gmap string Buffers.Source) :=
  match urls with
  | [] => OK urlMap
  | (note, url) :: urls' =>
      if Tone.isNote (JsString note) then
        let mid := toMidi (JsString note) in
        urlMap_of urls' (<[ToString mid := url]> urlMap)
      else if negb (isNaN (parseFloat note)) then
        urlMap_of urls' (<[note := url]> urlMap)
      else Throw InvalidKeyError
  end.

(** new Tone.MultiSampler(urls, options); [defaults] gives [attack] 0 and
    [release] 0.1. *)
Definition new (urls : list (string * Buffers.Source)) (attack release : Q)
  : Result t :=
  do urlMap <- urlMap_of urls ∅;
  OK {| _buffers := Buffers.new urlMap;
        _activeSources := ∅;
        attack := attack;
        release := release;
        heap := [] |}.

(** Tone.MultiSampler.prototype.triggerAttack *)
Definition triggerAttack (ctx : Context) (this : t) (note : JsValue)
    (time velocity : option Q) : Result t :=
  let midi := toMidi note in
  match _findClosest this midi with
  | Some difference =>
      let closestNote := midi - difference in
      do buffer <- Buffers.get (_buffers this) (JsNumber closestNote);
      let source :=
        BufferSource.new
          {| BufferSource.o_buffer := Some buffer;
             BufferSource.o_playbackRate :=
               Tone.intervalToFrequencyRatio difference;
             BufferSource.o_fadeIn := attack this;
             BufferSource.o_fadeOut := release this;
             BufferSource.o_loop :=
               BufferSource.o_loop BufferSource.defaults;
             BufferSource.o_loopStart :=
               BufferSource.o_loopStart BufferSource.defaults;
             BufferSource.o_loopEnd :=
               BufferSource.o_loopEnd BufferSource.defaults |} in
      do source <-
        BufferSource.start ctx source time (Some 0%Q)
          (Some (duration buffer)) velocity None;
      let ref := length (heap this) in
      let this := set_heap (heap this ++ [source]) this in
      let queue :=
        match _activeSources this !! ToString midi with
        | Some q => q
        | None => []
        end in
      OK (set_activeSources
            (<[ToString midi := queue ++ [{| note := midi; source := ref |}]]>
               (_activeSources this)) this)
  | None => OK this
  end.

(** Tone.MultiSampler.prototype.triggerRelease. A reference held by the
    registry always denotes an object of the store; at an index outside
    the store the model stops nothing. *)
Definition triggerRelease (ctx : Context) (this : t) (note : JsValue)
    (time : option Q) : Result t :=
  let midi := toMidi note in
  match _activeSources this !! ToString midi with
  | Some (entry :: rest) =>
      let this :=
        set_activeSources (<[ToString midi := rest]> (_activeSources this))
          this in
      match heap this !! source entry with
      | Some src =>
          do src <- BufferSource.stop ctx src time (Some (release this));
          OK (set_heap (<[source entry := src]> (heap this)) this)
      | None => OK this
      end
  | _ => OK this
  end.

(** Tone.MultiSampler.prototype.add *)
Definition add (this : t) (note : JsValue) (url : Buffers.Source)
  : Result t :=
  if Tone.isNote note then
    let mid := toMidi note in
    OK (set_buffers (Buffers.add (_buffers this) (JsNumber mid) url) this)
  else if negb (isNaN (parseFloat_value note)) then
    OK (set_buffers (Buffers.add (_buffers this) note url) this)
  else Throw InvalidKeyError.

End WithPitchCodec.

End MultiSampler.

(** ** The pitch codec *)

Module PitchCodec.

(** The index of a pitch letter in the octave that starts at C. *)
Definition scaleIndex (c : ascii) : Z :=
  if (Ascii.eqb c "c" || Ascii.eqb c "C")%bool then 0
  else if (Ascii.eqb c "d" || Ascii.eqb c "D")%bool then 2
  else if (Ascii.eqb c "e" || Ascii.eqb c "E")%bool then 4
  else if (Ascii.eqb c "f" || Ascii.eqb c "F")%bool then 5
  else if (Ascii.eqb c "g" || Ascii.eqb c "G")%bool then 7
  else if (Ascii.eqb c "a" || Ascii.eqb c "A")%bool then 9
  else 11.

(** The octave [-?[0-9]+] at the head of [s]. *)
Definition octave (s : string) : Z :=
  match s with
  | String "-" r => - digitsValue 0 (fst (spanDigits r))
  | _ => digitsValue 0 (fst (spanDigits s))
  end.

Definition midiOf (index : Z) (octaveText : string) : Z :=
  index + (octave octaveText + 1) * 12.

(** Modelled from the spec: the conversion of scientific pitch notation to
    a MIDI note number (Tone/type/Frequency.js is not among the sources):
    a pitch letter, an optional accidental among b, #, x and bb (one
    semitone down, one up, two up, two down) and an octave, with A4 = 69
    and 12 notes per octave. [None] when the text is not pitch notation. *)
Definition noteToMidi (s : string) : option Z :=
  match s with
  | String c r =>
      if Tone.isPitchLetter c then
        let index := scaleIndex c in
        match r with
        | String a r1 =>
            if Tone.isFlat a && Tone.startsWithOctave r1
            then Some (midiOf (index - 1) r1)
            else if Ascii.eqb a "#" && Tone.startsWithOctave r1
            then Some (midiOf (index + 1) r1)
            else if Tone.isSharp a && Tone.startsWithOctave r1
            then Some (midiOf (index + 2) r1)
            else
              match r1 with
              | String a' r2 =>
                  if Tone.isFlat a && Tone.isFlat a'
                     && Tone.startsWithOctave r2
                  then Some (midiOf (index - 2) r2)
                  else if Tone.startsWithOctave r
                  then Some (midiOf index r)
                  else None
              | EmptyString =>
                  if Tone.startsWithOctave r then Some (midiOf index r)
                  else None
              end
        | EmptyString => None
        end
      else None
  | EmptyString => None
  end.

(** Modelled from the spec: the resolution of a note to a MIDI integer:
    pitch notation is converted, a number is taken as the MIDI value. The
    specification does not say what other strings resolve to; they are
    sent to 0 here and nothing below depends on that choice. *)
Definition toMidi (v : JsValue) : Z :=
  match v with
  | JsString s => default 0 (noteToMidi s)
  | JsNumber n => n
  end.

End PitchCodec.

(** ** Definitions used to state the properties *)

(** A key is the text of an integer: decided by reading it back. *)
Definition isIntegerKey (k : string) : bool :=
  match NilZero.int_of_string k with
  | Some d => String.eqb (ToString (Z.of_int d)) k
  | None => false
  end.

(** [holds bufs k]: the bank [bufs] has a sample at the MIDI key [k]. *)
Definition holds (bufs : gmap string ToneBuffer) (k : Z) : bool :=
  Buffers.has bufs (JsNumber k).

Section StartParts.

Import BufferSource.
Local Open Scope Q_scope.

(** The fade time of a call: the override when it is given, the
    configured value otherwise. *)
Definition fade_of (override : option Q) (configured : Q) : Q :=
  match override with
  | None => configured
  | Some f => f
  end.

(** The offset that [start] works with (lines 161 to 167). *)
Definition start_offset (this : t) (offset : option Q) : Q :=
  if loop this then Tone.defaultArg offset (loopStart this)
  else Tone.defaultArg offset 0.

(** The value of [computedDur] when [start] calls [stop] (lines 190 to
    198): the playback duration that is in effect. *)
Definition resolved_duration (this : t) (offset : Q) (duration : option Q)
  : Q :=
  let computedDur :=
    Qmax (Tone.defaultArg duration (buffer_duration this - offset)) 0 in
  if negb (loop this)
  then Qmin computedDur (buffer_duration this - offset)
  else computedDur.

(** The object when [start] reaches line 190: gain recorded, fade-in
    scheduled, start time recorded. *)
Definition start_enveloped (this : t) (time : Q) (gain : option Q)
    (fadeInTime : Q) : t :=
  let gain := Tone.defaultArg gain 1 in
  let this := set_gain gain this in
  let this :=
    if Qlt_bool 0 fadeInTime then
      gain_calls [setValueAtTime 0 time;
                  linearRampToValueAtTime (_gain this) (time + fadeInTime)]
        this
    else gain_calls [setValueAtTime gain time] this in
  set_startTime (time + fadeInTime) this.

(** Whether [start] calls [stop]: always when not looping, and when
    looping with a duration that is given (line 194). *)
Definition schedules_stop (this : t) (duration : option Q) : bool :=
  negb (loop this) || (loop this && negb (Tone.isUndef duration)).

End StartParts.

Section SamplerParts.

Import MultiSampler.

Variable toMidi : JsValue -> Z.

(** The queue of active sources of a note; a note without an entry has
    the empty queue. *)
Definition queue_of (this : t) (midi : Z) : list ActiveSource :=
  default [] (_activeSources this !! ToString midi).

(** The BufferSource that [triggerAttack] creates for the buffer [b] and
    the difference [d], before it is started. *)
Definition new_source (this : t) (b : ToneBuffer) (d : Z) : BufferSource.t :=
  BufferSource.new
    {| BufferSource.o_buffer := Some b;
       BufferSource.o_playbackRate := Tone.intervalToFrequencyRatio d;
       BufferSource.o_fadeIn := attack this;
       BufferSource.o_fadeOut := release this;
       BufferSource.o_loop := false;
       BufferSource.o_loopStart := 0;
       BufferSource.o_loopEnd := 0 |}.

(** The sampler after an attack on [midi] that started [source]. *)
Definition attacked (this : t) (midi : Z) (source : BufferSource.t) : t :=
  set_activeSources
    (<[ToString midi :=
         queue_of this midi
         ++ [{| note := midi; source := length (heap this) |}]]>
       (_activeSources this))
    (set_heap (heap this ++ [source]) this).

(** The entry [e] refers to a BufferSource of the store whose buffer is
    loaded, as every source that an attack has started. *)
Definition entry_ok (this : t) (e : ActiveSource) : Prop :=
  exists v, heap this !! source e = Some v /\
            BufferSource.buffer_loaded v = true.

(** The sampler after the release of the entry [e], the oldest of its
    queue [e :: rest]: the queue is [rest] and the source of [e] is the
    stopped [v']. *)
Definition released (this : t) (midi : Z) (e : ActiveSource)
    (rest : list ActiveSource) (v' : BufferSource.t) : t :=
  set_heap (<[source e := v']> (heap this))
    (set_activeSources (<[ToString midi := rest]> (_activeSources this))
       this).

(** [n] calls of [triggerRelease] for the same note, one after the other,
    each with the clock and the time of its call. *)
Fixpoint releases (calls : list (Context * option Q)) (this : t)
    (note : JsValue) : Result t :=
  match calls with
  | [] => OK this
  | (ctx, time) :: calls' =>
      do this' <- triggerRelease toMidi ctx this note time;
      releases calls' this' note
  end.

(** Every entry of the registry refers to a started source of the store.
    The invariant holds for a new sampler and is kept by every method. *)
Definition registry_ok (this : t) : Prop :=
  forall key q, _activeSources this !! key = Some q ->
    Forall (entry_ok this) q.

(** The entries that [n] attacks of the note [midi] push, one after the
    other, when the store has [base] sources before the first of them. *)
Fixpoint entries (midi : Z) (base n : nat) : list ActiveSource :=
  match n with
  | O => []
  | S n' => {| note := midi; source := base |} :: entries midi (S base) n'
  end.

(** [n] calls of [triggerAttack] for the same note, one after the other,
    each with the clock, the time and the velocity of its call. *)
Fixpoint attacks (calls : list (Context * option Q * option Q)) (this : t)
    (note : JsValue) : Result t :=
  match calls with
  | [] => OK this
  | (ctx, time, velocity) :: calls' =>
      do this' <- triggerAttack toMidi ctx this note time velocity;
      attacks calls' this' note
  end.

(** A key that [add] and the constructor store: the text of the MIDI
    number of a note in pitch notation, or a value that is not pitch
    notation and that [parseFloat] reads as a number, kept as it is. *)
Definition key_ingested (k : string) : Prop :=
  (exists v, Tone.isNote v = true /\ k = ToString (toMidi v)) \/
  (exists v, Tone.isNote v = false /\ isNaN (parseFloat_value v) = false /\
             k = ToPropertyKey v).

End SamplerParts.

(** ** Banks, samplers and voices used in the examples *)

Definition bufferX : ToneBuffer :=
  {| name := "./audio/sine.wav"; loaded := true; duration := 2 |}.

Definition ctx0 : Context := {| now := 0; sampleTime := 1 # 44100 |}.

(** The sampler [new Tone.MultiSampler({"A4" : bufferX})]. *)
Definition sampler_A4 : MultiSampler.t :=
  {| MultiSampler._buffers := {[ "69" := bufferX ]};
     MultiSampler._activeSources := ∅;
     MultiSampler.attack := 0;
     MultiSampler.release := 1 # 10;
     MultiSampler.heap := [] |}.

(** A sampler with the two samples G4 (67) and B4 (71). *)
Definition sampler_G4_B4 : MultiSampler.t :=
  {| MultiSampler._buffers := {[ "67" := bufferX; "71" := bufferX ]};
     MultiSampler._activeSources := ∅;
     MultiSampler.attack := 0;
     MultiSampler.release := 1 # 10;
     MultiSampler.heap := [] |}.

(** The sampler [new Tone.MultiSampler()], without samples. *)
Definition sampler_empty : MultiSampler.t :=
  {| MultiSampler._buffers := ∅;
     MultiSampler._activeSources := ∅;
     MultiSampler.attack := 0;
     MultiSampler.release := 1 # 10;
     MultiSampler.heap := [] |}.

(** The sampler [sampler_A4] after two attacks of A4, at the times 0 and
    1. *)
Definition after_two_attacks : Result MultiSampler.t :=
  do s <- MultiSampler.triggerAttack PitchCodec.toMidi ctx0 sampler_A4
            (JsString "A4") (Some 0%Q) None;
  MultiSampler.triggerAttack PitchCodec.toMidi ctx0 s
    (JsString "A4") (Some 1%Q) None.

(** A voice bound to the loaded buffer [bufferX], with the default
    options. *)
Definition voiceX : BufferSource.t :=
  BufferSource.new
    {| BufferSource.o_buffer := Some bufferX;
       BufferSource.o_loop := false;
       BufferSource.o_loopStart := 0;
       BufferSource.o_loopEnd := 0;
       BufferSource.o_fadeIn := 0;
       BufferSource.o_fadeOut := 0;
       BufferSource.o_playbackRate := 1 |}.

(** The same voice, looping. *)
Definition loopingX : BufferSource.t :=
  BufferSource.new
    {| BufferSource.o_buffer := Some bufferX;
       BufferSource.o_loop := true;
       BufferSource.o_loopStart := 0;
       BufferSource.o_loopEnd := 0;
       BufferSource.o_fadeIn := 0;
       BufferSource.o_fadeOut := 0;
       BufferSource.o_playbackRate := 1 |}.

(** A voice whose buffer is still loading, and one without a buffer. *)
Definition voice_loading : BufferSource.t :=
  BufferSource.new
    {| BufferSource.o_buffer :=
         Some {| name := "./audio/sine.wav"; loaded := false; duration := 0 |};
       BufferSource.o_loop := false;
       BufferSource.o_loopStart := 0;
       BufferSource.o_loopEnd := 0;
       BufferSource.o_fadeIn := 0;
       BufferSource.o_fadeOut := 0;
       BufferSource.o_playbackRate := 1 |}.

Definition voice_unset : BufferSource.t :=
  BufferSource.new BufferSource.defaults.

(** ** Sequences of calls on a sampler *)

Section SamplerSteps.

Import MultiSampler.

Variable toMidi : JsValue -> Z.

(** The property key under which [add] registers the buffer of a note:
    the text of the MIDI number for pitch notation (line 162), the key as
    it is given otherwise (line 165). *)
Definition stored_key (note : JsValue) : string :=
  if Tone.isNote note then ToString (toMidi note) else ToPropertyKey note.

(** Calls of [add], one after the other; a call that throws ends the
    sequence. *)
Fixpoint adds (samples : list (JsValue * Buffers.Source)) (this : t)
  : Result t :=
  match samples with
  | [] => OK this
  | (note, url) :: samples' =>
      do this' <- add toMidi this note url;
      adds samples' this'
  end.

(** The registry has the entry [e] at the position [i] of the queue of
    the property key [key]. *)
Definition entry_at (this : t) (key : string) (i : nat) (e : ActiveSource)
  : Prop :=
  exists q, _activeSources this !! key = Some q /\ q !! i = Some e.

(** A source of the store as [triggerAttack] leaves it: bound to a loaded
    buffer, not looping, and started on the native node. *)
Definition voice_ok (v : BufferSource.t) : Prop :=
  BufferSource.buffer_loaded v = true /\
  BufferSource.loop v = false /\
  is_Some (BufferSource._source_start v).

(** The invariant of the registry and the store: every source of the
    store is as an attack leaves it; an entry is filed under the key of
    its own note and refers to a source of the store; and no two entries
    refer to the same source. *)
Definition sampler_ok (this : t) : Prop :=
  Forall voice_ok (heap this) /\
  (forall key i e, entry_at this key i e ->
     key = ToString (note e) /\ (source e < length (heap this))%nat) /\
  (forall key1 i1 e1 key2 i2 e2,
     entry_at this key1 i1 e1 -> entry_at this key2 i2 e2 ->
     source e1 = source e2 -> key1 = key2 /\ i1 = i2).

(** The samplers that the calls of the public interface lead to: the
    constructor, [add], [triggerAttack], [triggerRelease], and the
    assignments to the properties [attack] and [release]. Modelled from
    the spec: the load of a registered buffer completes at some moment
    and gives the buffer its audio data (Tone/core/Buffer.js is not among
    the sources). *)
Inductive reachable : t -> Prop :=
  | reachable_new urls attack release this :
      new toMidi urls attack release = OK this -> reachable this
  | reachable_add this note url this' :
      reachable this -> add toMidi this note url = OK this' ->
      reachable this'
  | reachable_triggerAttack ctx this note time velocity this' :
      reachable this ->
      triggerAttack toMidi ctx this note time velocity = OK this' ->
      reachable this'
  | reachable_triggerRelease ctx this note time this' :
      reachable this ->
      triggerRelease toMidi ctx this note time = OK this' ->
      reachable this'
  | reachable_set_attack this a :
      reachable this ->
      reachable {| _buffers := _buffers this;
                   _activeSources := _activeSources this;
                   attack := a; release := release this;
                   heap := heap this |}
  | reachable_set_release this r :
      reachable this ->
      reachable {| _buffers := _buffers this;
                   _activeSources := _activeSources this;
                   attack := attack this; release := r;
                   heap := heap this |}
  | reachable_loaded this key b d :
      reachable this -> _buffers this !! key = Some b ->
      reachable
        (set_buffers
           (<[key := {| name := name b; loaded := true; duration := d |}]>
              (_buffers this)) this).

End SamplerSteps.

(** The key of an entry of [urls] is rejected: it is neither pitch
    notation nor read as a number by [parseFloat]. *)
Definition rejected_key (entry : string * Buffers.Source) : Prop :=
  Tone.isNote (JsString entry.1) = false /\
  isNaN (parseFloat entry.1) = true.

(** ** The envelope and the loop of a Tone.BufferSource *)

Section EnvelopeParts.

Import BufferSource.
Local Open Scope Q_scope.

(** The times at which the calls [cs] schedule a value on the gain
    parameter, in the order of the calls; [cancelScheduledValues]
    schedules no value. *)
Definition scheduled_times (cs : list AudioParamCall) : list Q :=
  omap (fun c =>
          match c with
          | setValueAtTime _ time => Some time
          | linearRampToValueAtTime _ time => Some time
          | cancelScheduledValues _ => None
          end) cs.

(** The calls that [stop] makes on the gain parameter (lines 244 to 254
    of the source). *)
Definition stop_calls (ctx : Context) (this : t) (time fadeOutTime : option Q)
  : list AudioParamCall :=
  let fadeOutTime := fade_of fadeOutTime (fadeOut this) in
  let time := Qmax (_startTime this) (toSeconds ctx time) in
  cancelScheduledValues (_startTime this + sampleTime ctx)
  :: (if Qlt_bool 0 fadeOutTime then
        [setValueAtTime (_gain this) time;
         linearRampToValueAtTime 0 (time + fadeOutTime)]
      else [setValueAtTime 0 time]).

(** The end of the loop that [start] works with (line 205):
    [this.loopEnd || this.buffer.duration]. *)
Definition loop_end (this : t) : Q :=
  if Qeq_bool (loopEnd this) 0 then buffer_duration this else loopEnd this.

End EnvelopeParts.

(** ** Tone.js: the options of a constructor and their defaults *)

Module Defaults.

Local Set Warnings "-register-all".

(** The values that options hold. [Object] is an object literal, given by
    its own enumerable properties in the order of their creation; their
    names are no names of [Object.prototype]. [Instance] stands for every
    other object (an array, a buffer, an instance of a class), told apart
    by its reference. *)
Inductive Value :=
  | Undefined
  | Null
  | Boolean (b : bool)
  | Num (x : Q)
  | Text (s : string)
  | Func (name : string)
  | Instance (ref : nat)
  | Object (props : list (string * Value)).

(** Tone.isUndef *)
Definition isUndef (val : Value) : bool :=
  match val with
  | Undefined => true
  | _ => false
  end.

(** Tone.isObject: true for object literals only. *)
Definition isObject (arg : Value) : bool :=
  match arg with
  | Object _ => true
  | _ => false
  end.

(** [obj[key]], read: [undefined] when there is no such property. *)
Fixpoint get (props : list (string * Value)) (key : string) : Value :=
  match props with
  | [] => Undefined
  | (k, v) :: props' => if String.eqb k key then v else get props' key
  end.

(** [obj[key] = v]: the value of an existing property is replaced, a new
    property is created after the existing ones. *)
Fixpoint set (props : list (string * Value)) (key : string) (v : Value)
  : list (string * Value) :=
  match props with
  | [] => [(key, v)]
  | (k, w) :: props' =>
      if String.eqb k key then (k, v) :: props'
      else (k, w) :: set props' key v
  end.

(** The names that [for (name in obj)] and [Object.keys(obj)] enumerate. *)
Definition keys (props : list (string * Value)) : list string :=
  map fst props.

(** The number of object literals nested in a value. *)
Fixpoint depth (v : Value) : nat :=
  match v with
  | Object props =>
      S (foldr (fun p d => Nat.max (match p with (_, w) => depth w end) d)
           0%nat props)
  | _ => 0%nat
  end.

(** Tone.defaultArg. [fuel] bounds the depth of the recursion; the values
    are finite trees, so that the recursion ends (an object that refers
    to itself, for which the source does not return, is no value of the
    model). *)
Fixpoint defaultArg_fuel (fuel : nat) (given fallback : Value) : Value :=
  match fuel with
  | O => Undefined
  | S fuel' =>
      match given, fallback with
      | Object g, Object f =>
          let ret := [] in
          let ret :=
            foldl (fun ret givenProp =>
                     set ret givenProp
                       (defaultArg_fuel fuel' (get f givenProp)
                          (get g givenProp)))
              ret (keys g) in
          let ret :=
            foldl (fun ret fallbackProp =>
                     set ret fallbackProp
                       (defaultArg_fuel fuel' (get g fallbackProp)
                          (get f fallbackProp)))
              ret (keys f) in
          Object ret
      | _, _ => if isUndef given then fallback else given
      end
  end.

Definition defaultArg (given fallback : Value) : Value :=
  defaultArg_fuel (S (depth given)) given fallback.

(** A constructor, as far as its defaults go: the object literal
    [constr.defaults] when the class has one, and the parent class
    [constr._super] that [Tone.extend] records. *)
Inductive Constr := {
  c_defaults : option (list (string * Value));
  _super : option Constr
}.

(** Tone.defaults(values, keys, constr) *)
Definition defaults (values : list Value) (keys : list string)
    (constr : Constr) : Value :=
  let options :=
    if (length values =? 1)%nat
       && isObject (default Undefined (values !! 0%nat))
    then default Undefined (values !! 0%nat)
    else
      Object
        (foldl (fun options i =>
                  match keys !! i with
                  | Some key =>
                      set options key (default Undefined (values !! i))
                  | None => options
                  end)
           [] (seq 0 (length keys))) in
  match c_defaults constr with
  | Some d => defaultArg options (Object d)
  | None => options
  end.

(** Tone.prototype._collectDefaults *)
Fixpoint _collectDefaults (constr : Constr) : list string :=
  let ret :=
    match c_defaults constr with
    | Some d => keys d
    | None => []
    end in
  match _super constr with
  | Some super =>
      let superDefs := _collectDefaults super in
      foldl (fun ret x => if bool_decide (x ∈ ret) then ret else ret ++ [x])
        ret superDefs
  | None => ret
  end.

(** The names of the defaults of the class itself. *)
Definition own_keys (constr : Constr) : list string :=
  match c_defaults constr with
  | Some d => keys d
  | None => []
  end.

(** The class and its ancestors, the class first. *)
Fixpoint ancestry (constr : Constr) : list Constr :=
  constr ::
  match _super constr with
  | Some super => ancestry super
  | None => []
  end.

(** The class Tone: no defaults and no parent. *)
Definition Tone_constr : Constr :=
  {| c_defaults := None; _super := None |}.

(** Tone.MultiSampler.defaults (lines 76 to 81); Tone.noOp is the function
    of that name. *)
Definition MultiSampler_defaults : list (string * Value) :=
  [("attack", Num 0); ("release", Num (1 # 10));
   ("onload", Func "Tone.noOp"); ("baseUrl", Text EmptyString)].

(** Tone.BufferSource.defaults (lines 112 to 121) and the class, which
    extends Tone. *)
Definition BufferSource_defaults : list (string * Value) :=
  [("onended", Func "Tone.noOp"); ("onload", Func "Tone.noOp");
   ("loop", Boolean false); ("loopStart", Num 0); ("loopEnd", Num 0);
   ("fadeIn", Num 0); ("fadeOut", Num 0); ("playbackRate", Num 1)].

Definition BufferSource_constr : Constr :=
  {| c_defaults := Some BufferSource_defaults; _super := Some Tone_constr |}.

(** Tone.Delay.defaults and Tone.Gain.defaults; both classes extend
    Tone. *)
Definition Delay_constr : Constr :=
  {| c_defaults := Some [("maxDelay", Num 1); ("delayTime", Num 0)];
     _super := Some Tone_constr |}.

Definition Gain_constr : Constr :=
  {| c_defaults := Some [("gain", Num 1); ("convert", Boolean true)];
     _super := Some Tone_constr |}.

End Defaults.

(** * Properties *)

(** ** Examples of the conversions *)

Example parseFloat_69 : parseFloat "69" = Finite (69 * 1)%Q.
Proof. reflexivity. Qed.

Example js_rem_examples :
  (exists r, js_rem 7.5 2 = Some r /\ r == 1.5)%Q /\
  (exists r, js_rem (-7.5) 2 = Some r /\ r == -1.5)%Q /\
  js_rem 1 0 = None.
Proof.
  split; [|split]; [eexists; split; reflexivity..|reflexivity].
Qed.

Example toMidi_A4 : PitchCodec.toMidi (JsString "A4") = 69.
Proof. reflexivity. Qed.

Example toMidi_G4 : PitchCodec.toMidi (JsString "G4") = 67.
Proof. reflexivity. Qed.

Example toMidi_Asharp6 : PitchCodec.toMidi (JsString "A#6") = 94.
Proof. reflexivity. Qed.

Example toMidi_C_minus1 : PitchCodec.toMidi (JsString "C-1") = 0.
Proof. reflexivity. Qed.

Example isNote_examples :
  map Tone.isNote
    [JsString "A4"; JsString "bb3"; JsString "nope"; JsString "69";
     JsNumber 69; JsString "A4xyz"]
  = [true; true; false; false; false; true].
Proof. reflexivity. Qed.

Example parseFloat_examples :
  map (fun s => isNaN (parseFloat s)) ["69"; "69.5"; " 7e1x"; "nope"; "."; "note"]
  = [false; false; false; true; true; true].
Proof. reflexivity. Qed.

(** ** Property keys *)

Lemma to_int_not_nil (n : Z) :
  Z.to_int n <> Decimal.Pos Decimal.Nil /\
  Z.to_int n <> Decimal.Neg Decimal.Nil.
Proof.
  destruct n as [|p|p]; simpl; split; try discriminate;
    intros [= H]; revert H; apply DecimalPos.Unsigned.to_uint_nonnil.
Qed.

(** A key that is the text of an integer is read back as that integer. *)
Lemma int_of_ToString (n : Z) :
  NilZero.int_of_string (ToString n) = Some (Z.to_int n).
Proof.
  unfold ToString. destruct (to_int_not_nil n). now apply NilZero.isi.
Qed.

Lemma ToString_inj (a b : Z) : ToString a = ToString b -> a = b.
Proof.
  intros H. apply DecimalZ.to_int_inj.
  pose proof (int_of_ToString a) as Ha. rewrite H, int_of_ToString in Ha.
  congruence.
Qed.

Lemma isIntegerKey_spec (k : string) :
  isIntegerKey k = true <-> exists n : Z, k = ToString n.
Proof.
  unfold isIntegerKey. split.
  - destruct (NilZero.int_of_string k) as [d|]; [|discriminate].
    intros H%String.eqb_eq. eauto.
  - intros [n ->]. rewrite int_of_ToString, DecimalZ.of_to.
    apply String.eqb_refl.
Qed.

(** ** The nearest-match search *)

Section FindClosest.

Import MultiSampler.

Variable bufs : gmap string ToneBuffer.

(** One turn of the loop. *)
Lemma _findClosest_loop_step (fuel : nat) (midi interval : Z) :
  _findClosest_loop (S fuel) bufs midi interval =
  if interval <? MAX_INTERVAL then
    if holds bufs (midi + interval) then Some (- interval)
    else if holds bufs (midi - interval) then Some interval
    else _findClosest_loop fuel bufs midi (interval + 1)
  else None.
Proof. reflexivity. Qed.

(** The loop passes over [n] intervals that hold no sample. *)
Lemma _findClosest_loop_skip (midi : Z) (n fuel : nat) (interval : Z) :
  interval + Z.of_nat n <= MAX_INTERVAL ->
  (forall j, interval <= j < interval + Z.of_nat n ->
     holds bufs (midi + j) = false /\ holds bufs (midi - j) = false) ->
  _findClosest_loop (n + fuel) bufs midi interval =
  _findClosest_loop fuel bufs midi (interval + Z.of_nat n).
Proof.
  revert interval. induction n as [|n IH]; intros interval Hle Hnone.
  - simpl. f_equal. lia.
  - change (S n + fuel)%nat with (S (n + fuel)).
    rewrite _findClosest_loop_step.
    destruct (Z.ltb_spec interval MAX_INTERVAL) as [_|Hge]; [|lia].
    destruct (Hnone interval) as [-> ->]; [lia|].
    rewrite IH.
    + f_equal. lia.
    + lia.
    + intros j Hj. apply Hnone. lia.
Qed.

(** What the loop returns is a hit at a distance below [MAX_INTERVAL],
    and no nearer interval had one. *)
Lemma _findClosest_loop_Some (midi : Z) (fuel : nat) (interval d : Z) :
  0 <= interval ->
  _findClosest_loop fuel bufs midi interval = Some d ->
  interval <= Z.abs d < MAX_INTERVAL /\
  holds bufs (midi - d) = true /\
  (forall j, interval <= j < Z.abs d ->
     holds bufs (midi + j) = false /\ holds bufs (midi - j) = false) /\
  (0 < d -> holds bufs (midi + d) = false).
Proof.
  revert interval. induction fuel as [|fuel IH]; intros interval Hpos; [discriminate|].
  rewrite _findClosest_loop_step.
  destruct (Z.ltb_spec interval MAX_INTERVAL) as [Hlt|_]; [|discriminate].
  destruct (holds bufs (midi + interval)) eqn:Habove.
  { intros [= <-]. replace (midi - - interval) with (midi + interval) by lia.
    split; [lia|]. split; [trivial|]. split; intros; lia. }
  destruct (holds bufs (midi - interval)) eqn:Hbelow.
  { intros [= <-]. split; [lia|]. split; [trivial|].
    split; [intros; lia|trivial]. }
  intros H. apply IH in H; [|lia].
  destruct H as (Hd & Hhit & Hnone & Hab).
  split; [lia|]. split; [trivial|]. split; [|trivial].
  intros j Hj. destruct (Z.eq_dec j interval) as [->|]; [now split|].
  apply Hnone. lia.
Qed.

(** When the loop returns no match, no interval from the current one up to
    [MAX_INTERVAL - 1] holds a sample, provided the fuel covers them. *)
Lemma _findClosest_loop_None (midi : Z) (fuel : nat) (interval : Z) :
  MAX_INTERVAL - interval < Z.of_nat fuel ->
  _findClosest_loop fuel bufs midi interval = None ->
  forall j, interval <= j < MAX_INTERVAL ->
    holds bufs (midi + j) = false /\ holds bufs (midi - j) = false.
Proof.
  revert interval. induction fuel as [|fuel IH]; intros interval Hfuel; [lia|].
  rewrite _findClosest_loop_step.
  destruct (Z.ltb_spec interval MAX_INTERVAL) as [Hlt|Hge]; [|intros; lia].
  destruct (holds bufs (midi + interval)) eqn:Habove; [discriminate|].
  destruct (holds bufs (midi - interval)) eqn:Hbelow; [discriminate|].
  intros H j Hj. destruct (Z.eq_dec j interval) as [->|]; [now split|].
  apply (IH (interval + 1)); trivial; lia.
Qed.

(** The fuel of [_findClosest] is never used up: more fuel changes
    nothing. *)
Lemma _findClosest_loop_fuel (midi : Z) (fuel extra : nat) (interval : Z) :
  MAX_INTERVAL - interval < Z.of_nat fuel ->
  _findClosest_loop (fuel + extra) bufs midi interval =
  _findClosest_loop fuel bufs midi interval.
Proof.
  revert interval. induction fuel as [|fuel IH]; intros interval Hfuel.
  - destruct (extra); [reflexivity|]. simpl.
    destruct (Z.ltb_spec interval MAX_INTERVAL); [lia|reflexivity].
  - change (S fuel + extra)%nat with (S (fuel + extra)).
    rewrite !_findClosest_loop_step.
    destruct (Z.ltb_spec interval MAX_INTERVAL) as [Hlt|Hge]; [|reflexivity].
    destruct (holds bufs (midi + interval)); [reflexivity|].
    destruct (holds bufs (midi - interval)); [reflexivity|].
    apply IH. lia.
Qed.

End FindClosest.

Example new_sampler_A4 :
  MultiSampler.new PitchCodec.toMidi [("A4", Buffers.Buffer bufferX)]
    0 (1 # 10) = OK sampler_A4.
Proof. reflexivity. Qed.

Lemma has_number (bufs : gmap string ToneBuffer) (k : Z) :
  Buffers.has bufs (JsNumber k) = true <-> is_Some (bufs !! ToString k).
Proof. unfold Buffers.has. simpl. apply bool_decide_eq_true. Qed.

(** In a bank whose only key is the integer [n], the keys that hold a
    sample are [n] alone. *)
Lemma has_singleton (n : Z) (b : ToneBuffer) (k : Z) :
  Buffers.has {[ ToString n := b ]} (JsNumber k) = bool_decide (k = n).
Proof.
  unfold Buffers.has. simpl. apply bool_decide_ext.
  rewrite lookup_singleton_is_Some. split.
  - intros H. symmetry. now apply ToString_inj.
  - now intros ->.
Qed.

(** ** C1: the sample above wins a tie *)

(** C1. For every MIDI integer [m] and every interval [i] with
    [0 < i < 24], when the bank holds samples at both [m + i] and [m - i]
    and none at a distance smaller than [i] from [m], [_findClosest]
    returns the signed distance [- i]: the sample above is preferred. *)
Theorem findClosest_prefers_above (this : MultiSampler.t) (m i : Z) :
  0 < i < MultiSampler.MAX_INTERVAL ->
  Buffers.has (MultiSampler._buffers this) (JsNumber (m + i)) = true ->
  Buffers.has (MultiSampler._buffers this) (JsNumber (m - i)) = true ->
  (forall k, Z.abs (k - m) < i ->
     Buffers.has (MultiSampler._buffers this) (JsNumber k) = false) ->
  MultiSampler._findClosest this m = Some (- i).
Proof.
  intros Hi Habove _ Hnone. unfold MultiSampler._findClosest.
  assert (Hfuel : S (Z.to_nat MultiSampler.MAX_INTERVAL)
                  = (Z.to_nat i + S (Z.to_nat (MultiSampler.MAX_INTERVAL - i)))%nat)
    by (unfold MultiSampler.MAX_INTERVAL in *; lia).
  rewrite Hfuel, _findClosest_loop_skip.
  - rewrite _findClosest_loop_step.
    destruct (Z.ltb_spec (0 + Z.of_nat (Z.to_nat i)) MultiSampler.MAX_INTERVAL)
      as [_|Hge]; [|lia].
    unfold holds. replace (0 + Z.of_nat (Z.to_nat i)) with i by lia.
    now rewrite Habove.
  - lia.
  - intros j Hj. unfold holds. split; apply Hnone; lia.
Qed.

Lemma findClosest_prefers_above_witness :
  MultiSampler._findClosest sampler_G4_B4 69 = Some (- 2).
Proof.
  apply (findClosest_prefers_above sampler_G4_B4 69 2).
  - unfold MultiSampler.MAX_INTERVAL. lia.
  - reflexivity.
  - reflexivity.
  - intros k Hk.
    assert (Hcases : k = 68 \/ k = 69 \/ k = 70) by lia.
    destruct Hcases as [-> | [-> | ->]]; reflexivity.
Defined.

(** ** C2: the radius of the search, and the silent no-match *)

(** C2. For every MIDI integer [m], [_findClosest] returns either a signed
    distance [d] with [|d| <= 23] (and then the bank holds a sample at
    [m - d]) or no match; it returns no match exactly when the bank holds
    no sample at a distance below 24 from [m], whatever it holds at
    distance 24 or more, so a sample exactly 24 semitones away is never
    selected;
    the no-match is the exit of the loop itself (more fuel gives the same
    result); and [triggerAttack] on a note without a match returns
    normally and leaves the sampler as it was: no BufferSource is created
    and the registry of active sources is unchanged. *)
Theorem findClosest_radius_and_silent_attack
    (toMidi : JsValue -> Z) (this : MultiSampler.t) :
  (forall m d, MultiSampler._findClosest this m = Some d ->
     Z.abs d <= MultiSampler.MAX_INTERVAL - 1 /\
     Buffers.has (MultiSampler._buffers this) (JsNumber (m - d)) = true) /\
  (forall m,
     MultiSampler._findClosest this m = None <->
     (forall k, Z.abs (k - m) < MultiSampler.MAX_INTERVAL ->
        Buffers.has (MultiSampler._buffers this) (JsNumber k) = false)) /\
  (forall m extra,
     MultiSampler._findClosest_loop
       (S (Z.to_nat MultiSampler.MAX_INTERVAL) + extra)
       (MultiSampler._buffers this) m 0
     = MultiSampler._findClosest this m) /\
  (forall ctx note time velocity,
     MultiSampler._findClosest this (toMidi note) = None ->
     MultiSampler.triggerAttack toMidi ctx this note time velocity = OK this).
Proof.
  split; [|split; [|split]].
  - intros m d H. apply _findClosest_loop_Some in H; [|lia].
    split; [lia|apply H].
  - intros m. split.
    + intros Hnone k Hk.
      unfold MultiSampler._findClosest in Hnone.
      assert (Hall : forall j, 0 <= j < MultiSampler.MAX_INTERVAL ->
                holds (MultiSampler._buffers this) (m + j) = false /\
                holds (MultiSampler._buffers this) (m - j) = false).
      { apply (_findClosest_loop_None _ m
                 (S (Z.to_nat MultiSampler.MAX_INTERVAL)) 0);
          [|exact Hnone].
        unfold MultiSampler.MAX_INTERVAL. lia. }
      unfold MultiSampler.MAX_INTERVAL in *.
      destruct (Z.le_gt_cases m k).
      * destruct (Hall (k - m)) as [Habove _]; [lia|].
        unfold holds in Habove. now replace (m + (k - m)) with k in Habove by lia.
      * destruct (Hall (m - k)) as [_ Hbelow]; [lia|].
        unfold holds in Hbelow. now replace (m - (m - k)) with k in Hbelow by lia.
    + intros Hnone.
      destruct (MultiSampler._findClosest this m) as [d|] eqn:Hd;
        [|reflexivity].
      apply _findClosest_loop_Some in Hd; [|lia].
      destruct Hd as (Hrange & Hhit & _). unfold holds in Hhit.
      rewrite Hnone in Hhit; [discriminate|lia].
  - intros m extra. apply _findClosest_loop_fuel.
    unfold MultiSampler.MAX_INTERVAL. lia.
  - intros ctx note time velocity Hnone.
    unfold MultiSampler.triggerAttack. now rewrite Hnone.
Qed.

(** With only A4 (69) in the bank: the sample is exactly 24 semitones
    above A2 (45) and is not selected; and [triggerAttack("A#6")] (94, 25
    semitones above the sample) does nothing. *)
Lemma findClosest_radius_and_silent_attack_witness :
  MultiSampler._findClosest sampler_A4 45 = None /\
  Buffers.has (MultiSampler._buffers sampler_A4) (JsNumber (45 + 24)) = true /\
  MultiSampler.triggerAttack PitchCodec.toMidi ctx0 sampler_A4
    (JsString "A#6") None None = OK sampler_A4.
Proof.
  destruct (findClosest_radius_and_silent_attack PitchCodec.toMidi sampler_A4)
    as (_ & Hnone & _ & Hsilent).
  split; [|split].
  - apply Hnone. intros k Hk. simpl.
    change "69"%string with (ToString 69). rewrite has_singleton.
    apply bool_decide_eq_false. unfold MultiSampler.MAX_INTERVAL in Hk. lia.
  - reflexivity.
  - apply Hsilent. reflexivity.
Defined.

(** ** Tone.BufferSource: what [stop] and [start] do to the fields *)

Section BufferSourceFacts.

Import BufferSource.
Local Open Scope Q_scope.

(** [start], read through the definitions above. *)
Lemma start_eq (ctx : Context) (this : t)
    (time offset duration gain fadeInTime : option Q) :
  start ctx this time offset duration gain fadeInTime =
  if negb (Qeq_bool (_startTime this) (-1)) then Throw AlreadyStartedError
  else if buffer_loaded this then
    let t := toSeconds ctx time in
    let off := start_offset this offset in
    let f := fade_of fadeInTime (fadeIn this) in
    let this1 := start_enveloped this t gain f in
    do this2 <-
      (if negb (loop this) || (loop this && negb (Tone.isUndef duration))
       then stop ctx this1
              (Some (t + resolved_duration this off duration + f)) (Some f)
       else OK this1);
    OK (source_start t (wrapped_offset this2 off) this2)
  else Throw BufferNotReadyError.
Proof.
  unfold start, start_enveloped, resolved_duration, start_offset, fade_of,
    buffer_loaded, buffer_duration.
  destruct this as [st sp gn sb ss b pr fi fo g tm l ls le]. simpl.
  destruct (Qeq_bool st (-1)); [|reflexivity].
  destruct b as [b|]; [|reflexivity].
  destruct (loaded b); [|reflexivity].
  destruct l, duration, fadeInTime as [f|];
    simpl; try destruct (Qlt_bool 0 f); try destruct (Qlt_bool 0 fi);
    reflexivity.
Qed.

(** [stop] fails exactly when the buffer is unset or not loaded. *)
Lemma stop_Throw_iff (ctx : Context) (this : t) (time fadeOutTime : option Q) :
  stop ctx this time fadeOutTime = Throw BufferNotReadyError
  <-> buffer_loaded this = false.
Proof.
  unfold stop. destruct (buffer_loaded this); split; congruence.
Qed.

Lemma stop_OK (ctx : Context) (this : t) (time fadeOutTime : option Q) :
  buffer_loaded this = true ->
  exists this', stop ctx this time fadeOutTime = OK this'.
Proof. intros H. unfold stop. rewrite H. eauto. Qed.

(** The fields after a [stop] that returned. *)
Lemma stop_fields (ctx : Context) (this this' : t)
    (time fadeOutTime : option Q) :
  stop ctx this time fadeOutTime = OK this' ->
  buffer_loaded this = true /\
  _stopTime this' = toSeconds ctx time + fade_of fadeOutTime (fadeOut this) /\
  _onendedTimeout this' =
    Some (toSeconds ctx time + fade_of fadeOutTime (fadeOut this) - now ctx) /\
  _startTime this' = _startTime this /\
  buffer this' = buffer this /\
  playbackRate this' = playbackRate this /\
  _gain this' = _gain this /\
  loop this' = loop this /\
  loopStart this' = loopStart this /\
  loopEnd this' = loopEnd this /\
  _source_start this' = _source_start this /\
  _source_buffer this' = _source_buffer this /\
  fadeIn this' = fadeIn this /\
  fadeOut this' = fadeOut this.
Proof.
  unfold stop, fade_of. destruct (buffer_loaded this); [|discriminate].
  intros [= <-].
  destruct fadeOutTime as [f|];
    [destruct (Qlt_bool 0 f)|destruct (Qlt_bool 0 (fadeOut this))];
    simpl; repeat split; reflexivity.
Qed.

Lemma stop_gainNode (ctx : Context) (this this' : t)
    (time fadeOutTime : option Q) :
  stop ctx this time fadeOutTime = OK this' ->
  _gainNode this' = _gainNode this ++ stop_calls ctx this time fadeOutTime.
Proof.
  unfold stop, stop_calls, fade_of.
  destruct (buffer_loaded this); [|discriminate].
  intros [= <-].
  destruct fadeOutTime as [f|];
    [destruct (Qlt_bool 0 f)|destruct (Qlt_bool 0 (fadeOut this))];
    cbn; rewrite <- app_assoc; reflexivity.
Qed.

Lemma stop_buffer_loaded (ctx : Context) (this this' : t)
    (time fadeOutTime : option Q) :
  stop ctx this time fadeOutTime = OK this' ->
  buffer_loaded this' = true.
Proof.
  intros H. apply stop_fields in H. destruct H as (Hl & _ & _ & _ & Hb & _).
  unfold buffer_loaded in *. now rewrite Hb.
Qed.

Lemma start_enveloped_fields (this : t) (time : Q) (gain : option Q)
    (f : Q) :
  let this1 := start_enveloped this time gain f in
  _startTime this1 = time + f /\
  _stopTime this1 = _stopTime this /\
  _onendedTimeout this1 = _onendedTimeout this /\
  buffer this1 = buffer this /\
  playbackRate this1 = playbackRate this /\
  _gain this1 = Tone.defaultArg gain 1 /\
  loop this1 = loop this /\
  loopStart this1 = loopStart this /\
  loopEnd this1 = loopEnd this /\
  fadeIn this1 = fadeIn this /\
  fadeOut this1 = fadeOut this.
Proof.
  unfold start_enveloped. destruct (Qlt_bool 0 f); simpl; repeat split.
Qed.

Lemma wrapped_offset_ext (this this' : t) (offset : Q) :
  loop this' = loop this -> loopStart this' = loopStart this ->
  loopEnd this' = loopEnd this -> buffer this' = buffer this ->
  wrapped_offset this' offset = wrapped_offset this offset.
Proof.
  intros Hl Hs He Hb. unfold wrapped_offset, buffer_duration.
  now rewrite Hl, Hs, He, Hb.
Qed.

(** A [start] that returned went through the two guards, then through the
    call of [stop] when one is due, then started the native node. *)
Lemma start_inv (ctx : Context) (this this' : t)
    (time offset duration gain fadeInTime : option Q) :
  start ctx this time offset duration gain fadeInTime = OK this' ->
  Qeq_bool (_startTime this) (-1) = true /\
  buffer_loaded this = true /\
  let t := toSeconds ctx time in
  let off := start_offset this offset in
  let f := fade_of fadeInTime (fadeIn this) in
  let this1 := start_enveloped this t gain f in
  exists this2,
    (if schedules_stop this duration
     then (stop ctx this1
             (Some (t + resolved_duration this off duration + f)) (Some f)
           = OK this2)
     else (this2 = this1)) /\
    this' = source_start t (wrapped_offset this off) this2.
Proof.
  rewrite start_eq. unfold schedules_stop.
  destruct (Qeq_bool (_startTime this) (-1)); [|discriminate].
  destruct (buffer_loaded this); [|discriminate].
  simpl negb. cbv zeta.
  set (t := toSeconds ctx time). set (off := start_offset this offset).
  set (f := fade_of fadeInTime (fadeIn this)).
  set (this1 := start_enveloped this t gain f).
  pose proof (start_enveloped_fields this t gain f) as Henv.
  fold this1 in Henv. cbv zeta in Henv.
  destruct Henv as (_ & _ & _ & Hb & _ & _ & Hl & Hls & Hle & _).
  destruct (negb (loop this) || (loop this && negb (Tone.isUndef duration))).
  - destruct (stop ctx this1 _ _) as [this2|e] eqn:Hstop; [|discriminate].
    simpl. intros [= <-]. split; [reflexivity|]. split; [reflexivity|].
    exists this2. split; [reflexivity|].
    apply stop_fields in Hstop.
    destruct Hstop as (_ & _ & _ & _ & Hb2 & _ & _ & Hl2 & Hls2 & Hle2 & _).
    f_equal. apply wrapped_offset_ext; congruence.
  - simpl. intros [= <-]. split; [reflexivity|]. split; [reflexivity|].
    exists this1. split; [reflexivity|].
    f_equal. apply wrapped_offset_ext; congruence.
Qed.

(** [start] returns on an object that was never started and whose buffer
    is loaded. *)
Lemma start_OK (ctx : Context) (this : t)
    (time offset duration gain fadeInTime : option Q) :
  Qeq_bool (_startTime this) (-1) = true ->
  buffer_loaded this = true ->
  exists this', start ctx this time offset duration gain fadeInTime = OK this'.
Proof.
  intros Hfresh Hloaded. rewrite start_eq, Hfresh, Hloaded. simpl negb.
  cbv zeta.
  set (this1 := start_enveloped this _ gain _).
  assert (Hl1 : buffer_loaded this1 = true).
  { pose proof (start_enveloped_fields this (toSeconds ctx time) gain
                  (fade_of fadeInTime (fadeIn this))) as H.
    cbv zeta in H. destruct H as (_ & _ & _ & Hb & _).
    unfold buffer_loaded in *. subst this1. now rewrite Hb. }
  destruct (negb (loop this) || (loop this && negb (Tone.isUndef duration))).
  - destruct (stop_OK ctx this1
                (Some (toSeconds ctx time
                       + resolved_duration this (start_offset this offset)
                           duration
                       + fade_of fadeInTime (fadeIn this)))
                (Some (fade_of fadeInTime (fadeIn this))) Hl1) as [this2 ->].
    simpl. eauto.
  - simpl. eauto.
Qed.

(** Reads the fields of an object that [source_start] returned. *)
Ltac source_fields :=
  unfold source_start;
  cbn [_startTime _stopTime _gainNode _source_buffer _source_start buffer
       playbackRate fadeIn fadeOut _gain _onendedTimeout loop loopStart
       loopEnd].

(** The fields after a [start] that returned. *)
Lemma start_fields (ctx : Context) (this this' : t)
    (time offset duration gain fadeInTime : option Q) :
  start ctx this time offset duration gain fadeInTime = OK this' ->
  let t := toSeconds ctx time in
  let off := start_offset this offset in
  let f := fade_of fadeInTime (fadeIn this) in
  _startTime this' = t + f /\
  buffer this' = buffer this /\
  playbackRate this' = playbackRate this /\
  loop this' = loop this /\
  _gain this' = Tone.defaultArg gain 1 /\
  _source_buffer this' = buffer this /\
  _source_start this' = Some (t, wrapped_offset this off) /\
  (if schedules_stop this duration then
     (_stopTime this' = t + resolved_duration this off duration + f + f /\
      _onendedTimeout this' =
        Some (t + resolved_duration this off duration + f + f - now ctx))
   else
     (_stopTime this' = _stopTime this /\
      _onendedTimeout this' = _onendedTimeout this)).
Proof.
  intros H. apply start_inv in H. cbv zeta in *.
  destruct H as (_ & _ & this2 & Hstop & ->).
  pose proof (start_enveloped_fields this (toSeconds ctx time) gain
                (fade_of fadeInTime (fadeIn this))) as Henv.
  cbv zeta in Henv.
  destruct Henv as (Hst & Hsp & Hto & Hb & Hpr & Hg & Hl & _).
  destruct (schedules_stop this duration).
  - apply stop_fields in Hstop.
    destruct Hstop as (_ & Hsp2 & Hto2 & Hst2 & Hb2 & Hpr2 & Hg2 & Hl2 & _).
    source_fields. repeat split; try congruence; [exact Hsp2|exact Hto2].
  - subst this2. source_fields. repeat split; congruence.
Qed.

End BufferSourceFacts.

(** ** C5: when [stop] fails *)

Section StopErrors.

Import BufferSource.
Local Open Scope Q_scope.

(** C5, as stated, fails: [stop] has no test of whether [start] was
    called. On a voice that was never started and whose buffer is loaded
    it does not throw BufferNotReadyError: it records the stop time 1 and
    schedules the envelope and the [onended] timeout. *)
Lemma stop_before_start_returns :
  Qeq_bool (_startTime voiceX) (-1) = true /\
  exists this',
    stop ctx0 voiceX (Some 1) None = OK this' /\
    stop ctx0 voiceX (Some 1) None <> Throw BufferNotReadyError /\
    _stopTime this' == 1 /\
    _onendedTimeout this' = Some (1 + 0 - 0).
Proof.
  split; [reflexivity|]. eexists. split; [reflexivity|].
  split; [discriminate|]. split; reflexivity.
Qed.

(** C5, amended. [stop] throws, BufferNotReadyError and no other error of
    its own, exactly when the buffer of the voice is unset or has not
    finished loading, whether or not [start] has been called; when the
    buffer is loaded [stop] goes through, also on a voice that was never
    started: it records the stop time [time + fadeOut], keeps the start
    time, schedules the envelope on the gain parameter (the values
    scheduled after the start time are cancelled, and the gain is set to 0
    or ramped down to 0 over the fade-out, from the later of the start
    time and [time] on) and sets the completion timeout to the stop time
    less the time of the clock. *)
Theorem stop_fails_iff_buffer_not_ready
    (ctx : Context) (this : t) (time fadeOutTime : option Q) :
  (stop ctx this time fadeOutTime = Throw BufferNotReadyError <->
   (buffer this = None \/
    exists b, buffer this = Some b /\ loaded b = false)) /\
  (forall e, stop ctx this time fadeOutTime = Throw e ->
     e = BufferNotReadyError) /\
  ((exists b, buffer this = Some b /\ loaded b = true) ->
   exists this',
     stop ctx this time fadeOutTime = OK this' /\
     _stopTime this' =
       toSeconds ctx time + fade_of fadeOutTime (fadeOut this) /\
     _startTime this' = _startTime this /\
     _gainNode this' =
       _gainNode this ++
       cancelScheduledValues (_startTime this + sampleTime ctx)
       :: (if Qlt_bool 0 (fade_of fadeOutTime (fadeOut this))
           then
             [setValueAtTime (_gain this)
                (Qmax (_startTime this) (toSeconds ctx time));
              linearRampToValueAtTime 0
                (Qmax (_startTime this) (toSeconds ctx time)
                 + fade_of fadeOutTime (fadeOut this))]
           else
             [setValueAtTime 0
                (Qmax (_startTime this) (toSeconds ctx time))]) /\
     _onendedTimeout this' =
       Some (toSeconds ctx time + fade_of fadeOutTime (fadeOut this)
             - now ctx)).
Proof.
  split; [|split].
  - rewrite stop_Throw_iff. unfold buffer_loaded.
    destruct (buffer this) as [b|]; split.
    + intros H. right. eauto.
    + intros [H|(b' & [= <-] & H)]; [discriminate|exact H].
    + intros _. now left.
    + reflexivity.
  - intros e. unfold stop. destruct (buffer_loaded this); congruence.
  - intros (b & Hb & Hl).
    destruct (stop_OK ctx this time fadeOutTime) as [this' H].
    { unfold buffer_loaded. now rewrite Hb. }
    exists this'. split; [exact H|].
    pose proof (stop_gainNode _ _ _ _ _ H) as Hg.
    apply stop_fields in H.
    destruct H as (_ & Hstop & Hto & Hstart & _).
    split; [exact Hstop|]. split; [exact Hstart|].
    split; [exact Hg|exact Hto].
Qed.

Lemma stop_fails_iff_buffer_not_ready_witness :
  stop ctx0 voice_unset (Some 1) None = Throw BufferNotReadyError /\
  stop ctx0 voice_loading (Some 1) None = Throw BufferNotReadyError /\
  exists this',
    stop ctx0 voiceX (Some 1) (Some (1 # 2)) = OK this' /\
    _stopTime this' = 1 + (1 # 2) /\
    _startTime this' = -1 /\
    _gainNode this' =
      [cancelScheduledValues (-1 + (1 # 44100));
       setValueAtTime 1 (Qmax (-1) 1);
       linearRampToValueAtTime 0 (Qmax (-1) 1 + (1 # 2))] /\
    _onendedTimeout this' = Some (1 + (1 # 2) - 0).
Proof.
  split; [|split].
  - apply (stop_fails_iff_buffer_not_ready ctx0 voice_unset (Some 1) None).
    left. reflexivity.
  - apply (stop_fails_iff_buffer_not_ready ctx0 voice_loading (Some 1) None).
    right. eexists. split; reflexivity.
  - destruct (stop_fails_iff_buffer_not_ready ctx0 voiceX (Some 1)
                (Some (1 # 2))) as (_ & _ & H).
    destruct H as (this' & H & Hstop & Hstart & Hgain & Hto).
    + exists bufferX. split; reflexivity.
    + exists this'. split; [exact H|]. split; [exact Hstop|].
      split; [exact Hstart|]. split; [exact Hgain|exact Hto].
Defined.

End StopErrors.

(** ** C4: [start] after [start] *)

Section StartOnce.

Import BufferSource.
Local Open Scope Q_scope.

Lemma start_Throw_started (ctx : Context) (this : t)
    (time offset duration gain fadeInTime : option Q) :
  ~ _startTime this == -1 ->
  start ctx this time offset duration gain fadeInTime
  = Throw AlreadyStartedError.
Proof.
  intros Hne. unfold start.
  destruct (Qeq_bool (_startTime this) (-1)) eqn:E; [|reflexivity].
  apply Qeq_bool_iff in E. contradiction.
Qed.

(** C4. The guard of [start] misses a second start. The source means a
    voice to be started once (the error of the guard reads "can only be
    started once"), and tells a started voice by its recorded start time,
    where -1 stands for "never started". The start time that [start]
    records is [time + fadeIn]: a looping voice started at time 0 with
    the fade-in -1, and a voice started at time -1, both record -1 after
    a [start] that returned, and a second [start] on the same object
    passes the guard: it does not throw AlreadyStartedError, schedules
    the envelope again and starts the native node again. *)
Lemma start_twice_returns :
  (exists this1 this2,
     start ctx0 loopingX (Some 0) None None None (Some (-1)) = OK this1 /\
     _startTime this1 == -1 /\
     start ctx0 this1 (Some 0) None None None None = OK this2 /\
     start ctx0 this1 (Some 0) None None None None
     <> Throw AlreadyStartedError) /\
  (exists this1 this2,
     start ctx0 voiceX (Some (-1)) None None None None = OK this1 /\
     start ctx0 this1 (Some 5) None None None None = OK this2 /\
     start ctx0 this1 (Some 5) None None None None
     <> Throw AlreadyStartedError).
Proof.
  split.
  - eexists. eexists. split; [vm_compute; reflexivity|].
    split; [reflexivity|].
    split; [vm_compute; reflexivity|vm_compute; discriminate].
  - eexists. eexists. split; [vm_compute; reflexivity|].
    split; [vm_compute; reflexivity|vm_compute; discriminate].
Qed.

(** Where the guard holds. After a [start] that returned and recorded a
    start time [time + fadeIn] other than -1 (as every start with a
    non-negative time and a non-negative fade-in does), every further
    [start] on the same object fails with AlreadyStartedError, whatever
    its arguments, and also after any [stop] in between. *)
Lemma start_at_most_once (ctx : Context) (this this1 : t)
    (time offset duration gain fadeInTime : option Q) :
  start ctx this time offset duration gain fadeInTime = OK this1 ->
  ~ toSeconds ctx time + fade_of fadeInTime (fadeIn this) == -1 ->
  (forall ctx' time' offset' duration' gain' fadeInTime',
     start ctx' this1 time' offset' duration' gain' fadeInTime'
     = Throw AlreadyStartedError) /\
  (forall ctx2 time2 fadeOutTime2 this2,
     stop ctx2 this1 time2 fadeOutTime2 = OK this2 ->
     forall ctx' time' offset' duration' gain' fadeInTime',
       start ctx' this2 time' offset' duration' gain' fadeInTime'
       = Throw AlreadyStartedError).
Proof.
  intros Hstart Hne. apply start_fields in Hstart. cbv zeta in Hstart.
  destruct Hstart as (Hst & _).
  split.
  - intros. apply start_Throw_started. now rewrite Hst.
  - intros ctx2 time2 fadeOutTime2 this2 Hstop. apply stop_fields in Hstop.
    destruct Hstop as (_ & _ & _ & Hst2 & _).
    intros. apply start_Throw_started. now rewrite Hst2, Hst.
Qed.

Lemma start_at_most_once_witness :
  exists this1,
    start ctx0 voiceX (Some 0) None None None None = OK this1 /\
    start ctx0 this1 (Some 5) (Some 1) (Some 1) None None
    = Throw AlreadyStartedError.
Proof.
  eexists. split; [vm_compute; reflexivity|].
  refine (proj1 (start_at_most_once ctx0 voiceX _ (Some 0) None None None
                   None _ _) ctx0 (Some 5) (Some 1) (Some 1) None None).
  - vm_compute. reflexivity.
  - vm_compute. discriminate.
Defined.

End StartOnce.

(** ** C6: the duration in effect and the automatic stop *)

Section StartDuration.

Import BufferSource.
Local Open Scope Q_scope.

(** C6, as stated, fails for a looping voice: a duration that is given is
    not taken as it is, [Math.max(computedDur, 0)] raises a negative one
    to 0. With the duration -1 at time 0 and no fade-in, the stop is
    called for time 0 and not for time -1. *)
Lemma looping_negative_duration_is_raised :
  exists this',
    start ctx0 loopingX (Some 0) None (Some (-1)) None None = OK this' /\
    resolved_duration loopingX (start_offset loopingX None) (Some (-1)) == 0 /\
    _stopTime this' == 0 /\
    ~ _stopTime this' == 0 + (-1) + 0 + 0.
Proof.
  eexists. split; [vm_compute; reflexivity|].
  split; [reflexivity|]. split; [reflexivity|].
  vm_compute. discriminate.
Qed.

(** C6, amended. After a [start] that returned, with [t] the start time,
    [off] the offset and [f] the fade-in of the call, and [d] the duration
    in effect:
    - a voice that does not loop has [d <= buffer.duration - off]; without
      a duration argument [d] is that bound, and with a duration [x] it is
      [x], raised to 0 when negative, then clipped to that bound; [stop]
      is called for time [t + d + f] with the fade-out override [f];
    - a looping voice with a duration [x] has [d] equal to [x] raised to 0
      when negative, so [x] itself when [0 <= x], not clipped to the
      buffer; [stop] is called in the same way;
    - a looping voice without a duration gets no call of [stop]: the stop
      time and the timeout are as they were. *)
Theorem start_duration_and_automatic_stop (ctx : Context) (this this' : t)
    (time offset duration gain fadeInTime : option Q) :
  start ctx this time offset duration gain fadeInTime = OK this' ->
  let t := toSeconds ctx time in
  let off := start_offset this offset in
  let f := fade_of fadeInTime (fadeIn this) in
  let d := resolved_duration this off duration in
  let called_stop :=
    exists this2,
      stop ctx (start_enveloped this t gain f) (Some (t + d + f)) (Some f)
      = OK this2 /\
      this' = source_start t (wrapped_offset this off) this2 /\
      _stopTime this' = t + d + f + f in
  (loop this = false ->
     d <= buffer_duration this - off /\
     (duration = None -> d == buffer_duration this - off) /\
     (forall x, duration = Some x ->
        d = Qmin (Qmax x 0) (buffer_duration this - off)) /\
     called_stop) /\
  (loop this = true ->
     forall x, duration = Some x ->
       d = Qmax x 0 /\ (0 <= x -> d == x) /\ called_stop) /\
  (loop this = true -> duration = None ->
     this' = source_start t (wrapped_offset this off)
               (start_enveloped this t gain f) /\
     _stopTime this' = _stopTime this /\
     _onendedTimeout this' = _onendedTimeout this).
Proof.
  intros Hstart. pose proof (start_fields _ _ _ _ _ _ _ _ Hstart) as Hf.
  apply start_inv in Hstart. cbv zeta in *.
  destruct Hstart as (_ & _ & this2 & Hstop & Hthis').
  destruct Hf as (_ & _ & _ & _ & _ & _ & _ & Hsp).
  unfold schedules_stop in *.
  split; [|split].
  - intros Hloop. rewrite Hloop in *. simpl in Hstop, Hsp.
    unfold resolved_duration. rewrite Hloop. simpl negb. cbv iota.
    split; [apply Q.le_min_r|].
    split; [|split].
    + intros ->. simpl. apply Q.min_r. apply Q.le_max_l.
    + intros x ->. reflexivity.
    + exists this2. unfold resolved_duration in *. rewrite Hloop in *.
      repeat split; tauto.
  - intros Hloop x ->. rewrite Hloop in *. simpl in Hstop, Hsp.
    unfold resolved_duration. rewrite Hloop. simpl.
    split; [reflexivity|]. split; [intros Hx; now apply Q.max_l|].
    exists this2. unfold resolved_duration in *. rewrite Hloop in *.
    repeat split; tauto.
  - intros Hloop ->. rewrite Hloop in *. simpl in Hstop, Hsp.
    subst this2. tauto.
Qed.

Lemma start_duration_and_automatic_stop_witness :
  (exists this',
     start ctx0 voiceX (Some 1) (Some (1 # 2)) (Some 5) None None = OK this' /\
     resolved_duration voiceX (1 # 2) (Some 5) <= 2 - (1 # 2) /\
     _stopTime this' = 1 + resolved_duration voiceX (1 # 2) (Some 5) + 0 + 0) /\
  (exists this',
     start ctx0 loopingX (Some 1) None (Some 5) None None = OK this' /\
     resolved_duration loopingX 0 (Some 5) == 5) /\
  (exists this',
     start ctx0 loopingX (Some 1) None None None None = OK this' /\
     _stopTime this' = -1).
Proof.
  split; [|split].
  - destruct (start ctx0 voiceX (Some 1) (Some (1 # 2)) (Some 5) None None)
      as [this'|e] eqn:Hs; [|vm_compute in Hs; discriminate].
    exists this'. split; [reflexivity|].
    destruct (start_duration_and_automatic_stop _ _ _ _ _ _ _ _ Hs)
      as (H & _ & _).
    destruct H as (Hle & _ & _ & (this2 & _ & _ & Hsp)); [reflexivity|].
    split; [exact Hle|exact Hsp].
  - destruct (start ctx0 loopingX (Some 1) None (Some 5) None None)
      as [this'|e] eqn:Hs; [|vm_compute in Hs; discriminate].
    exists this'. split; [reflexivity|].
    destruct (start_duration_and_automatic_stop _ _ _ _ _ _ _ _ Hs)
      as (_ & H & _).
    destruct (H eq_refl 5 eq_refl) as (_ & Hx & _).
    apply Hx. vm_compute. discriminate.
  - destruct (start ctx0 loopingX (Some 1) None None None None)
      as [this'|e] eqn:Hs; [|vm_compute in Hs; discriminate].
    exists this'. split; [reflexivity|].
    destruct (start_duration_and_automatic_stop _ _ _ _ _ _ _ _ Hs)
      as (_ & _ & H).
    destruct (H eq_refl eq_refl) as (_ & Hsp & _). exact Hsp.
Defined.

End StartDuration.

(** ** C10: the state of a looping voice started without a duration *)

Section LoopingState.

Import BufferSource.
Local Open Scope Q_scope.

(** With the stop time at -1, the state is [Stopped] at every time of the
    clock from -1 on, so at every time of a clock that is never
    negative. *)
Lemma state_Stopped_unset (ctx : Context) (this : t) :
  _stopTime this == -1 -> -1 <= now ctx -> state ctx this = Tone.Stopped.
Proof.
  intros Hsp Hnow. unfold state, Qlt_bool.
  assert (Hle : Qle_bool (_stopTime this) (now ctx) = true).
  { apply Qle_bool_iff. rewrite Hsp. Lqa.lra. }
  rewrite Hle. simpl. now rewrite !andb_false_r.
Qed.

(** The state is [Started] from the recorded start time to the recorded
    stop time. *)
Lemma state_Started_iff (ctx : Context) (this : t) :
  state ctx this = Tone.Started <->
  ~ _startTime this == -1 /\
  _startTime this <= now ctx /\ now ctx < _stopTime this.
Proof.
  assert (H1 : ~ _startTime this == -1
               <-> Qeq_bool (_startTime this) (-1) = false).
  { rewrite <- Qeq_bool_iff.
    destruct (Qeq_bool (_startTime this) (-1)); split; congruence. }
  assert (H3 : now ctx < _stopTime this
               <-> Qle_bool (_stopTime this) (now ctx) = false).
  { split.
    - intros H. destruct (Qle_bool (_stopTime this) (now ctx)) eqn:E;
        [|reflexivity].
      apply Qle_bool_iff in E. destruct (Qlt_not_le _ _ H E).
    - intros E. apply Qnot_le_lt. rewrite <- Qle_bool_iff. congruence. }
  rewrite H1, H3, <- Qle_bool_iff. unfold state, Qlt_bool.
  destruct (Qeq_bool (_startTime this) (-1)),
    (Qle_bool (_startTime this) (now ctx)),
    (Qle_bool (_stopTime this) (now ctx)); simpl;
    split; try discriminate; try tauto; intuition discriminate.
Qed.

(** C10. A looping voice on which [stop] was not called yet (its stop time
    is the initial -1) and that is started without a duration keeps the
    stop time -1, because [start] does not call [stop]; its state is
    [Stopped] at every time of the clock (the clock of the audio context
    is never negative; every time from -1 on is covered), although the
    native node was started and plays. A later [stop]
    records a stop time, and from the start time up to that stop time the
    state is [Started]. *)
Theorem looping_without_duration_reports_stopped
    (ctx : Context) (this this' : t) (time offset gain fadeInTime : option Q) :
  loop this = true ->
  _stopTime this == -1 ->
  start ctx this time offset None gain fadeInTime = OK this' ->
  _stopTime this' == -1 /\
  _source_start this' =
    Some (toSeconds ctx time,
          wrapped_offset this (start_offset this offset)) /\
  (forall ctx', -1 <= now ctx' -> state ctx' this' = Tone.Stopped) /\
  (forall ctx2 time2 fadeOutTime2 this2 ctx',
     stop ctx2 this' time2 fadeOutTime2 = OK this2 ->
     ~ _startTime this' == -1 ->
     _startTime this' <= now ctx' ->
     now ctx' < toSeconds ctx2 time2 + fade_of fadeOutTime2 (fadeOut this') ->
     state ctx' this2 = Tone.Started).
Proof.
  intros Hloop Hunset Hstart.
  apply start_fields in Hstart. cbv zeta in Hstart.
  destruct Hstart as (Hst & _ & _ & _ & _ & _ & Hss & Hsp).
  unfold schedules_stop in Hsp. rewrite Hloop in Hsp. simpl in Hsp.
  destruct Hsp as (Hsp & _).
  assert (Hsp' : _stopTime this' == -1) by now rewrite Hsp.
  split; [exact Hsp'|]. split; [exact Hss|]. split.
  - intros ctx' Hnow. now apply state_Stopped_unset.
  - intros ctx2 time2 fadeOutTime2 this2 ctx' Hstop Hne Hge Hlt.
    apply stop_fields in Hstop.
    destruct Hstop as (_ & Hsp2 & _ & Hst2 & _).
    apply state_Started_iff. rewrite Hst2, Hsp2. tauto.
Qed.

Lemma looping_without_duration_reports_stopped_witness :
  exists this',
    start ctx0 loopingX (Some 1) None None None None = OK this' /\
    state {| now := 3 # 2; sampleTime := 1 # 44100 |} this' = Tone.Stopped.
Proof.
  destruct (start ctx0 loopingX (Some 1) None None None None)
    as [this'|e] eqn:Hs; [|vm_compute in Hs; discriminate].
  exists this'. split; [reflexivity|].
  destruct (looping_without_duration_reports_stopped ctx0 loopingX this'
              (Some 1) None None None) as (_ & _ & H & _).
  - reflexivity.
  - reflexivity.
  - exact Hs.
  - apply H. vm_compute. discriminate.
Defined.

End LoopingState.

(** ** The frequency ratio of an interval *)

Section Ratio.

Local Open Scope R_scope.

Lemma ratio_pos (i : Z) : 0 < Tone.intervalToFrequencyRatio i.
Proof. unfold Tone.intervalToFrequencyRatio, Rpower. apply exp_pos. Qed.

Lemma ratio_0 : Tone.intervalToFrequencyRatio 0 = 1.
Proof.
  unfold Tone.intervalToFrequencyRatio.
  replace (IZR 0 / 12) with 0 by lra. apply Rpower_O. lra.
Qed.

Lemma ratio_minus2_pow6 : Tone.intervalToFrequencyRatio (-2) ^ 6 = / 2.
Proof.
  unfold Tone.intervalToFrequencyRatio.
  rewrite <- Rpower_pow by (unfold Rpower; apply exp_pos).
  rewrite Rpower_mult.
  replace (IZR (-2) / 12 * INR 6) with (Ropp 1) by (simpl; lra).
  rewrite Rpower_Ropp, Rpower_1 by lra. reflexivity.
Qed.

Lemma ratio_minus2 :
  0.8908 < Tone.intervalToFrequencyRatio (-2) < 0.8910.
Proof.
  pose proof (ratio_pos (-2)) as Hpos. pose proof ratio_minus2_pow6 as H6.
  set (x := Tone.intervalToFrequencyRatio (-2)) in *.
  split.
  - destruct (Rlt_le_dec 0.8908 x) as [H|H]; [exact H|exfalso].
    assert (Hle : x ^ 6 <= 0.8908 ^ 6) by (apply pow_incr; lra).
    rewrite H6 in Hle. simpl in Hle. lra.
  - destruct (Rlt_le_dec x 0.8910) as [H|H]; [exact H|exfalso].
    assert (Hle : 0.8910 ^ 6 <= x ^ 6) by (apply pow_incr; lra).
    rewrite H6 in Hle. simpl in Hle. lra.
Qed.

End Ratio.

(** ** Tone.MultiSampler: attacks *)

Section Attack.

Import MultiSampler.

Variable toMidi : JsValue -> Z.

(** A match of the search is a key of the bank. *)
Lemma _findClosest_lookup (this : t) (midi d : Z) :
  _findClosest this midi = Some d ->
  exists b, _buffers this !! ToString (midi - d) = Some b.
Proof.
  intros H. apply _findClosest_loop_Some in H; [|lia].
  destruct H as (_ & Hhit & _). unfold holds in Hhit.
  apply has_number in Hhit. exact Hhit.
Qed.

(** [triggerAttack] on a note with a match. *)
Lemma triggerAttack_eq (ctx : Context) (this : t) (note : JsValue)
    (time velocity : option Q) (d : Z) (b : ToneBuffer) :
  _findClosest this (toMidi note) = Some d ->
  _buffers this !! ToString (toMidi note - d) = Some b ->
  triggerAttack toMidi ctx this note time velocity =
  do source <-
    BufferSource.start ctx (new_source this b d) time (Some 0%Q)
      (Some (duration b)) velocity None;
  OK (attacked this (toMidi note) source).
Proof.
  intros Hd Hb. unfold triggerAttack. rewrite Hd.
  unfold Buffers.get. simpl ToPropertyKey. rewrite Hb. reflexivity.
Qed.

End Attack.

(** ** C3: the buffer and the playback rate of an attack *)

(** C3. When the search for the MIDI note [m] of a [triggerAttack] finds a
    match at the signed distance [d], the bank has a buffer [b] at the key
    [m - d]; the attack returns when [b] is loaded, and whenever it returns
    it has created exactly one BufferSource, bound to [b], started at the
    time of the call from offset 0 (full gain is reached after the attack
    time of the sampler), with the playback rate [2^(d/12)].
    With only the key 69 (A4) in the bank: a note of MIDI number 67 (G4)
    has [d = -2] and a rate within 0.0005 of 0.891, and a note of MIDI
    number 69 has [d = 0] and the rate 1. *)
Theorem triggerAttack_plays_nearest (toMidi : JsValue -> Z) (ctx : Context)
    (this : MultiSampler.t) (note : JsValue) (time velocity : option Q) :
  (forall d, MultiSampler._findClosest this (toMidi note) = Some d ->
     exists b,
       MultiSampler._buffers this !! ToString (toMidi note - d) = Some b /\
       (loaded b = true ->
        exists this',
          MultiSampler.triggerAttack toMidi ctx this note time velocity
          = OK this') /\
       (forall this',
          MultiSampler.triggerAttack toMidi ctx this note time velocity
          = OK this' ->
          exists v,
            MultiSampler.heap this' = MultiSampler.heap this ++ [v] /\
            BufferSource.buffer v = Some b /\
            BufferSource._source_buffer v = Some b /\
            BufferSource.playbackRate v = Rpower 2 (IZR d / 12) /\
            BufferSource._source_start v
            = Some (toSeconds ctx time, Some 0%Q) /\
            BufferSource._startTime v
            = (toSeconds ctx time + MultiSampler.attack this)%Q)) /\
  ((forall k, is_Some (MultiSampler._buffers this !! k) <-> k = ToString 69) ->
   (toMidi note = 67 ->
    MultiSampler._findClosest this (toMidi note) = Some (-2) /\
    (Rabs (Tone.intervalToFrequencyRatio (-2) - 0.891) < 0.0005)%R) /\
   (toMidi note = 69 ->
    MultiSampler._findClosest this (toMidi note) = Some 0 /\
    Tone.intervalToFrequencyRatio 0 = 1%R)).
Proof.
  split.
  - intros d Hd. destruct (_findClosest_lookup this _ d Hd) as [b Hb].
    exists b. split; [exact Hb|].
    rewrite (triggerAttack_eq toMidi ctx this note time velocity d b Hd Hb).
    split.
    + intros Hl.
      destruct (start_OK ctx (new_source this b d) time
                  (Some 0%Q) (Some (duration b)) velocity None)
        as [v Hv]; [reflexivity|exact Hl|].
      rewrite Hv. simpl. eauto.
    + intros this'.
      destruct (BufferSource.start ctx (new_source this b d) time (Some 0%Q)
                  (Some (duration b)) velocity None) as [v|e] eqn:Hv;
        [|discriminate].
      simpl. intros [= <-]. exists v.
      apply start_fields in Hv. cbv zeta in Hv.
      destruct Hv as (Hst & Hbuf & Hrate & _ & _ & Hsb & Hss & _).
      split; [reflexivity|]. split; [exact Hbuf|]. split; [exact Hsb|].
      split; [exact Hrate|]. split; [exact Hss|exact Hst].
  - intros Honly.
    assert (Hhas : forall k,
               Buffers.has (MultiSampler._buffers this) (JsNumber k)
               = bool_decide (k = 69)).
    { intros k. unfold Buffers.has. simpl. apply bool_decide_ext.
      rewrite Honly. split; [apply ToString_inj|now intros ->]. }
    split.
    + intros ->. split.
      * unfold MultiSampler._findClosest. simpl.
        rewrite !Hhas. reflexivity.
      * pose proof ratio_minus2 as [H1 H2].
        apply Rabs_def1; lra.
    + intros ->. split.
      * unfold MultiSampler._findClosest. simpl.
        rewrite !Hhas. reflexivity.
      * apply ratio_0.
Qed.

Lemma triggerAttack_plays_nearest_witness :
  (exists this' v,
     MultiSampler.triggerAttack PitchCodec.toMidi ctx0 sampler_A4
       (JsString "G4") None None = OK this' /\
     MultiSampler.heap this' = [v] /\
     BufferSource.buffer v = Some bufferX /\
     BufferSource.playbackRate v = Rpower 2 (IZR (-2) / 12)) /\
  (Rabs (Tone.intervalToFrequencyRatio (-2) - 0.891) < 0.0005)%R /\
  Tone.intervalToFrequencyRatio 0 = 1%R.
Proof.
  assert (Honly : forall k,
             is_Some (MultiSampler._buffers sampler_A4 !! k)
             <-> k = ToString 69).
  { intros k. simpl. rewrite lookup_singleton_is_Some.
    split; intros H; now symmetry. }
  split; [|split].
  - destruct (triggerAttack_plays_nearest PitchCodec.toMidi ctx0 sampler_A4
                (JsString "G4") None None) as (Hgen & Hscen).
    destruct (Hscen Honly) as (H67 & _).
    destruct (H67 eq_refl) as (Hd & _).
    destruct (Hgen (-2) Hd) as (b & Hb & Hret & Hnew).
    assert (Hb' : Some bufferX = Some b) by (rewrite <- Hb; reflexivity).
    injection Hb' as <-.
    destruct (Hret eq_refl) as [this' Hthis'].
    destruct (Hnew this' Hthis') as (v & Hheap & Hbuf & _ & Hrate & _).
    exists this', v. auto.
  - destruct (triggerAttack_plays_nearest PitchCodec.toMidi ctx0 sampler_A4
                (JsString "G4") None None) as (_ & Hscen).
    destruct (Hscen Honly) as (H67 & _). now destruct (H67 eq_refl).
  - destruct (triggerAttack_plays_nearest PitchCodec.toMidi ctx0 sampler_A4
                (JsString "A4") None None) as (_ & Hscen).
    destruct (Hscen Honly) as (_ & H69). now destruct (H69 eq_refl).
Defined.

(** ** Tone.MultiSampler: releases *)

Section Release.

Import MultiSampler.

Variable toMidi : JsValue -> Z.

Lemma triggerRelease_empty (ctx : Context) (this : t) (note : JsValue)
    (time : option Q) :
  queue_of this (toMidi note) = [] ->
  triggerRelease toMidi ctx this note time = OK this.
Proof.
  unfold queue_of, triggerRelease.
  destruct (_activeSources this !! ToString (toMidi note)) as [[|e q]|];
    simpl; intros H; try reflexivity; discriminate.
Qed.

Lemma triggerRelease_cons (ctx : Context) (this : t) (note : JsValue)
    (time : option Q) (e : ActiveSource) (rest : list ActiveSource) :
  _activeSources this !! ToString (toMidi note) = Some (e :: rest) ->
  entry_ok this e ->
  exists v v',
    heap this !! source e = Some v /\
    BufferSource.stop ctx v time (Some (release this)) = OK v' /\
    BufferSource.buffer_loaded v' = true /\
    triggerRelease toMidi ctx this note time
    = OK (released this (toMidi note) e rest v').
Proof.
  intros Hq (v & Hv & Hl).
  destruct (stop_OK ctx v time (Some (release this)) Hl) as [v' Hv'].
  exists v, v'. split; [exact Hv|]. split; [exact Hv'|].
  split; [exact (stop_buffer_loaded _ _ _ _ _ Hv')|].
  unfold triggerRelease. rewrite Hq. simpl. rewrite Hv. simpl.
  rewrite Hv'. reflexivity.
Qed.

Lemma released_entry_ok (this : t) (midi : Z) (e e' : ActiveSource)
    (rest : list ActiveSource) (v' : BufferSource.t) :
  BufferSource.buffer_loaded v' = true ->
  entry_ok this e' -> entry_ok (released this midi e rest v') e'.
Proof.
  intros Hl (v & Hv & Hvl). unfold entry_ok, released. simpl.
  destruct (decide (source e = source e')) as [Heq|Hne].
  - exists v'. split; [|exact Hl]. rewrite Heq.
    apply list_lookup_insert_eq. eapply lookup_lt_Some, Hv.
  - exists v. split; [|exact Hvl]. now rewrite list_lookup_insert_ne.
Qed.

(** The calls of [releases] pop the queue from its head: the call number
    [k] finds the queue without its first [k] entries, stops the source
    of the entry number [k] with the release time of the sampler as its
    fade-out, and leaves the queue without its first [k + 1] entries. *)
Lemma releases_fifo (note : JsValue) (q : list ActiveSource) :
  forall (this : t) (calls : list (Context * option Q)),
  _activeSources this !! ToString (toMidi note) = Some q ->
  Forall (entry_ok this) q ->
  length calls = length q ->
  (exists final,
     releases toMidi calls this note = OK final /\
     _activeSources final !! ToString (toMidi note) = Some []) /\
  (forall k e ctx time,
     q !! k = Some e -> calls !! k = Some (ctx, time) ->
     exists this_k v v',
       releases toMidi (take k calls) this note = OK this_k /\
       _activeSources this_k !! ToString (toMidi note) = Some (drop k q) /\
       heap this_k !! source e = Some v /\
       BufferSource.stop ctx v time (Some (release this)) = OK v' /\
       triggerRelease toMidi ctx this_k note time
       = OK (released this_k (toMidi note) e (drop (S k) q) v') /\
       (forall i,
          (forall j e', (j < k)%nat -> q !! j = Some e' -> source e' <> i) ->
          heap this_k !! i = heap this !! i)).
Proof.
  induction q as [|e0 rest IH]; intros this calls Hq Hok Hlen.
  - destruct calls; [|discriminate]. split.
    + exists this. split; [reflexivity|exact Hq].
    + intros k e ctx time Hk. rewrite lookup_nil in Hk. discriminate.
  - destruct calls as [|[ctx0' time0] calls']; [discriminate|].
    apply Forall_cons in Hok. destruct Hok as [Hok0 Hok].
    destruct (triggerRelease_cons ctx0' this note time0 e0 rest Hq Hok0)
      as (v0 & v0' & Hv0 & Hstop0 & Hl0 & Hrel0).
    set (this1 := released this (toMidi note) e0 rest v0') in *.
    assert (Hq1 : _activeSources this1 !! ToString (toMidi note) = Some rest)
      by (subst this1; simpl; apply lookup_insert_eq).
    assert (Hok1 : Forall (entry_ok this1) rest).
    { eapply Forall_impl; [exact Hok|]. intros e' He'.
      now apply released_entry_ok. }
    destruct (IH this1 calls' Hq1 Hok1) as [(final & Hfinal & Hempty) Hsteps];
      [simpl in Hlen; lia|].
    split.
    + exists final. split; [|exact Hempty].
      simpl. rewrite Hrel0. simpl. exact Hfinal.
    + intros [|k] e ctx time He Hc.
      * simpl in He, Hc. injection He as <-. injection Hc as <- <-.
        exists this, v0, v0'. simpl. rewrite drop_0. auto 10.
      * simpl in He, Hc.
        destruct (Hsteps k e ctx time He Hc)
          as (this_k & v & v' & Hpre & Hqk & Hv & Hstop & Hrel & Hother).
        exists this_k, v, v'. simpl. rewrite Hrel0. simpl.
        repeat (split; [assumption|]).
        intros i Hi. rewrite Hother.
        -- subst this1. unfold released. simpl.
           apply list_lookup_insert_ne. apply (Hi 0%nat e0); [lia|reflexivity].
        -- intros j e' Hj He'. apply (Hi (S j) e'); [lia|exact He'].
Qed.

End Release.

(** ** The registry of active sources *)

Section Registry.

Import MultiSampler.

Variable toMidi : JsValue -> Z.

Lemma registry_ok_new (urls : list (string * Buffers.Source))
    (attack release : Q) (this : t) :
  new toMidi urls attack release = OK this -> registry_ok this.
Proof.
  unfold new. destruct (urlMap_of toMidi urls ∅); [|discriminate].
  simpl. intros [= <-] key q. simpl. rewrite lookup_empty. discriminate.
Qed.

Lemma registry_ok_add (this this' : t) (note : JsValue)
    (url : Buffers.Source) :
  add toMidi this note url = OK this' -> registry_ok this ->
  registry_ok this'.
Proof.
  unfold add.
  destruct (Tone.isNote note); [|destruct (negb _); [|discriminate]];
    intros [= <-] Hok; exact Hok.
Qed.

(** An attack that returned either found no match and changed nothing, or
    put one started source at the end of the store and one entry, which
    refers to it, at the end of the queue of the note. *)
Lemma triggerAttack_inv (ctx : Context) (this this' : t) (note : JsValue)
    (time velocity : option Q) :
  triggerAttack toMidi ctx this note time velocity = OK this' ->
  (_findClosest this (toMidi note) = None /\ this' = this) \/
  (exists d v,
     _findClosest this (toMidi note) = Some d /\
     BufferSource.buffer_loaded v = true /\
     this' = attacked this (toMidi note) v).
Proof.
  destruct (_findClosest this (toMidi note)) as [d|] eqn:Hd.
  - destruct (_findClosest_lookup this _ d Hd) as [b Hb].
    rewrite (triggerAttack_eq toMidi ctx this note time velocity d b Hd Hb).
    destruct (BufferSource.start ctx (new_source this b d) time (Some 0%Q)
                (Some (duration b)) velocity None) as [v|e] eqn:Hv;
      [|discriminate].
    simpl. intros [= <-]. right. exists d, v.
    split; [reflexivity|]. split; [|reflexivity].
    pose proof (start_inv _ _ _ _ _ _ _ _ Hv) as (_ & Hl & _).
    apply start_fields in Hv. cbv zeta in Hv. destruct Hv as (_ & Hbuf & _).
    unfold BufferSource.buffer_loaded in *. now rewrite Hbuf.
  - unfold triggerAttack. rewrite Hd. intros [= <-]. now left.
Qed.

Lemma attacked_entry_ok (this : t) (midi : Z) (v : BufferSource.t)
    (e : ActiveSource) :
  entry_ok this e -> entry_ok (attacked this midi v) e.
Proof.
  intros (v0 & Hv0 & Hl). exists v0. split; [|exact Hl].
  unfold attacked. simpl. rewrite lookup_app_l; [exact Hv0|].
  eapply lookup_lt_Some, Hv0.
Qed.

Lemma registry_ok_triggerAttack (ctx : Context) (this this' : t)
    (note : JsValue) (time velocity : option Q) :
  triggerAttack toMidi ctx this note time velocity = OK this' ->
  registry_ok this -> registry_ok this'.
Proof.
  intros H Hok. apply triggerAttack_inv in H.
  destruct H as [[_ ->]|(d & v & _ & Hl & ->)]; [exact Hok|].
  intros key q. unfold attacked at 1. simpl.
  destruct (decide (ToString (toMidi note) = key)) as [<-|Hne].
  - rewrite lookup_insert_eq. intros [= <-]. apply Forall_app. split.
    + unfold queue_of.
      destruct (_activeSources this !! ToString (toMidi note)) as [q0|] eqn:E;
        simpl; [|constructor].
      eapply Forall_impl; [exact (Hok _ _ E)|].
      intros e He. now apply attacked_entry_ok.
    + constructor; [|constructor]. exists v. split; [|exact Hl].
      unfold attacked. simpl. rewrite lookup_app_r; [|lia].
      now rewrite Nat.sub_diag.
  - rewrite lookup_insert_ne by exact Hne. intros Hq.
    eapply Forall_impl; [exact (Hok _ _ Hq)|].
    intros e He. now apply attacked_entry_ok.
Qed.

Lemma registry_ok_triggerRelease (ctx : Context) (this this' : t)
    (note : JsValue) (time : option Q) :
  triggerRelease toMidi ctx this note time = OK this' ->
  registry_ok this -> registry_ok this'.
Proof.
  intros H Hok.
  destruct (_activeSources this !! ToString (toMidi note)) as [[|e rest]|]
    eqn:Hq.
  - rewrite triggerRelease_empty in H by (unfold queue_of; now rewrite Hq).
    now injection H as <-.
  - pose proof (Hok _ _ Hq) as Hall. apply Forall_cons in Hall.
    destruct Hall as [He Hrest].
    destruct (triggerRelease_cons toMidi ctx this note time e rest Hq He)
      as (v & v' & _ & _ & Hl & Hrel).
    rewrite Hrel in H. injection H as <-.
    intros key q. unfold released at 1. simpl.
    destruct (decide (ToString (toMidi note) = key)) as [<-|Hne].
    + rewrite lookup_insert_eq. intros [= <-].
      eapply Forall_impl; [exact Hrest|].
      intros e' He'. now apply released_entry_ok.
    + rewrite lookup_insert_ne by exact Hne. intros Hq'.
      eapply Forall_impl; [exact (Hok _ _ Hq')|].
      intros e' He'. now apply released_entry_ok.
  - rewrite triggerRelease_empty in H by (unfold queue_of; now rewrite Hq).
    now injection H as <-.
Qed.

Lemma length_entries (midi : Z) (n : nat) :
  forall base, length (entries midi base n) = n.
Proof. induction n as [|n IH]; intros base; simpl; [|rewrite IH]; reflexivity. Qed.

Lemma entries_lookup (midi : Z) (n : nat) :
  forall base k e,
    entries midi base n !! k = Some e <->
    (k < n)%nat /\ e = {| note := midi; source := (base + k)%nat |}.
Proof.
  induction n as [|n IH]; intros base k e; simpl.
  - rewrite lookup_nil. split; [discriminate|lia].
  - destruct k as [|k]; simpl.
    + rewrite Nat.add_0_r. split.
      * intros [= <-]. split; [lia|reflexivity].
      * intros [_ ->]. reflexivity.
    + rewrite IH. replace (S base + k)%nat with (base + S k)%nat by lia.
      split; intros [? ?]; split; trivial; lia.
Qed.

Lemma registry_ok_attacks (note : JsValue)
    (calls : list (Context * option Q * option Q)) :
  forall this this_n,
    attacks toMidi calls this note = OK this_n -> registry_ok this ->
    registry_ok this_n.
Proof.
  induction calls as [|[[ctx time] velocity] calls IH]; intros this this_n H Hok.
  - now injection H as <-.
  - simpl in H.
    destruct (triggerAttack toMidi ctx this note time velocity) as [this1|e]
      eqn:H1; [|discriminate].
    simpl in H. apply (IH this1 this_n H).
    exact (registry_ok_triggerAttack _ _ _ _ _ _ H1 Hok).
Qed.

(** The attacks of a note that has a match put their sources at the end
    of the store and their entries at the end of the queue of the note,
    in the order of the calls. *)
Lemma attacks_spec (note : JsValue) (d : Z) (b : ToneBuffer)
    (calls : list (Context * option Q * option Q)) :
  forall this this_n,
    _findClosest this (toMidi note) = Some d ->
    _buffers this !! ToString (toMidi note - d) = Some b ->
    attacks toMidi calls this note = OK this_n ->
    exists vs,
      length vs = length calls /\
      heap this_n = heap this ++ vs /\
      queue_of this_n (toMidi note) =
        queue_of this (toMidi note)
        ++ entries (toMidi note) (length (heap this)) (length calls) /\
      release this_n = release this /\
      (forall k ctx time velocity,
         calls !! k = Some (ctx, time, velocity) ->
         exists v,
           vs !! k = Some v /\
           BufferSource.start ctx (new_source this b d) time (Some 0%Q)
             (Some (duration b)) velocity None = OK v).
Proof.
  induction calls as [|[[ctx time] velocity] calls IH];
    intros this this_n Hd Hb H.
  - injection H as <-. exists []. simpl. rewrite !app_nil_r.
    repeat split. intros k ? ? ? Hk. rewrite lookup_nil in Hk. discriminate.
  - simpl in H.
    rewrite (triggerAttack_eq toMidi ctx this note time velocity d b Hd Hb)
      in H.
    destruct (BufferSource.start ctx (new_source this b d) time (Some 0%Q)
                (Some (duration b)) velocity None) as [v|e] eqn:Hv;
      [|discriminate].
    simpl in H.
    destruct (IH (attacked this (toMidi note) v) this_n Hd Hb H)
      as (vs & Hlen & Hheap & Hqueue & Hrel & Hstarts).
    exists (v :: vs). simpl. split; [now rewrite Hlen|].
    split; [rewrite Hheap; simpl; now rewrite <- app_assoc|].
    split.
    { rewrite Hqueue. unfold queue_of at 1, attacked. simpl.
      rewrite lookup_insert_eq. simpl. rewrite length_app. simpl.
      rewrite <- app_assoc. simpl.
      now replace (length (heap this) + 1)%nat with (S (length (heap this)))
        by lia. }
    split; [exact Hrel|].
    intros [|k] ctx' time' velocity' Hk; simpl in Hk.
    + injection Hk as <- <- <-. exists v. split; [reflexivity|exact Hv].
    + destruct (Hstarts k ctx' time' velocity' Hk) as (v' & Hv' & Hstart).
      exists v'. split; [exact Hv'|exact Hstart].
Qed.

End Registry.

(** ** C7: releases are first in, first out *)

(** C7. [triggerRelease] on a note whose queue of active sources is empty
    or absent returns the sampler unchanged. An attack that starts a
    source puts its entry at the end of the queue of the note. With the
    queue [q] of [N] entries, [N] calls of [triggerRelease] all return and
    empty the queue, and the call number [k] removes the entry number [k]
    of [q], the oldest that is left, and calls [stop] on its source with
    the time of the call and the release time of the sampler as fade-out.
    Together: after [N] attacks of a note that had no active source, the
    release number [k] stops the source that the attack number [k]
    started, for every [k]. *)
Theorem triggerRelease_fifo (toMidi : JsValue -> Z) (this : MultiSampler.t)
    (note : JsValue) :
  (forall ctx time,
     queue_of this (toMidi note) = [] ->
     MultiSampler.triggerRelease toMidi ctx this note time = OK this) /\
  (forall ctx time velocity d this',
     MultiSampler._findClosest this (toMidi note) = Some d ->
     MultiSampler.triggerAttack toMidi ctx this note time velocity
     = OK this' ->
     exists v,
       MultiSampler.heap this' = MultiSampler.heap this ++ [v] /\
       queue_of this' (toMidi note) =
         queue_of this (toMidi note)
         ++ [{| MultiSampler.note := toMidi note;
                MultiSampler.source := length (MultiSampler.heap this) |}]) /\
  (forall q calls,
     registry_ok this ->
     MultiSampler._activeSources this !! ToString (toMidi note) = Some q ->
     length calls = length q ->
     (exists final,
        releases toMidi calls this note = OK final /\
        queue_of final (toMidi note) = []) /\
     (forall k e ctx time,
        q !! k = Some e -> calls !! k = Some (ctx, time) ->
        exists this_k v v',
          releases toMidi (take k calls) this note = OK this_k /\
          queue_of this_k (toMidi note) = drop k q /\
          MultiSampler.heap this_k !! MultiSampler.source e = Some v /\
          BufferSource.stop ctx v time (Some (MultiSampler.release this))
          = OK v' /\
          MultiSampler.triggerRelease toMidi ctx this_k note time
          = OK (released this_k (toMidi note) e (drop (S k) q) v'))) /\
  (forall d acalls rcalls this_n,
     registry_ok this ->
     queue_of this (toMidi note) = [] ->
     MultiSampler._findClosest this (toMidi note) = Some d ->
     attacks toMidi acalls this note = OK this_n ->
     length rcalls = length acalls ->
     exists vs,
       MultiSampler.heap this_n = MultiSampler.heap this ++ vs /\
       length vs = length acalls /\
       (forall k ctx time velocity,
          acalls !! k = Some (ctx, time, velocity) ->
          exists b v,
            MultiSampler._buffers this !! ToString (toMidi note - d)
            = Some b /\
            vs !! k = Some v /\
            BufferSource.start ctx (new_source this b d) time (Some 0%Q)
              (Some (duration b)) velocity None = OK v) /\
       (exists final,
          releases toMidi rcalls this_n note = OK final /\
          queue_of final (toMidi note) = []) /\
       (forall k ctx time,
          rcalls !! k = Some (ctx, time) ->
          exists this_k v v',
            vs !! k = Some v /\
            releases toMidi (take k rcalls) this_n note = OK this_k /\
            MultiSampler.heap this_k
              !! (length (MultiSampler.heap this) + k)%nat = Some v /\
            BufferSource.stop ctx v time (Some (MultiSampler.release this))
            = OK v' /\
            MultiSampler.triggerRelease toMidi ctx this_k note time
            = OK (released this_k (toMidi note)
                    {| MultiSampler.note := toMidi note;
                       MultiSampler.source :=
                         (length (MultiSampler.heap this) + k)%nat |}
                    (drop (S k)
                       (entries (toMidi note)
                          (length (MultiSampler.heap this)) (length acalls)))
                    v'))).
Proof.
  split; [|split; [|split]].
  - intros ctx time. apply triggerRelease_empty.
  - intros ctx time velocity d this' Hd H.
    apply triggerAttack_inv in H.
    destruct H as [[Hnone _]|(d' & v & _ & _ & ->)]; [congruence|].
    exists v. split; [reflexivity|].
    unfold queue_of at 1, attacked. simpl. now rewrite lookup_insert_eq.
  - intros q calls Hok Hq Hlen.
    destruct (releases_fifo toMidi note q this calls Hq (Hok _ _ Hq) Hlen)
      as [(final & Hfinal & Hempty) Hsteps].
    split.
    + exists final. split; [exact Hfinal|].
      unfold queue_of. now rewrite Hempty.
    + intros k e ctx time He Hc.
      destruct (Hsteps k e ctx time He Hc)
        as (this_k & v & v' & Hpre & Hqk & Hv & Hstop & Hrel & _).
      exists this_k, v, v'. split; [exact Hpre|].
      split; [unfold queue_of; now rewrite Hqk|]. auto.
  - intros d acalls rcalls this_n Hok Hq0 Hd Hatt Hlen.
    destruct (_findClosest_lookup this _ d Hd) as [b Hb].
    destruct (attacks_spec toMidi note d b acalls this this_n Hd Hb Hatt)
      as (vs & Hvs & Hheap & Hqueue & Hrelease & Hstarts).
    rewrite Hq0 in Hqueue. simpl in Hqueue.
    set (base := length (MultiSampler.heap this)) in *.
    set (q := entries (toMidi note) base (length acalls)) in *.
    exists vs. split; [exact Hheap|]. split; [exact Hvs|].
    split.
    { intros k ctx time velocity Hk.
      destruct (Hstarts k ctx time velocity Hk) as (v & Hv & Hstart).
      exists b, v. auto. }
    clear Hstarts.
    destruct acalls as [|a acalls'].
    { destruct rcalls; [|discriminate]. split.
      - exists this_n. split; [reflexivity|exact Hqueue].
      - intros k ctx time Hk. rewrite lookup_nil in Hk. discriminate. }
    assert (Hqn : MultiSampler._activeSources this_n
                    !! ToString (toMidi note) = Some q).
    { unfold queue_of in Hqueue.
      destruct (MultiSampler._activeSources this_n !! ToString (toMidi note))
        as [q'|]; simpl in Hqueue; [now rewrite Hqueue|discriminate]. }
    pose proof (registry_ok_attacks toMidi note _ _ _ Hatt Hok) as Hokn.
    assert (Hlenq : length rcalls = length q)
      by (subst q; now rewrite length_entries).
    destruct (releases_fifo toMidi note q this_n rcalls Hqn (Hokn _ _ Hqn)
                Hlenq) as [(final & Hfinal & Hempty) Hsteps].
    split.
    + exists final. split; [exact Hfinal|].
      unfold queue_of. now rewrite Hempty.
    + intros k ctx time Hc.
      assert (Hk : (k < length (a :: acalls'))%nat).
      { rewrite <- Hlen. eapply lookup_lt_Some, Hc. }
      assert (He : q !! k =
                   Some {| MultiSampler.note := toMidi note;
                           MultiSampler.source := (base + k)%nat |}).
      { subst q. apply entries_lookup. split; [exact Hk|reflexivity]. }
      destruct (Hsteps k _ ctx time He Hc)
        as (this_k & v & v' & Hpre & _ & Hv & Hstop & Hrel & Hother).
      simpl in Hv.
      assert (Hsame : MultiSampler.heap this_k !! (base + k)%nat
                      = MultiSampler.heap this_n !! (base + k)%nat).
      { apply Hother. intros j e' Hj He'. subst q.
        apply entries_lookup in He'. destruct He' as [_ ->]. simpl. lia. }
      exists this_k, v, v'. split.
      { rewrite <- Hv, Hsame, Hheap.
        rewrite lookup_app_r by (subst base; lia).
        f_equal. subst base. lia. }
      rewrite <- Hrelease. auto.
Qed.

(** Two attacks of A4 at the times 0 and 1, then two releases at the times
    3 and 4: the first release stops the source of the first attack (its
    stop time becomes 3 + 0.1), the second release finds the source of
    the second attack. *)
Lemma triggerRelease_fifo_witness :
  exists this2 this3 v0 v0',
    after_two_attacks = OK this2 /\
    queue_of this2 69 =
      [{| MultiSampler.note := 69; MultiSampler.source := 0%nat |};
       {| MultiSampler.note := 69; MultiSampler.source := 1%nat |}] /\
    MultiSampler.heap this2 !! 0%nat = Some v0 /\
    BufferSource.stop ctx0 v0 (Some 3%Q) (Some (1 # 10)%Q) = OK v0' /\
    MultiSampler.triggerRelease PitchCodec.toMidi ctx0 this2 (JsString "A4")
      (Some 3%Q) = OK this3 /\
    MultiSampler.heap this3 !! 0%nat = Some v0' /\
    queue_of this3 69 =
      [{| MultiSampler.note := 69; MultiSampler.source := 1%nat |}] /\
    exists final,
      releases PitchCodec.toMidi [(ctx0, Some 3%Q); (ctx0, Some 4%Q)] this2
        (JsString "A4") = OK final /\
      queue_of final 69 = [].
Proof.
  destruct after_two_attacks as [this2|e] eqn:H2;
    [|vm_compute in H2; discriminate].
  assert (Hq : MultiSampler._activeSources this2 !! ToString 69 =
               Some [{| MultiSampler.note := 69; MultiSampler.source := 0%nat |};
                     {| MultiSampler.note := 69; MultiSampler.source := 1%nat |}]).
  { vm_compute in H2. injection H2 as <-. vm_compute. reflexivity. }
  assert (Hok : registry_ok this2).
  { unfold after_two_attacks in H2.
    destruct (MultiSampler.triggerAttack PitchCodec.toMidi ctx0 sampler_A4
                (JsString "A4") (Some 0%Q) None) as [s|] eqn:H1;
      [|discriminate].
    simpl in H2.
    eapply registry_ok_triggerAttack; [exact H2|].
    eapply registry_ok_triggerAttack; [exact H1|].
    eapply (registry_ok_new PitchCodec.toMidi). exact new_sampler_A4. }
  destruct (triggerRelease_fifo PitchCodec.toMidi this2 (JsString "A4"))
    as (_ & _ & Hfifo & _).
  destruct (Hfifo _ [(ctx0, Some 3%Q); (ctx0, Some 4%Q)] Hok Hq eq_refl)
    as [(final & Hfinal & Hempty) Hsteps].
  destruct (Hsteps 0%nat _ ctx0 (Some 3%Q) eq_refl eq_refl)
    as (this_0 & v0 & v0' & Hpre & Hq0 & Hv0 & Hstop0 & Hrel0).
  simpl in Hpre. injection Hpre as <-.
  assert (Hrel : MultiSampler.release this2 = (1 # 10)%Q).
  { vm_compute in H2. injection H2 as <-. reflexivity. }
  rewrite Hrel in Hstop0.
  eexists this2, _, v0, v0'.
  split; [reflexivity|]. split; [unfold queue_of; now rewrite Hq|].
  split; [exact Hv0|]. split; [exact Hstop0|]. split; [exact Hrel0|].
  split.
  { unfold released. simpl. apply list_lookup_insert_eq.
    eapply lookup_lt_Some, Hv0. }
  split.
  { unfold queue_of, released. simpl.
    change (PitchCodec.toMidi (JsString "A4")) with 69.
    now rewrite lookup_insert_eq. }
  exists final. split; [exact Hfinal|exact Hempty].
Defined.

(** ** Keys accepted by [add] and by the constructor *)

Example parseFloat_values :
  parseFloat "69.5" = Finite (695 # 10) /\
  parseFloat " -1.5e2x" = Finite (-150) /\
  parseFloat "Infinity" = Infinity false /\
  parseFloat "nope" = NaN.
Proof. repeat split; vm_compute; reflexivity. Qed.

Section Keys.

Import MultiSampler.

Variable toMidi : JsValue -> Z.

Lemma string_of_uint_head (d : Decimal.uint) :
  d <> Decimal.Nil ->
  exists c r, NilEmpty.string_of_uint d = String c r /\ isDigit c = true.
Proof.
  destruct d; intros H; try contradiction; simpl; eauto.
Qed.

(** Text that starts with a digit is a number for [parseDecimal]. *)
Lemma parseDecimal_digit_head (neg : bool) (c : ascii) (r : string) :
  isDigit c = true -> isNaN (parseDecimal neg (String c r)) = false.
Proof.
  intros Hc. unfold parseDecimal.
  assert (Hpre : String.prefix "Infinity" (String c r) = false).
  { destruct c as [[] [] [] [] [] [] [] []]; try discriminate Hc;
      reflexivity. }
  rewrite Hpre. simpl spanDigits. rewrite Hc.
  destruct (spanDigits r) as [d t]. destruct (fractionPart t) as [fp s2].
  reflexivity.
Qed.

Lemma splitSign_digit_head (c : ascii) (r : string) :
  isDigit c = true ->
  splitSign (trimStart (String c r)) = (false, String c r).
Proof.
  intros Hc.
  destruct c as [[] [] [] [] [] [] [] []]; try discriminate Hc; reflexivity.
Qed.

(** The text of an integer is read back as a number by [parseFloat]. *)
Lemma parseFloat_ToString (n : Z) : isNaN (parseFloat (ToString n)) = false.
Proof.
  unfold ToString. destruct n as [|p|p]; [reflexivity| |];
    destruct (string_of_uint_head (Pos.to_uint p)) as (c & r & Hs & Hc);
    try apply DecimalPos.Unsigned.to_uint_nonnil;
    simpl; unfold NilZero.string_of_uint;
    destruct (Pos.to_uint p) eqn:E; try (simpl in Hs; discriminate Hs);
    rewrite Hs.
  all: try (unfold parseFloat; rewrite splitSign_digit_head by exact Hc;
            now apply parseDecimal_digit_head).
  all: unfold parseFloat; simpl; now apply parseDecimal_digit_head.
Qed.

Lemma urlMap_of_keys (urls : list (string * Buffers.Source)) :
  forall urlMap urlMap',
    urlMap_of toMidi urls urlMap = OK urlMap' ->
    (forall k, is_Some (urlMap !! k) -> key_ingested toMidi k) ->
    forall k, is_Some (urlMap' !! k) -> key_ingested toMidi k.
Proof.
  induction urls as [|[note url] urls IH]; intros urlMap urlMap' H Hinv.
  - injection H as <-. exact Hinv.
  - simpl in H.
    destruct (Tone.noteRegExp_test note) eqn:Hn.
    + apply (IH _ _ H). intros k.
      rewrite lookup_insert_is_Some. intros [<-|[_ Hk]]; [|now apply Hinv].
      left. exists (JsString note). split; [exact Hn|reflexivity].
    + destruct (isNaN (parseFloat note)) eqn:Hp; [discriminate|].
      simpl in H. apply (IH _ _ H). intros k.
      rewrite lookup_insert_is_Some. intros [<-|[_ Hk]]; [|now apply Hinv].
      right. exists (JsString note). split; [exact Hn|]. now split.
Qed.

End Keys.

(** ** C8: when [add] fails *)

(** C8, as stated, fails: [add(69, "G4")] does not fail. The key 69 is a
    number, the text "G4" is the url of the call; the sampler registers a
    buffer that loads from "G4" under the key 69. *)
Lemma add_number_key_returns :
  MultiSampler.add PitchCodec.toMidi sampler_empty (JsNumber 69)
    (Buffers.Url "G4")
  = OK (MultiSampler.set_buffers
          {[ "69" := {| name := "G4"; loaded := false; duration := 0 |} ]}
          sampler_empty) /\
  MultiSampler.add PitchCodec.toMidi sampler_empty (JsNumber 69)
    (Buffers.Url "G4")
  <> Throw InvalidKeyError.
Proof. split; [reflexivity|discriminate]. Qed.

(** C8, amended. [add] fails, with InvalidKeyError and with no other
    error, exactly when the key is neither pitch notation (Tone.isNote)
    nor read as a number by [parseFloat]. [add("nope", url)] fails with
    InvalidKeyError; a call whose key is a number, such as
    [add(69, "G4")], returns and registers its second argument under that
    key; [add("A4", url)] and [add("69", url)] both return and give the
    same sampler, with the buffer stored under the key 69. *)
Theorem add_fails_iff_key_unparsable (toMidi : JsValue -> Z)
    (this : MultiSampler.t) (note : JsValue) (url : Buffers.Source) :
  (MultiSampler.add toMidi this note url = Throw InvalidKeyError <->
   Tone.isNote note = false /\ isNaN (parseFloat_value note) = true) /\
  (forall e, MultiSampler.add toMidi this note url = Throw e ->
     e = InvalidKeyError) /\
  MultiSampler.add toMidi this (JsString "nope") url
  = Throw InvalidKeyError /\
  (forall n,
     MultiSampler.add toMidi this (JsNumber n) url
     = OK (MultiSampler.set_buffers
             (<[ToString n := Buffers.buffer_of url]>
                (MultiSampler._buffers this)) this)) /\
  (toMidi (JsString "A4") = 69 ->
   MultiSampler.add toMidi this (JsString "A4") url
   = OK (MultiSampler.set_buffers
           (<["69" := Buffers.buffer_of url]> (MultiSampler._buffers this))
           this) /\
   MultiSampler.add toMidi this (JsString "69") url
   = MultiSampler.add toMidi this (JsString "A4") url).
Proof.
  split; [|split; [|split; [|split]]].
  - unfold MultiSampler.add.
    destruct (Tone.isNote note); [split; [discriminate|intros [? _]; discriminate]|].
    destruct (isNaN (parseFloat_value note)); simpl; split;
      try discriminate; try tauto. intros [_ ?]. discriminate.
  - intros e. unfold MultiSampler.add.
    destruct (Tone.isNote note); [discriminate|].
    destruct (negb _); [discriminate|congruence].
  - reflexivity.
  - intros n. unfold MultiSampler.add, parseFloat_value. simpl.
    now rewrite parseFloat_ToString.
  - intros HA4. unfold MultiSampler.add. simpl. rewrite HA4.
    split; reflexivity.
Qed.

Lemma add_fails_iff_key_unparsable_witness :
  MultiSampler.add PitchCodec.toMidi sampler_empty (JsString "nope")
    (Buffers.Buffer bufferX) = Throw InvalidKeyError /\
  MultiSampler.add PitchCodec.toMidi sampler_empty (JsString "A4")
    (Buffers.Buffer bufferX) = OK sampler_A4 /\
  MultiSampler.add PitchCodec.toMidi sampler_empty (JsString "69")
    (Buffers.Buffer bufferX) = OK sampler_A4.
Proof.
  destruct (add_fails_iff_key_unparsable PitchCodec.toMidi sampler_empty
              (JsString "nope") (Buffers.Buffer bufferX))
    as (Hiff & _ & _ & _ & HA4).
  split; [|split].
  - apply Hiff. split; reflexivity.
  - destruct (HA4 eq_refl) as [H _]. rewrite H. reflexivity.
  - destruct (HA4 eq_refl) as [H H']. rewrite H', H. reflexivity.
Defined.

(** ** C9: the keys of the bank *)

(** C9, as stated, fails: a key that is not pitch notation is stored as it
    is as soon as [parseFloat] reads a number at its head; nothing checks
    that it is an integer, or finite. After [add("69.5", bufferX)] the
    bank has the key "69.5", which is the text of no integer, and the
    constructor stores the keys "69.5" and "Infinity" in the same way. *)
Lemma add_stores_a_key_that_is_no_integer :
  (exists this',
     MultiSampler.add PitchCodec.toMidi sampler_A4 (JsString "69.5")
       (Buffers.Buffer bufferX) = OK this' /\
     MultiSampler._buffers this' !! "69.5" = Some bufferX /\
     parseFloat "69.5" = Finite (695 # 10) /\
     ~ exists n : Z, "69.5" = ToString n) /\
  (exists this,
     MultiSampler.new PitchCodec.toMidi
       [("69.5", Buffers.Buffer bufferX); ("Infinity", Buffers.Buffer bufferX)]
       0 (1 # 10) = OK this /\
     MultiSampler._buffers this !! "69.5" = Some bufferX /\
     MultiSampler._buffers this !! "Infinity" = Some bufferX /\
     ~ exists n : Z, "Infinity" = ToString n).
Proof.
  split.
  - eexists. split; [reflexivity|]. split; [reflexivity|].
    split; [vm_compute; reflexivity|].
    rewrite <- isIntegerKey_spec. discriminate.
  - eexists. split; [reflexivity|]. split; [reflexivity|].
    split; [reflexivity|].
    rewrite <- isIntegerKey_spec. discriminate.
Qed.

(** C9, amended. The keys of the bank are kept within the ingested keys by
    the constructor and by every [add], and no other method changes the
    bank: every stored key is either the text of the MIDI integer of a key
    given in pitch notation, or a key that is not pitch notation, that
    [parseFloat] reads as a number, and that is stored as it was given. A
    key of the first kind, and a key given as an integral number, is the
    text of an integer; a key of the second kind given as a string need
    not be. *)
Theorem stored_keys_are_ingested_keys (toMidi : JsValue -> Z) :
  (forall urls attack release this,
     MultiSampler.new toMidi urls attack release = OK this ->
     forall k, is_Some (MultiSampler._buffers this !! k) ->
       key_ingested toMidi k) /\
  (forall this note url this',
     (forall k, is_Some (MultiSampler._buffers this !! k) ->
        key_ingested toMidi k) ->
     MultiSampler.add toMidi this note url = OK this' ->
     forall k, is_Some (MultiSampler._buffers this' !! k) ->
       key_ingested toMidi k) /\
  (forall ctx this note time velocity this',
     MultiSampler.triggerAttack toMidi ctx this note time velocity = OK this' ->
     MultiSampler._buffers this' = MultiSampler._buffers this) /\
  (forall ctx this note time this',
     MultiSampler.triggerRelease toMidi ctx this note time = OK this' ->
     MultiSampler._buffers this' = MultiSampler._buffers this) /\
  (forall v, Tone.isNote v = true ->
     isIntegerKey (ToString (toMidi v)) = true) /\
  (forall n, isIntegerKey (ToPropertyKey (JsNumber n)) = true).
Proof.
  split; [|split; [|split; [|split; [|split]]]].
  - intros urls attack release this. unfold MultiSampler.new.
    destruct (MultiSampler.urlMap_of toMidi urls ∅) as [urlMap|e] eqn:Hmap;
      [|discriminate].
    simpl. intros [= <-] k. simpl. unfold Buffers.new.
    rewrite lookup_fmap, fmap_is_Some.
    apply (urlMap_of_keys toMidi urls ∅ urlMap Hmap).
    intros k'. rewrite lookup_empty. intros [? ?]. discriminate.
  - intros this note url this' Hinv. unfold MultiSampler.add.
    destruct (Tone.isNote note) eqn:Hn.
    + intros [= <-] k. simpl. unfold Buffers.add. simpl.
      rewrite lookup_insert_is_Some. intros [<-|[_ Hk]]; [|now apply Hinv].
      left. eauto.
    + destruct (isNaN (parseFloat_value note)) eqn:Hp; [discriminate|].
      simpl. intros [= <-] k. simpl. unfold Buffers.add.
      rewrite lookup_insert_is_Some. intros [<-|[_ Hk]]; [|now apply Hinv].
      right. eauto.
  - intros ctx this note time velocity this' H.
    apply triggerAttack_inv in H.
    destruct H as [[_ ->]|(d & v & _ & _ & ->)]; reflexivity.
  - intros ctx this note time this'. unfold MultiSampler.triggerRelease.
    destruct (MultiSampler._activeSources this !! _) as [[|e rest]|];
      try (intros [= <-]; reflexivity).
    simpl. destruct (MultiSampler.heap this !! MultiSampler.source e);
      [|intros [= <-]; reflexivity].
    destruct (BufferSource.stop ctx t time _); [|discriminate].
    simpl. intros [= <-]. reflexivity.
  - intros v _. apply isIntegerKey_spec. eauto.
  - intros n. apply isIntegerKey_spec. simpl. eauto.
Qed.

Lemma stored_keys_are_ingested_keys_witness :
  key_ingested PitchCodec.toMidi "69" /\
  exists this',
    MultiSampler.add PitchCodec.toMidi sampler_A4 (JsString "C3")
      (Buffers.Url "path/to/C3.mp3") = OK this' /\
    forall k, is_Some (MultiSampler._buffers this' !! k) ->
      key_ingested PitchCodec.toMidi k.
Proof.
  destruct (stored_keys_are_ingested_keys PitchCodec.toMidi)
    as (Hnew & Hadd & _).
  pose proof (Hnew _ _ _ _ new_sampler_A4) as HA4.
  split.
  - apply HA4. exists bufferX. reflexivity.
  - eexists. split; [reflexivity|].
    eapply (Hadd sampler_A4 (JsString "C3") (Buffers.Url "path/to/C3.mp3"));
      [exact HA4|reflexivity].
Defined.

(** ** The tests of the repository, on the model *)

(** "throws an error if the url key is not midi or pitch notation" *)
Example test_constructor_rejects_key :
  MultiSampler.new PitchCodec.toMidi [("note", Buffers.Buffer bufferX)]
    0 (1 # 10) = Throw InvalidKeyError.
Proof. reflexivity. Qed.

(** "throws an error if added note key is not midi or note name" *)
Example test_add_rejects_key :
  MultiSampler.add PitchCodec.toMidi sampler_empty (JsString "nope")
    (Buffers.Buffer bufferX) = Throw InvalidKeyError.
Proof. reflexivity. Qed.

(** "can add a note with it's midi value": after [add("69", buffer)] an
    attack of B4 (71) plays the sample of the key 69, two semitones
    below, at the difference 2. *)
Example test_add_midi_value_then_attack :
  exists s s' v,
    MultiSampler.add PitchCodec.toMidi sampler_empty (JsString "69")
      (Buffers.Buffer bufferX) = OK s /\
    MultiSampler._findClosest s 71 = Some 2 /\
    MultiSampler.triggerAttack PitchCodec.toMidi ctx0 s (JsString "B4")
      None None = OK s' /\
    MultiSampler.heap s' = [v] /\
    BufferSource.buffer v = Some bufferX /\
    BufferSource.playbackRate v = Tone.intervalToFrequencyRatio 2 /\
    queue_of s' 71 =
      [{| MultiSampler.note := 71; MultiSampler.source := 0%nat |}].
Proof.
  eexists. eexists. eexists.
  split; [reflexivity|]. split; [reflexivity|].
  split; [vm_compute; reflexivity|].
  split; [reflexivity|]. split; [reflexivity|].
  split; [|reflexivity].
  vm_compute. reflexivity.
Qed.

(** "repitches the note only up to 2 octaves": with A4 in the bank, an
    attack of A#6 plays nothing. *)
Example test_attack_beyond_two_octaves :
  MultiSampler.triggerAttack PitchCodec.toMidi ctx0 sampler_A4
    (JsString "A#6") None None = OK sampler_A4.
Proof. reflexivity. Qed.

(** * Further properties *)

(** ** The match of [_findClosest] is a nearest sample *)

Section Nearest.

Import MultiSampler.

Lemma _findClosest_nearest (bufs : gmap string ToneBuffer) (m d : Z) :
  _findClosest_loop (S (Z.to_nat MAX_INTERVAL)) bufs m 0 = Some d ->
  Z.abs d < MAX_INTERVAL /\
  holds bufs (m - d) = true /\
  (forall k, holds bufs k = true -> Z.abs d <= Z.abs (k - m)) /\
  (0 < d -> holds bufs (m + d) = false).
Proof.
  intros H.
  destruct (_findClosest_loop_Some bufs m _ 0 d (Z.le_refl 0) H)
    as (Hr & Hd & Hnear & Htie).
  split; [lia|]. split; [exact Hd|]. split; [|exact Htie].
  intros k Hk.
  destruct (Z_lt_le_dec (Z.abs (k - m)) (Z.abs d)) as [Hlt|Hle]; [|exact Hle].
  destruct (Hnear (Z.abs (k - m))) as [Hup Hdown]; [lia|].
  destruct (Z_le_gt_dec m k).
  - replace (m + Z.abs (k - m)) with k in Hup by lia. congruence.
  - replace (m - Z.abs (k - m)) with k in Hdown by lia. congruence.
Qed.

Lemma _findClosest_found (bufs : gmap string ToneBuffer) (m k : Z) :
  holds bufs k = true -> Z.abs (k - m) < MAX_INTERVAL ->
  exists d, _findClosest_loop (S (Z.to_nat MAX_INTERVAL)) bufs m 0 = Some d.
Proof.
  intros Hk Hr.
  destruct (_findClosest_loop (S (Z.to_nat MAX_INTERVAL)) bufs m 0)
    as [d|] eqn:H; [eauto|].
  assert (Hfuel : MAX_INTERVAL - 0 < Z.of_nat (S (Z.to_nat MAX_INTERVAL)))
    by (unfold MAX_INTERVAL; lia).
  destruct (_findClosest_loop_None bufs m _ 0 Hfuel H (Z.abs (k - m)))
    as [Hup Hdown]; [lia|].
  destruct (Z_le_gt_dec m k).
  - replace (m + Z.abs (k - m)) with k in Hup by lia. congruence.
  - replace (m - Z.abs (k - m)) with k in Hdown by lia. congruence.
Qed.

End Nearest.



(** ** Samples that are added *)

Section Adding.

Import MultiSampler.

Variable toMidi : JsValue -> Z.

Lemma add_inv (this this' : t) (note : JsValue) (url : Buffers.Source) :
  add toMidi this note url = OK this' ->
  this' = set_buffers (<[stored_key toMidi note := Buffers.buffer_of url]>
                         (_buffers this)) this.
Proof.
  unfold add, stored_key, Buffers.add.
  destruct (Tone.isNote note); [intros [= <-]; reflexivity|].
  destruct (negb (isNaN (parseFloat_value note))); [|discriminate].
  intros [= <-]. reflexivity.
Qed.

Lemma holds_insert (bufs : gmap string ToneBuffer) (key : string)
    (b : ToneBuffer) (k : Z) :
  holds (<[key := b]> bufs) k =
  bool_decide (key = ToString k) || holds bufs k.
Proof.
  unfold holds, Buffers.has. cbn [ToPropertyKey].
  destruct (decide (key = ToString k)) as [->|Hne].
  - rewrite lookup_insert_eq.
    rewrite (bool_decide_eq_true_2 (ToString k = ToString k)) by reflexivity.
    apply bool_decide_eq_true_2. eauto.
  - rewrite lookup_insert_ne, (bool_decide_eq_false_2 _ Hne) by exact Hne.
    reflexivity.
Qed.

Lemma _findClosest_mono (bufs bufs' : gmap string ToneBuffer) (m d : Z) :
  (forall k, holds bufs k = true -> holds bufs' k = true) ->
  _findClosest_loop (S (Z.to_nat MAX_INTERVAL)) bufs m 0 = Some d ->
  exists d',
    _findClosest_loop (S (Z.to_nat MAX_INTERVAL)) bufs' m 0 = Some d' /\
    Z.abs d' <= Z.abs d.
Proof.
  intros Hsub H.
  destruct (_findClosest_nearest bufs m d H) as (Hr & Hd & _).
  apply Hsub in Hd.
  destruct (_findClosest_found bufs' m (m - d) Hd) as [d' Hd'];
    [replace (m - d - m) with (- d) by lia; rewrite Z.abs_opp; exact Hr|].
  exists d'. split; [exact Hd'|].
  destruct (_findClosest_nearest bufs' m d' Hd') as (_ & _ & Hnear & _).
  specialize (Hnear (m - d) Hd).
  replace (m - d - m) with (- d) in Hnear by lia.
  rewrite Z.abs_opp in Hnear. exact Hnear.
Qed.

End Adding.

(** X2. A sample that is added never makes a match worse: when [add]
    returns, every note that had a match before the call has one after
    it, at a distance that is not larger. *)
Theorem add_never_worsens_a_match (toMidi : JsValue -> Z)
    (this this' : MultiSampler.t) (note : JsValue) (url : Buffers.Source)
    (m d : Z) :
  MultiSampler.add toMidi this note url = OK this' ->
  MultiSampler._findClosest this m = Some d ->
  exists d',
    MultiSampler._findClosest this' m = Some d' /\ Z.abs d' <= Z.abs d.
Proof.
  intros Hadd H. apply add_inv in Hadd. subst this'.
  unfold MultiSampler._findClosest in *. cbn [MultiSampler._buffers
    MultiSampler.set_buffers].
  apply (_findClosest_mono (MultiSampler._buffers this) _ m d); [|exact H].
  intros k Hk. rewrite holds_insert, Hk. apply orb_true_r.
Qed.

Lemma add_never_worsens_a_match_witness :
  exists this' d',
    MultiSampler.add PitchCodec.toMidi sampler_A4 (JsString "C5")
      (Buffers.Buffer bufferX) = OK this' /\
    MultiSampler._findClosest sampler_A4 71 = Some 2 /\
    MultiSampler._findClosest this' 71 = Some d' /\
    Z.abs d' <= Z.abs 2.
Proof.
  destruct (MultiSampler.add PitchCodec.toMidi sampler_A4 (JsString "C5")
              (Buffers.Buffer bufferX)) as [this'|e] eqn:Hadd;
    [|vm_compute in Hadd; discriminate].
  assert (H : MultiSampler._findClosest sampler_A4 71 = Some 2)
    by (vm_compute; reflexivity).
  destruct (add_never_worsens_a_match PitchCodec.toMidi sampler_A4 this'
              (JsString "C5") (Buffers.Buffer bufferX) 71 2 Hadd H)
    as (d' & Hd' & Hle).
  exists this', d'. split; [reflexivity|]. split; [exact H|].
  split; [exact Hd'|exact Hle].
Defined.

(** X3. What [add] stores can be looked up and is found: after an [add]
    that returns and whose key is the MIDI number [n] (a note in pitch
    notation with that MIDI number, the number [n], or its text), the bank
    gives the registered buffer for the key [n], the search for [n] finds
    it at the distance 0, the buffers of all other MIDI keys are the ones
    from before the call, and the registry, the store and the envelope
    times are unchanged. An [add] of the same key afterwards replaces the
    buffer. *)
Theorem add_then_get (toMidi : JsValue -> Z) (this this' : MultiSampler.t)
    (note : JsValue) (url : Buffers.Source) (n : Z) :
  MultiSampler.add toMidi this note url = OK this' ->
  stored_key toMidi note = ToString n ->
  Buffers.get (MultiSampler._buffers this') (JsNumber n)
  = OK (Buffers.buffer_of url) /\
  MultiSampler._findClosest this' n = Some 0 /\
  (forall k, k <> n ->
     Buffers.get (MultiSampler._buffers this') (JsNumber k)
     = Buffers.get (MultiSampler._buffers this) (JsNumber k)) /\
  MultiSampler._activeSources this' = MultiSampler._activeSources this /\
  MultiSampler.heap this' = MultiSampler.heap this /\
  MultiSampler.attack this' = MultiSampler.attack this /\
  MultiSampler.release this' = MultiSampler.release this /\
  (forall url2 this'',
     MultiSampler.add toMidi this' note url2 = OK this'' ->
     Buffers.get (MultiSampler._buffers this'') (JsNumber n)
     = OK (Buffers.buffer_of url2)).
Proof.
  intros Hadd Hkey. apply add_inv in Hadd. subst this'. rewrite Hkey.
  cbn [MultiSampler._buffers MultiSampler.set_buffers
       MultiSampler._activeSources MultiSampler.heap MultiSampler.attack
       MultiSampler.release].
  split; [unfold Buffers.get; cbn [ToPropertyKey];
          rewrite lookup_insert_eq; reflexivity|].
  split.
  { unfold MultiSampler._findClosest.
    cbn [MultiSampler._buffers MultiSampler.set_buffers].
    rewrite _findClosest_loop_step.
    replace (n + 0) with n by lia.
    rewrite holds_insert, bool_decide_eq_true_2 by reflexivity.
    reflexivity. }
  split.
  { intros k Hk. unfold Buffers.get. cbn [ToPropertyKey].
    rewrite lookup_insert_ne; [reflexivity|].
    intros E. apply ToString_inj in E. congruence. }
  do 4 (split; [reflexivity|]).
  intros url2 this'' Hadd2. apply add_inv in Hadd2. subst this''.
  rewrite Hkey. cbn [MultiSampler._buffers MultiSampler.set_buffers].
  unfold Buffers.get. cbn [ToPropertyKey].
  rewrite lookup_insert_eq. reflexivity.
Qed.

Lemma add_then_get_witness :
  exists this',
    MultiSampler.add PitchCodec.toMidi sampler_G4_B4 (JsString "A4")
      (Buffers.Url "a4.mp3") = OK this' /\
    Buffers.get (MultiSampler._buffers this') (JsNumber 69)
    = OK (Buffers.buffer_of (Buffers.Url "a4.mp3")) /\
    MultiSampler._findClosest this' 69 = Some 0.
Proof.
  destruct (MultiSampler.add PitchCodec.toMidi sampler_G4_B4 (JsString "A4")
              (Buffers.Url "a4.mp3")) as [this'|e] eqn:Hadd;
    [|vm_compute in Hadd; discriminate].
  exists this'. split; [reflexivity|].
  destruct (add_then_get PitchCodec.toMidi sampler_G4_B4 this'
              (JsString "A4") (Buffers.Url "a4.mp3") 69 Hadd)
    as (H1 & H2 & _); [vm_compute; reflexivity|].
  split; [exact H1|exact H2].
Defined.

(** ** The constructor and [add] *)

Section Constructor.

Import MultiSampler.

Variable toMidi : JsValue -> Z.

Lemma urlMap_of_adds (urls : list (string * Buffers.Source)) :
  forall (urlMap : gmap string Buffers.Source) (this : t),
    _buffers this = Buffers.new urlMap ->
    match urlMap_of toMidi urls urlMap with
    | OK urlMap' =>
        adds toMidi (map (fun e => (JsString e.1, e.2)) urls) this
        = OK (set_buffers (Buffers.new urlMap') this)
    | Throw e =>
        e = InvalidKeyError /\
        adds toMidi (map (fun e => (JsString e.1, e.2)) urls) this
        = Throw InvalidKeyError
    end.
Proof.
  assert (Hstep : forall (this : t) (urlMap : gmap string Buffers.Source)
                    key url,
            _buffers this = Buffers.new urlMap ->
            _buffers (set_buffers (<[key := Buffers.buffer_of url]>
                                     (_buffers this)) this)
            = Buffers.new (<[key := url]> urlMap)).
  { intros this urlMap key url Hb. cbn [_buffers set_buffers].
    unfold Buffers.new. rewrite Hb, fmap_insert. reflexivity. }
  induction urls as [|[note url] urls IH]; intros urlMap this Hb.
  - cbn. rewrite <- Hb. destruct this; reflexivity.
  - cbn [urlMap_of map adds fst snd]. unfold add, Buffers.add.
    change (parseFloat_value (JsString note)) with (parseFloat note).
    cbn [ToPropertyKey].
    destruct (Tone.isNote (JsString note)).
    + cbn [bind].
      specialize (IH _ _ (Hstep this urlMap
                            (ToString (toMidi (JsString note))) url Hb)).
      destruct (urlMap_of toMidi urls
                  (<[ToString (toMidi (JsString note)) := url]> urlMap)).
      * rewrite IH. reflexivity.
      * exact IH.
    + destruct (negb (isNaN (parseFloat note))); [|cbn; auto].
      cbn [bind].
      specialize (IH _ _ (Hstep this urlMap note url Hb)).
      destruct (urlMap_of toMidi urls (<[note := url]> urlMap)).
      * rewrite IH. reflexivity.
      * exact IH.
Qed.

Lemma urlMap_of_Throw (urls : list (string * Buffers.Source)) :
  forall urlMap : gmap string Buffers.Source,
    (exists e, urlMap_of toMidi urls urlMap = Throw e) <->
    Exists rejected_key urls.
Proof.
  induction urls as [|[note url] urls IH]; intros urlMap.
  - cbn. split; [intros [e [=]]|intros H; inversion H].
  - cbn [urlMap_of]. rewrite Exists_cons. unfold rejected_key at 1.
    cbn [fst]. destruct (Tone.isNote (JsString note)).
    + rewrite IH. split; [auto|intros [[[=] _]|H]; exact H].
    + destruct (isNaN (parseFloat note)); cbn [negb].
      * split; [auto|eauto].
      * rewrite IH. split; [auto|intros [[_ [=]]|H]; exact H].
Qed.

End Constructor.

(** X4. The constructor is a sequence of [add]s: [new MultiSampler(urls)]
    gives the same result, a sampler or the error, as the calls
    [add(key, urls[key])] for the keys of [urls] in their order on the
    sampler without samples. It throws exactly when a key of [urls] is
    neither pitch notation nor read as a number by [parseFloat], and the
    error is InvalidKeyError. *)
Theorem new_is_a_sequence_of_adds (toMidi : JsValue -> Z)
    (urls : list (string * Buffers.Source)) (attack release : Q) :
  (exists empty,
     MultiSampler.new toMidi [] attack release = OK empty /\
     MultiSampler.new toMidi urls attack release
     = adds toMidi (map (fun e => (JsString e.1, e.2)) urls) empty) /\
  (MultiSampler.new toMidi urls attack release = Throw InvalidKeyError <->
   Exists rejected_key urls) /\
  (forall e, MultiSampler.new toMidi urls attack release = Throw e ->
     e = InvalidKeyError).
Proof.
  split; [|split].
  - eexists. split; [reflexivity|].
    unfold MultiSampler.new.
    match goal with
    | |- _ = adds _ _ ?s =>
        pose proof (urlMap_of_adds toMidi urls ∅ s eq_refl) as H
    end.
    destruct (MultiSampler.urlMap_of toMidi urls ∅) as [urlMap'|e].
    + rewrite H. reflexivity.
    + destruct H as [-> H]. rewrite H. reflexivity.
  - rewrite <- (urlMap_of_Throw toMidi urls ∅). unfold MultiSampler.new.
    pose proof (urlMap_of_adds toMidi urls ∅
                  (MultiSampler.set_buffers (Buffers.new ∅) sampler_empty)
                  eq_refl) as H.
    destruct (MultiSampler.urlMap_of toMidi urls ∅) as [urlMap'|e].
    + cbn. split; [discriminate|intros [e [=]]].
    + destruct H as [-> _]. cbn. split; eauto.
  - unfold MultiSampler.new.
    pose proof (urlMap_of_adds toMidi urls ∅
                  (MultiSampler.set_buffers (Buffers.new ∅) sampler_empty)
                  eq_refl) as H.
    destruct (MultiSampler.urlMap_of toMidi urls ∅) as [urlMap'|e'].
    + cbn. discriminate.
    + destruct H as [-> _]. cbn. intros e [= <-]. reflexivity.
Qed.

Lemma new_is_a_sequence_of_adds_witness :
  MultiSampler.new PitchCodec.toMidi
    [("A4", Buffers.Buffer bufferX); ("note", Buffers.Buffer bufferX)]
    0 (1 # 10) = Throw InvalidKeyError /\
  MultiSampler.new PitchCodec.toMidi [("A4", Buffers.Buffer bufferX)]
    0 (1 # 10)
  = adds PitchCodec.toMidi [(JsString "A4", Buffers.Buffer bufferX)]
      sampler_empty.
Proof.
  split.
  - apply (proj1 (proj2 (new_is_a_sequence_of_adds PitchCodec.toMidi
                           [("A4", Buffers.Buffer bufferX);
                            ("note", Buffers.Buffer bufferX)] 0 (1 # 10)))).
    apply Exists_cons_tl, Exists_cons_hd. split; reflexivity.
  - destruct (new_is_a_sequence_of_adds PitchCodec.toMidi
                [("A4", Buffers.Buffer bufferX)] 0 (1 # 10))
      as ((empty & Hempty & H) & _).
    injection Hempty as <-. exact H.
Defined.

(** ** When an attack fails, and what attacks and releases leave alone *)

Section AttackErrors.

Import MultiSampler.

Variable toMidi : JsValue -> Z.

Lemma new_source_start (ctx : Context) (this : t) (b : ToneBuffer) (d : Z)
    (time offset duration gain fadeInTime : option Q) :
  (loaded b = false ->
   BufferSource.start ctx (new_source this b d) time offset duration gain
     fadeInTime = Throw BufferNotReadyError) /\
  (loaded b = true ->
   exists v, BufferSource.start ctx (new_source this b d) time offset
               duration gain fadeInTime = OK v).
Proof.
  split; intros Hl.
  - rewrite start_eq. cbn. rewrite Hl. reflexivity.
  - apply start_OK; [reflexivity|exact Hl].
Qed.

Lemma triggerAttack_cases (ctx : Context) (this : t) (note : JsValue)
    (time velocity : option Q) :
  (_findClosest this (toMidi note) = None /\
   triggerAttack toMidi ctx this note time velocity = OK this) \/
  (exists d b,
     _findClosest this (toMidi note) = Some d /\
     _buffers this !! ToString (toMidi note - d) = Some b /\
     ((loaded b = false /\
       triggerAttack toMidi ctx this note time velocity
       = Throw BufferNotReadyError) \/
      (loaded b = true /\
       exists v,
         BufferSource.start ctx (new_source this b d) time (Some 0%Q)
           (Some (duration b)) velocity None = OK v /\
         triggerAttack toMidi ctx this note time velocity
         = OK (attacked this (toMidi note) v)))).
Proof.
  destruct (_findClosest this (toMidi note)) as [d|] eqn:Hd.
  - right. destruct (_findClosest_lookup this _ d Hd) as [b Hb].
    exists d, b. split; [reflexivity|]. split; [exact Hb|].
    rewrite (triggerAttack_eq toMidi ctx this note time velocity d b Hd Hb).
    destruct (new_source_start ctx this b d time (Some 0%Q)
                (Some (duration b)) velocity None) as [Hf Ht].
    destruct (loaded b).
    + right. split; [reflexivity|]. destruct (Ht eq_refl) as [v Hv].
      exists v. rewrite Hv. split; reflexivity.
    + left. split; [reflexivity|]. rewrite (Hf eq_refl). reflexivity.
  - left. split; [reflexivity|]. unfold triggerAttack. rewrite Hd.
    reflexivity.
Qed.

End AttackErrors.

(** X5. [triggerAttack] throws exactly when the nearest sample of the note
    is registered with a buffer that is not loaded, and the error is then
    the BufferNotReadyError of [start]; no other error leaves
    [triggerAttack]: the lookup of the buffer never fails, and the new
    source is never refused as already started. *)
Theorem triggerAttack_throws_iff_nearest_not_loaded (toMidi : JsValue -> Z)
    (ctx : Context) (this : MultiSampler.t) (note : JsValue)
    (time velocity : option Q) :
  ((exists e,
      MultiSampler.triggerAttack toMidi ctx this note time velocity = Throw e)
   <->
   exists d b,
     MultiSampler._findClosest this (toMidi note) = Some d /\
     MultiSampler._buffers this !! ToString (toMidi note - d) = Some b /\
     loaded b = false) /\
  (forall e,
     MultiSampler.triggerAttack toMidi ctx this note time velocity = Throw e ->
     e = BufferNotReadyError).
Proof.
  destruct (triggerAttack_cases toMidi ctx this note time velocity)
    as [[Hn H]|(d & b & Hd & Hb & [[Hl H]|[Hl (v & _ & H)]])]; rewrite H.
  - split; [split|]; [intros [e [=]]| |discriminate].
    intros (d & b & Hd & _). congruence.
  - split; [split; eauto|]. intros e [= <-]. reflexivity.
  - split; [split|]; [intros [e [=]]| |discriminate].
    intros (d' & b' & Hd' & Hb' & Hl'). congruence.
Qed.

Lemma triggerAttack_throws_iff_nearest_not_loaded_witness :
  exists this,
    MultiSampler.add PitchCodec.toMidi sampler_empty (JsString "A4")
      (Buffers.Url "a4.mp3") = OK this /\
    MultiSampler.triggerAttack PitchCodec.toMidi ctx0 this (JsString "B4")
      None None = Throw BufferNotReadyError.
Proof.
  destruct (MultiSampler.add PitchCodec.toMidi sampler_empty (JsString "A4")
              (Buffers.Url "a4.mp3")) as [this|e] eqn:Hadd;
    [|vm_compute in Hadd; discriminate].
  exists this. split; [reflexivity|].
  destruct (triggerAttack_throws_iff_nearest_not_loaded PitchCodec.toMidi
              ctx0 this (JsString "B4") None None) as [[_ Hthrow] Honly].
  destruct Hthrow as [e He].
  - exists 2, (Buffers.buffer_of (Buffers.Url "a4.mp3")).
    vm_compute in Hadd. injection Hadd as <-.
    split; [vm_compute; reflexivity|]. split; vm_compute; reflexivity.
  - rewrite He. f_equal. exact (Honly e He).
Defined.

(** X6. What an attack and a release leave alone. A [triggerAttack] that
    returns keeps the attack and release times, the queues of all other
    notes and every source of the store, and adds at most one source. A
    [triggerRelease] that returns keeps the attack and release times, the
    queues of all other notes and the number of sources; it removes at
    most the head of the queue of its note, and every source other than
    the one of that head is unchanged. *)
Theorem attack_and_release_frame (toMidi : JsValue -> Z) (ctx : Context)
    (this this' : MultiSampler.t) (note : JsValue) (time : option Q) :
  (forall velocity,
     MultiSampler.triggerAttack toMidi ctx this note time velocity = OK this' ->
     MultiSampler.attack this' = MultiSampler.attack this /\
     MultiSampler.release this' = MultiSampler.release this /\
     (forall key, key <> ToString (toMidi note) ->
        MultiSampler._activeSources this' !! key
        = MultiSampler._activeSources this !! key) /\
     exists vs,
       MultiSampler.heap this' = MultiSampler.heap this ++ vs /\
       (length vs <= 1)%nat) /\
  (MultiSampler.triggerRelease toMidi ctx this note time = OK this' ->
   MultiSampler.attack this' = MultiSampler.attack this /\
   MultiSampler.release this' = MultiSampler.release this /\
   (forall key, key <> ToString (toMidi note) ->
      MultiSampler._activeSources this' !! key
      = MultiSampler._activeSources this !! key) /\
   length (MultiSampler.heap this') = length (MultiSampler.heap this) /\
   queue_of this' (toMidi note) = tail (queue_of this (toMidi note)) /\
   (forall i,
      (forall e, head (queue_of this (toMidi note)) = Some e ->
         MultiSampler.source e <> i) ->
      MultiSampler.heap this' !! i = MultiSampler.heap this !! i)).
Proof.
  split.
  - intros velocity H.
    destruct (triggerAttack_inv toMidi ctx this this' note time velocity H)
      as [[_ ->]|(d & v & _ & _ & ->)].
    + do 2 (split; [reflexivity|]). split; [reflexivity|].
      exists []. rewrite app_nil_r. split; [reflexivity|cbn; lia].
    + unfold attacked.
      cbn [MultiSampler.attack MultiSampler.release
           MultiSampler._activeSources MultiSampler.heap
           MultiSampler.set_activeSources MultiSampler.set_heap].
      do 2 (split; [reflexivity|]). split.
      * intros key Hk. rewrite lookup_insert_ne by congruence. reflexivity.
      * exists [v]. split; [reflexivity|cbn; lia].
  - unfold MultiSampler.triggerRelease, queue_of.
    destruct (MultiSampler._activeSources this !! ToString (toMidi note))
      as [[|e rest]|] eqn:Hq; cbn [default head tail].
    + intros [= <-]. rewrite Hq. repeat split; reflexivity.
    + cbn [MultiSampler.heap MultiSampler.set_activeSources
           MultiSampler.release MultiSampler._activeSources].
      destruct (MultiSampler.heap this !! MultiSampler.source e)
        as [v|] eqn:Hv.
      * destruct (BufferSource.stop ctx v time
                    (Some (MultiSampler.release this))) as [v'|err];
          [|discriminate].
        cbn [bind]. intros [= <-].
        cbn [MultiSampler.attack MultiSampler.release
             MultiSampler._activeSources MultiSampler.heap
             MultiSampler.set_activeSources MultiSampler.set_heap].
        do 2 (split; [reflexivity|]).
        split; [intros key Hk; rewrite lookup_insert_ne by congruence;
                reflexivity|].
        split; [apply length_insert|].
        split; [rewrite lookup_insert_eq; reflexivity|].
        intros i Hi. apply list_lookup_insert_ne. exact (Hi e eq_refl).
      * intros [= <-].
        cbn [MultiSampler.attack MultiSampler.release
             MultiSampler._activeSources MultiSampler.heap
             MultiSampler.set_activeSources].
        do 2 (split; [reflexivity|]).
        split; [intros key Hk; rewrite lookup_insert_ne by congruence;
                reflexivity|].
        split; [reflexivity|].
        split; [rewrite lookup_insert_eq; reflexivity|].
        intros i Hi. reflexivity.
    + intros [= <-]. rewrite Hq. repeat split; reflexivity.
Qed.

Lemma attack_and_release_frame_witness :
  exists this2 this3,
    after_two_attacks = OK this2 /\
    MultiSampler.triggerRelease PitchCodec.toMidi ctx0 this2 (JsString "A4")
      (Some 3%Q) = OK this3 /\
    length (MultiSampler.heap this3) = length (MultiSampler.heap this2) /\
    MultiSampler.heap this3 !! 1%nat = MultiSampler.heap this2 !! 1%nat.
Proof.
  destruct after_two_attacks as [this2|e] eqn:H2;
    [|vm_compute in H2; discriminate].
  assert (Hq : queue_of this2 69 =
               [{| MultiSampler.note := 69; MultiSampler.source := 0%nat |};
                {| MultiSampler.note := 69; MultiSampler.source := 1%nat |}]).
  { vm_compute in H2. injection H2 as <-. vm_compute. reflexivity. }
  destruct (MultiSampler.triggerRelease PitchCodec.toMidi ctx0 this2
              (JsString "A4") (Some 3%Q)) as [this3|e] eqn:H3;
    [|vm_compute in H2; injection H2 as <-; vm_compute in H3; discriminate].
  exists this2, this3. split; [reflexivity|]. split; [exact H3|].
  destruct (attack_and_release_frame PitchCodec.toMidi ctx0 this2 this3
              (JsString "A4") (Some 3%Q)) as [_ Hr].
  destruct (Hr H3) as (_ & _ & _ & Hlen & _ & Hheap).
  split; [exact Hlen|]. apply Hheap.
  intros e He.
  change (PitchCodec.toMidi (JsString "A4")) with 69 in He.
  rewrite Hq in He. injection He as <-. cbn. lia.
Defined.

(** ** The invariant of the registry and the store *)

Section Reachable.

Import MultiSampler.

Variable toMidi : JsValue -> Z.

Lemma sampler_ok_ext (this this' : t) :
  heap this' = heap this -> _activeSources this' = _activeSources this ->
  sampler_ok this -> sampler_ok this'.
Proof.
  unfold sampler_ok, entry_at. intros -> ->. tauto.
Qed.

Lemma entry_at_attacked (this : t) (midi : Z) (v : BufferSource.t)
    (key : string) (i : nat) (e : ActiveSource) :
  entry_at (attacked this midi v) key i e ->
  entry_at this key i e \/
  (key = ToString midi /\ i = length (queue_of this midi) /\
   e = {| note := midi; source := length (heap this) |}).
Proof.
  unfold entry_at, attacked.
  cbn [_activeSources set_activeSources set_heap].
  intros (q & Hq & Hi).
  destruct (decide (key = ToString midi)) as [->|Hne].
  - rewrite lookup_insert_eq in Hq. injection Hq as <-.
    apply lookup_app_Some in Hi as [Hi|[Hlen Hi]].
    + left. unfold queue_of in Hi.
      destruct (_activeSources this !! ToString midi) as [q|];
        [eauto|discriminate].
    + right. split; [reflexivity|].
      destruct (i - length (queue_of this midi))%nat as [|n] eqn:E;
        [|destruct n; discriminate].
      injection Hi as <-. split; [lia|reflexivity].
  - rewrite lookup_insert_ne in Hq by congruence. left. eauto.
Qed.

Lemma sampler_ok_attacked (this : t) (midi : Z) (v : BufferSource.t) :
  voice_ok v -> sampler_ok this -> sampler_ok (attacked this midi v).
Proof.
  intros Hv (Hstore & Hq & Hu). split; [|split].
  - unfold attacked. cbn [heap set_activeSources set_heap].
    apply Forall_app. split; [exact Hstore|]. constructor; [exact Hv|constructor].
  - intros key i e He.
    assert (Hlen : length (heap (attacked this midi v))
                   = S (length (heap this))).
    { unfold attacked. cbn [heap set_activeSources set_heap].
      rewrite length_app. cbn. lia. }
    rewrite Hlen.
    apply entry_at_attacked in He as [He|(-> & _ & ->)].
    + destruct (Hq key i e He). split; [assumption|lia].
    + cbn. split; [reflexivity|lia].
  - intros key1 i1 e1 key2 i2 e2 H1 H2 Hs.
    apply entry_at_attacked in H1 as [H1|(-> & -> & ->)];
      apply entry_at_attacked in H2 as [H2|(-> & -> & ->)].
    + exact (Hu _ _ _ _ _ _ H1 H2 Hs).
    + destruct (Hq _ _ _ H1) as [_ Hlt]. cbn in Hs. lia.
    + destruct (Hq _ _ _ H2) as [_ Hlt]. cbn in Hs. lia.
    + split; reflexivity.
Qed.

Lemma start_voice_ok (ctx : Context) (this : t) (b : ToneBuffer) (d : Z)
    (time offset duration gain fadeInTime : option Q) (v : BufferSource.t) :
  BufferSource.start ctx (new_source this b d) time offset duration gain
    fadeInTime = OK v ->
  voice_ok v.
Proof.
  intros H. pose proof (start_inv _ _ _ _ _ _ _ _ H) as (_ & Hl & _).
  apply start_fields in H. cbv zeta in H.
  destruct H as (_ & Hb & _ & Hloop & _ & _ & Hs & _).
  split; [|split].
  - unfold BufferSource.buffer_loaded in *. rewrite Hb. exact Hl.
  - rewrite Hloop. reflexivity.
  - rewrite Hs. eauto.
Qed.

Lemma sampler_ok_triggerAttack (ctx : Context) (this this' : t)
    (note : JsValue) (time velocity : option Q) :
  triggerAttack toMidi ctx this note time velocity = OK this' ->
  sampler_ok this -> sampler_ok this'.
Proof.
  intros H Hok.
  destruct (triggerAttack_cases toMidi ctx this note time velocity)
    as [[_ E]|(d & b & _ & _ & [[_ E]|[_ (v & Hv & E)]])];
    rewrite E in H; try discriminate; injection H as <-; [exact Hok|].
  apply sampler_ok_attacked; [|exact Hok].
  exact (start_voice_ok _ _ _ _ _ _ _ _ _ _ Hv).
Qed.

Lemma stop_voice_ok (ctx : Context) (v v' : BufferSource.t)
    (time fadeOutTime : option Q) :
  BufferSource.stop ctx v time fadeOutTime = OK v' ->
  voice_ok v -> voice_ok v'.
Proof.
  intros H (_ & Hloop & Hs).
  pose proof (stop_buffer_loaded _ _ _ _ _ H) as Hl.
  apply stop_fields in H.
  destruct H as (_ & _ & _ & _ & _ & _ & _ & Hloop' & _ & _ & Hs' & _).
  split; [exact Hl|]. split; congruence.
Qed.

Lemma triggerRelease_cases (ctx : Context) (this : t) (note : JsValue)
    (time : option Q) :
  sampler_ok this ->
  (queue_of this (toMidi note) = [] /\
   triggerRelease toMidi ctx this note time = OK this) \/
  (exists e rest v v',
     _activeSources this !! ToString (toMidi note) = Some (e :: rest) /\
     heap this !! source e = Some v /\
     BufferSource.stop ctx v time (Some (release this)) = OK v' /\
     voice_ok v' /\
     triggerRelease toMidi ctx this note time
     = OK (released this (toMidi note) e rest v')).
Proof.
  intros (Hstore & Hq & _).
  destruct (_activeSources this !! ToString (toMidi note))
    as [[|e rest]|] eqn:E.
  - left. assert (Hn : queue_of this (toMidi note) = [])
      by (unfold queue_of; rewrite E; reflexivity).
    split; [exact Hn|]. apply triggerRelease_empty. exact Hn.
  - right.
    destruct (Hq (ToString (toMidi note)) 0%nat e) as [_ Hlt];
      [exists (e :: rest); split; [exact E|reflexivity]|].
    destruct (lookup_lt_is_Some_2 _ _ Hlt) as [v Hv].
    assert (Hok : voice_ok v)
      by (rewrite Forall_lookup in Hstore; exact (Hstore _ _ Hv)).
    destruct (triggerRelease_cons toMidi ctx this note time e rest E)
      as (v0 & v' & Hv0 & Hstop & _ & Hrel).
    { exists v. split; [exact Hv|]. apply Hok. }
    rewrite Hv in Hv0. injection Hv0 as <-.
    exists e, rest, v, v'. split; [reflexivity|]. split; [exact Hv|].
    split; [exact Hstop|]. split; [|exact Hrel].
    exact (stop_voice_ok _ _ _ _ _ Hstop Hok).
  - left. assert (Hn : queue_of this (toMidi note) = [])
      by (unfold queue_of; rewrite E; reflexivity).
    split; [exact Hn|]. apply triggerRelease_empty. exact Hn.
Qed.

Lemma entry_at_released (this : t) (midi : Z) (e0 : ActiveSource)
    (rest : list ActiveSource) (v' : BufferSource.t) (key : string)
    (i : nat) (e : ActiveSource) :
  _activeSources this !! ToString midi = Some (e0 :: rest) ->
  entry_at (released this midi e0 rest v') key i e ->
  (key <> ToString midi /\ entry_at this key i e) \/
  (key = ToString midi /\ entry_at this key (S i) e).
Proof.
  unfold entry_at, released.
  cbn [_activeSources set_activeSources set_heap].
  intros E (q & Hq & Hi).
  destruct (decide (key = ToString midi)) as [->|Hne].
  - rewrite lookup_insert_eq in Hq. injection Hq as <-.
    right. split; [reflexivity|]. exists (e0 :: rest). split; [exact E|exact Hi].
  - rewrite lookup_insert_ne in Hq by congruence. left. eauto.
Qed.

Lemma sampler_ok_released (this : t) (midi : Z) (e0 : ActiveSource)
    (rest : list ActiveSource) (v' : BufferSource.t) :
  _activeSources this !! ToString midi = Some (e0 :: rest) ->
  voice_ok v' -> sampler_ok this ->
  sampler_ok (released this midi e0 rest v').
Proof.
  intros E Hv (Hstore & Hq & Hu). split; [|split].
  - unfold released. cbn [heap set_activeSources set_heap].
    apply Forall_insert; assumption.
  - intros key i e He.
    assert (Hlen : length (heap (released this midi e0 rest v'))
                   = length (heap this)).
    { unfold released. cbn [heap set_activeSources set_heap].
      apply length_insert. }
    rewrite Hlen.
    apply (entry_at_released _ _ _ _ _ _ _ _ E) in He as [[_ He]|[_ He]];
      exact (Hq _ _ _ He).
  - intros key1 i1 e1 key2 i2 e2 H1 H2 Hs.
    apply (entry_at_released _ _ _ _ _ _ _ _ E) in H1 as [[N1 H1]|[N1 H1]];
      apply (entry_at_released _ _ _ _ _ _ _ _ E) in H2 as [[N2 H2]|[N2 H2]];
      destruct (Hu _ _ _ _ _ _ H1 H2 Hs) as [Hk Hi];
      split; congruence || lia.
Qed.

Lemma sampler_ok_triggerRelease (ctx : Context) (this this' : t)
    (note : JsValue) (time : option Q) :
  triggerRelease toMidi ctx this note time = OK this' ->
  sampler_ok this -> sampler_ok this'.
Proof.
  intros H Hok.
  destruct (triggerRelease_cases ctx this note time Hok)
    as [[_ E]|(e & rest & v & v' & Hq & _ & _ & Hv' & E)];
    rewrite E in H; injection H as <-; [exact Hok|].
  apply sampler_ok_released; assumption.
Qed.

Lemma sampler_ok_new (urls : list (string * Buffers.Source))
    (attack release : Q) (this : t) :
  new toMidi urls attack release = OK this -> sampler_ok this.
Proof.
  unfold new. destruct (urlMap_of toMidi urls ∅); [|discriminate].
  intros [= <-]. unfold sampler_ok, entry_at. cbn.
  split; [constructor|].
  split; [intros key i e (q & Hq & _)|intros key i e ? ? ? (q & Hq & _)];
    rewrite lookup_empty in Hq; discriminate.
Qed.

Lemma reachable_sampler_ok (this : t) :
  reachable toMidi this -> sampler_ok this.
Proof.
  induction 1 as [urls a r this H|this note url this' _ IH H
                 |ctx this note time velocity this' _ IH H
                 |ctx this note time this' _ IH H
                 |this a _ IH|this r _ IH|this key b d _ IH Hb].
  - exact (sampler_ok_new _ _ _ _ H).
  - apply add_inv in H. subst this'.
    exact (sampler_ok_ext this _ eq_refl eq_refl IH).
  - exact (sampler_ok_triggerAttack _ _ _ _ _ _ H IH).
  - exact (sampler_ok_triggerRelease _ _ _ _ _ H IH).
  - exact (sampler_ok_ext this _ eq_refl eq_refl IH).
  - exact (sampler_ok_ext this _ eq_refl eq_refl IH).
  - exact (sampler_ok_ext this _ eq_refl eq_refl IH).
Qed.

End Reachable.

(** X7. The invariant of the registry of active sources. In every sampler
    that the constructor, [add], [triggerAttack], [triggerRelease], the
    assignments to [attack] and [release] and the completion of loads lead
    to: every entry of the registry is filed under the key of its own
    note and refers to a source of the store; that source is bound to a
    loaded buffer, does not loop and was started on the native node; and
    no source is referred to by two entries. *)
Theorem registry_invariant (toMidi : JsValue -> Z) (this : MultiSampler.t) :
  reachable toMidi this ->
  (forall key i e, entry_at this key i e ->
     key = ToString (MultiSampler.note e) /\
     exists v,
       MultiSampler.heap this !! MultiSampler.source e = Some v /\
       BufferSource.buffer_loaded v = true /\
       BufferSource.loop v = false /\
       is_Some (BufferSource._source_start v)) /\
  (forall key1 i1 e1 key2 i2 e2,
     entry_at this key1 i1 e1 -> entry_at this key2 i2 e2 ->
     MultiSampler.source e1 = MultiSampler.source e2 ->
     key1 = key2 /\ i1 = i2).
Proof.
  intros H. apply reachable_sampler_ok in H. destruct H as (Hstore & Hq & Hu).
  split; [|exact Hu].
  intros key i e He. destruct (Hq key i e He) as [Hk Hlt].
  split; [exact Hk|].
  destruct (lookup_lt_is_Some_2 _ _ Hlt) as [v Hv].
  exists v. split; [exact Hv|].
  rewrite Forall_lookup in Hstore. exact (Hstore _ _ Hv).
Qed.

Lemma registry_invariant_witness :
  exists this2,
    after_two_attacks = OK this2 /\
    reachable PitchCodec.toMidi this2 /\
    forall key i e, entry_at this2 key i e ->
      key = ToString (MultiSampler.note e) /\
      exists v,
        MultiSampler.heap this2 !! MultiSampler.source e = Some v /\
        BufferSource.buffer_loaded v = true /\
        BufferSource.loop v = false /\
        is_Some (BufferSource._source_start v).
Proof.
  destruct after_two_attacks as [this2|e] eqn:H2;
    [|vm_compute in H2; discriminate].
  assert (Hr : reachable PitchCodec.toMidi this2).
  { unfold after_two_attacks in H2.
    destruct (MultiSampler.triggerAttack PitchCodec.toMidi ctx0 sampler_A4
                (JsString "A4") (Some 0%Q) None) as [s|] eqn:H1;
      [|discriminate].
    simpl in H2.
    eapply reachable_triggerAttack; [|exact H2].
    eapply reachable_triggerAttack; [|exact H1].
    eapply reachable_new. exact new_sampler_A4. }
  exists this2. split; [reflexivity|]. split; [exact Hr|].
  exact (proj1 (registry_invariant PitchCodec.toMidi this2 Hr)).
Defined.

(** X8. On a sampler that the public interface leads to, [triggerRelease]
    never throws, whatever the note, the clock and the time. When the
    queue of the note is not empty, the source of its oldest entry is
    stopped and no entry of the registry refers to it afterwards, so that
    no later release stops it again. *)
Theorem triggerRelease_never_throws (toMidi : JsValue -> Z) (ctx : Context)
    (this : MultiSampler.t) (note : JsValue) (time : option Q) :
  reachable toMidi this ->
  exists this',
    MultiSampler.triggerRelease toMidi ctx this note time = OK this' /\
    forall e, head (queue_of this (toMidi note)) = Some e ->
      (exists v v',
         MultiSampler.heap this !! MultiSampler.source e = Some v /\
         BufferSource.stop ctx v time (Some (MultiSampler.release this))
         = OK v' /\
         MultiSampler.heap this' !! MultiSampler.source e = Some v') /\
      (forall key i e', entry_at this' key i e' ->
         MultiSampler.source e' <> MultiSampler.source e).
Proof.
  intros Hr. pose proof (reachable_sampler_ok toMidi this Hr) as Hok.
  destruct (triggerRelease_cases toMidi ctx this note time Hok)
    as [[Hn E]|(e0 & rest & v & v' & Hq & Hv & Hstop & _ & E)].
  - exists this. split; [exact E|]. rewrite Hn. discriminate.
  - eexists. split; [exact E|].
    unfold queue_of. rewrite Hq. cbn [default head]. intros e [= <-].
    split.
    + exists v, v'. split; [exact Hv|]. split; [exact Hstop|].
      unfold released.
      cbn [MultiSampler.heap MultiSampler.set_activeSources
           MultiSampler.set_heap].
      apply list_lookup_insert_eq. exact (lookup_lt_Some _ _ _ Hv).
    + intros key i e' He' Hs.
      destruct Hok as (_ & _ & Hu).
      assert (H0 : entry_at this (ToString (toMidi note)) 0%nat e0)
        by (exists (e0 :: rest); split; [exact Hq|reflexivity]).
      apply (entry_at_released _ _ _ _ _ _ _ _ Hq) in He'
        as [[Hne He']|[-> He']];
        destruct (Hu _ _ _ _ _ _ He' H0 Hs) as [Hk Hi];
        [congruence|discriminate].
Qed.

Lemma triggerRelease_never_throws_witness :
  exists this2 this3 v v',
    after_two_attacks = OK this2 /\
    head (queue_of this2 69)
    = Some {| MultiSampler.note := 69; MultiSampler.source := 0%nat |} /\
    MultiSampler.triggerRelease PitchCodec.toMidi ctx0 this2 (JsString "A4")
      (Some 3%Q) = OK this3 /\
    MultiSampler.heap this2 !! 0%nat = Some v /\
    BufferSource.stop ctx0 v (Some 3%Q) (Some (MultiSampler.release this2))
    = OK v' /\
    MultiSampler.heap this3 !! 0%nat = Some v' /\
    BufferSource._stopTime v' = (3 + MultiSampler.release this2)%Q /\
    forall key i e', entry_at this3 key i e' ->
      MultiSampler.source e' <> 0%nat.
Proof.
  destruct after_two_attacks as [this2|e] eqn:H2;
    [|vm_compute in H2; discriminate].
  assert (Hr : reachable PitchCodec.toMidi this2).
  { unfold after_two_attacks in H2.
    destruct (MultiSampler.triggerAttack PitchCodec.toMidi ctx0 sampler_A4
                (JsString "A4") (Some 0%Q) None) as [s|] eqn:H1;
      [|discriminate].
    simpl in H2.
    eapply reachable_triggerAttack; [|exact H2].
    eapply reachable_triggerAttack; [|exact H1].
    eapply reachable_new. exact new_sampler_A4. }
  assert (Hq : head (queue_of this2 69)
               = Some {| MultiSampler.note := 69;
                         MultiSampler.source := 0%nat |}).
  { vm_compute in H2. injection H2 as <-. vm_compute. reflexivity. }
  destruct (triggerRelease_never_throws PitchCodec.toMidi ctx0 this2
              (JsString "A4") (Some 3%Q) Hr) as (this3 & H3 & Hhead).
  destruct (Hhead _ Hq) as ((v & v' & Hv & Hstop & Hv') & Hfree).
  exists this2, this3, v, v'.
  split; [reflexivity|]. split; [exact Hq|]. split; [exact H3|].
  split; [exact Hv|]. split; [exact Hstop|]. split; [exact Hv'|].
  split; [|exact Hfree].
  apply stop_fields in Hstop. exact (proj1 (proj2 Hstop)).
Defined.

(** ** The time during which a voice reports [started] *)

Section PlayingWindow.

Import BufferSource.
Local Open Scope Q_scope.

Lemma state_after_stop (ctx ctx' : Context) (this this' : t)
    (time fadeOutTime : option Q) :
  stop ctx this time fadeOutTime = OK this' ->
  (state ctx' this' = Tone.Started <->
   ~ _startTime this == -1 /\
   _startTime this <= now ctx' /\
   now ctx' < toSeconds ctx time + fade_of fadeOutTime (fadeOut this)).
Proof.
  intros H. apply stop_fields in H. destruct H as (_ & Hstop & _ & Hstart & _).
  rewrite state_Started_iff, Hstop, Hstart. reflexivity.
Qed.

End PlayingWindow.

(** X9. The time during which a started voice reports [started]. After a
    [start] that returns and schedules the automatic stop (every start of
    a voice that does not loop, and every start with a duration), with the
    start time [t], the fade-in [f] and the duration [d] in effect, the
    state read at the clock time [now] is [started] exactly when
    [t + f <= now < t + d + f + f], provided [t + f] is not the sentinel
    -1; at every other time it is [stopped]. A later [stop(time, fadeOut)]
    moves the end of that interval to [time + fadeOut] and keeps its
    beginning. *)
Theorem started_between_fade_in_and_stop (ctx : Context)
    (this this' : BufferSource.t)
    (time offset duration gain fadeInTime : option Q) :
  BufferSource.start ctx this time offset duration gain fadeInTime
  = OK this' ->
  schedules_stop this duration = true ->
  let t := toSeconds ctx time in
  let f := fade_of fadeInTime (BufferSource.fadeIn this) in
  let d := resolved_duration this (start_offset this offset) duration in
  (forall ctx',
     BufferSource.state ctx' this' = Tone.Started <->
     (~ t + f == -1 /\ t + f <= now ctx' /\ now ctx' < t + d + f + f)%Q) /\
  (forall ctx', BufferSource.state ctx' this' = Tone.Started \/
                BufferSource.state ctx' this' = Tone.Stopped) /\
  (forall ctx2 time2 fadeOut2 this2 ctx',
     BufferSource.stop ctx2 this' time2 fadeOut2 = OK this2 ->
     (BufferSource.state ctx' this2 = Tone.Started <->
      (~ t + f == -1 /\ t + f <= now ctx' /\
       now ctx' < toSeconds ctx2 time2
                  + fade_of fadeOut2 (BufferSource.fadeOut this))%Q)).
Proof.
  intros H Hs t f d.
  pose proof (start_inv _ _ _ _ _ _ _ _ H) as (_ & _ & Hinv).
  cbv zeta in Hinv. destruct Hinv as (this2 & Hstop & ->).
  rewrite Hs in Hstop.
  pose proof (start_fields _ _ _ _ _ _ _ _ H) as Hf. cbv zeta in Hf.
  destruct Hf as (Hstart & _ & _ & _ & _ & _ & _ & Hst).
  rewrite Hs in Hst. destruct Hst as [Hst _].
  split; [|split].
  - intros ctx'. rewrite state_Started_iff, Hstart, Hst. reflexivity.
  - intros ctx'. unfold BufferSource.state.
    destruct (_ && _); [left|right]; reflexivity.
  - intros ctx2 time2 fadeOut2 this3 ctx' H3.
    rewrite (state_after_stop _ ctx' _ _ _ _ H3), Hstart.
    apply stop_fields in Hstop.
    destruct Hstop as (_ & _ & _ & _ & _ & _ & _ & _ & _ & _ & _ & _ & _ & Hfo).
    replace (BufferSource.fadeOut
               (BufferSource.source_start (toSeconds ctx time)
                  (BufferSource.wrapped_offset this
                     (start_offset this offset)) this2))
      with (BufferSource.fadeOut this); [reflexivity|].
    rewrite <- (proj2 (proj2 (proj2 (proj2 (proj2 (proj2 (proj2 (proj2
                 (proj2 (proj2 (start_enveloped_fields this
                    (toSeconds ctx time) gain
                    (fade_of fadeInTime (BufferSource.fadeIn this))))))))))))).
    rewrite <- Hfo. reflexivity.
Qed.

Lemma started_between_fade_in_and_stop_witness :
  exists this',
    BufferSource.start ctx0 voiceX (Some 1%Q) None None None
      (Some (1 # 2)%Q) = OK this' /\
    BufferSource.state {| now := 2; sampleTime := 1 # 44100 |} this'
    = Tone.Started /\
    BufferSource.state {| now := 4; sampleTime := 1 # 44100 |} this'
    = Tone.Stopped.
Proof.
  destruct (BufferSource.start ctx0 voiceX (Some 1%Q) None None None
              (Some (1 # 2)%Q)) as [this'|e] eqn:H;
    [|vm_compute in H; discriminate].
  exists this'. split; [reflexivity|].
  destruct (started_between_fade_in_and_stop ctx0 voiceX this'
              (Some 1%Q) None None None (Some (1 # 2)%Q) H eq_refl)
    as (Hw & Hc & _).
  split.
  - apply Hw. vm_compute. repeat split; discriminate.
  - destruct (Hc {| now := 4; sampleTime := 1 # 44100 |}) as [Hs|Hs];
      [|exact Hs].
    apply Hw in Hs. destruct Hs as (_ & _ & Hlt). vm_compute in Hlt.
    discriminate.
Defined.

(** X10. A note from attack to release. On a sampler that the public
    interface leads to and that holds no active source for the note, an
    attack that finds a sample followed by a release of the same note
    always returns; the source that the attack created (the last of the
    store) then reports [started] exactly from the end of the attack time
    of the sampler after the time of the attack up to the end of the
    release time after the time of the release, and the queue of the note
    is empty again. *)
Theorem attack_then_release (toMidi : JsValue -> Z) (ctx1 ctx2 : Context)
    (this this1 : MultiSampler.t) (note : JsValue)
    (time1 velocity time2 : option Q) :
  reachable toMidi this ->
  queue_of this (toMidi note) = [] ->
  is_Some (MultiSampler._findClosest this (toMidi note)) ->
  MultiSampler.triggerAttack toMidi ctx1 this note time1 velocity
  = OK this1 ->
  exists this2 v,
    MultiSampler.triggerRelease toMidi ctx2 this1 note time2 = OK this2 /\
    MultiSampler.heap this2 !! length (MultiSampler.heap this) = Some v /\
    length (MultiSampler.heap this2) = S (length (MultiSampler.heap this)) /\
    queue_of this2 (toMidi note) = [] /\
    forall ctx',
      BufferSource.state ctx' v = Tone.Started <->
      (~ toSeconds ctx1 time1 + MultiSampler.attack this == -1 /\
       toSeconds ctx1 time1 + MultiSampler.attack this <= now ctx' /\
       now ctx' < toSeconds ctx2 time2 + MultiSampler.release this)%Q.
Proof.
  intros Hr Hempty [d Hd] Hatt.
  pose proof (reachable_triggerAttack toMidi _ _ _ _ _ _ Hr Hatt) as Hr1.
  pose proof (reachable_sampler_ok toMidi _ Hr1) as Hok1.
  destruct (triggerAttack_cases toMidi ctx1 this note time1 velocity)
    as [[Hn _]|(d' & b & _ & _ & [[_ E]|[_ (v & Hv & E)]])];
    [congruence|rewrite E in Hatt; discriminate|].
  rewrite E in Hatt. injection Hatt as <-.
  assert (Hq1 : MultiSampler._activeSources
                  (attacked this (toMidi note) v) !! ToString (toMidi note)
                = Some [{| MultiSampler.note := toMidi note;
                           MultiSampler.source :=
                             length (MultiSampler.heap this) |}]).
  { unfold attacked. cbn [MultiSampler._activeSources
      MultiSampler.set_activeSources MultiSampler.set_heap].
    rewrite lookup_insert_eq, Hempty. reflexivity. }
  assert (Hv1 : MultiSampler.heap (attacked this (toMidi note) v)
                !! length (MultiSampler.heap this) = Some v).
  { unfold attacked. cbn [MultiSampler.heap MultiSampler.set_activeSources
      MultiSampler.set_heap].
    rewrite lookup_app_r, Nat.sub_diag by lia. reflexivity. }
  destruct (triggerRelease_cases toMidi ctx2 _ note time2 Hok1)
    as [[Hn _]|(e0 & rest & v0 & v' & Hq & Hv0 & Hstop & _ & E2)].
  { unfold queue_of in Hn. rewrite Hq1 in Hn. discriminate. }
  rewrite Hq1 in Hq. injection Hq as <- <-.
  cbn [MultiSampler.source] in Hv0. rewrite Hv1 in Hv0. injection Hv0 as <-.
  eexists. exists v'. split; [exact E2|].
  unfold released.
  cbn [MultiSampler.heap MultiSampler.set_activeSources MultiSampler.set_heap
       MultiSampler.source].
  split; [apply list_lookup_insert_eq; exact (lookup_lt_Some _ _ _ Hv1)|].
  split.
  { rewrite length_insert. unfold attacked.
    cbn [MultiSampler.heap MultiSampler.set_activeSources
         MultiSampler.set_heap].
    rewrite length_app. cbn. lia. }
  split.
  { unfold queue_of. cbn [MultiSampler._activeSources
      MultiSampler.set_activeSources MultiSampler.set_heap].
    rewrite lookup_insert_eq. reflexivity. }
  intros ctx'. rewrite (state_after_stop _ ctx' _ _ _ _ Hstop).
  apply start_fields in Hv. cbv zeta in Hv. destruct Hv as (Hstart & _).
  rewrite Hstart. reflexivity.
Qed.

Lemma attack_then_release_witness :
  exists this1 this2 v,
    MultiSampler.triggerAttack PitchCodec.toMidi ctx0 sampler_A4
      (JsString "B4") (Some 1%Q) None = OK this1 /\
    MultiSampler.triggerRelease PitchCodec.toMidi ctx0 this1 (JsString "B4")
      (Some 2%Q) = OK this2 /\
    MultiSampler.heap this2 !! 0%nat = Some v /\
    BufferSource.state {| now := 2; sampleTime := 1 # 44100 |} v
    = Tone.Started.
Proof.
  destruct (MultiSampler.triggerAttack PitchCodec.toMidi ctx0 sampler_A4
              (JsString "B4") (Some 1%Q) None) as [this1|e] eqn:H1;
    [|vm_compute in H1; discriminate].
  destruct (attack_then_release PitchCodec.toMidi ctx0 ctx0 sampler_A4 this1
              (JsString "B4") (Some 1%Q) None (Some 2%Q))
    as (this2 & v & H2 & Hv & _ & _ & Hw).
  - eapply reachable_new. exact new_sampler_A4.
  - reflexivity.
  - vm_compute. eauto.
  - exact H1.
  - exists this1, this2, v. split; [reflexivity|]. split; [exact H2|].
    split; [exact Hv|]. apply Hw. vm_compute. repeat split; discriminate.
Defined.

(** ** The envelope that [start] and [stop] schedule *)

Section Envelope.

Import BufferSource.
Local Open Scope Q_scope.

Lemma start_enveloped_gainNode (this : t) (time : Q) (gain : option Q)
    (f : Q) :
  _gainNode (start_enveloped this time gain f) =
  _gainNode this ++
  (if Qlt_bool 0 f
   then [setValueAtTime 0 time;
         linearRampToValueAtTime (Tone.defaultArg gain 1) (time + f)]
   else [setValueAtTime (Tone.defaultArg gain 1) time]).
Proof.
  unfold start_enveloped. destruct (Qlt_bool 0 f); reflexivity.
Qed.

End Envelope.

(** X11. [stop] may be called again. After a [stop] that returned, every
    further [stop] on the voice returns as well; the last call decides the
    stop time and the pending timeout (the timeout of the earlier call is
    cleared), the start time, the buffer and the native start stay as they
    are, and the calls that the second [stop] makes on the gain parameter
    are the ones it would make without the first [stop], after those of
    the first. *)
Theorem stop_may_be_repeated (ctx1 ctx2 : Context) (v v1 : BufferSource.t)
    (time1 fadeOut1 time2 fadeOut2 : option Q) :
  BufferSource.stop ctx1 v time1 fadeOut1 = OK v1 ->
  exists v2,
    BufferSource.stop ctx2 v1 time2 fadeOut2 = OK v2 /\
    BufferSource._stopTime v2
    = (toSeconds ctx2 time2 + fade_of fadeOut2 (BufferSource.fadeOut v))%Q /\
    BufferSource._onendedTimeout v2
    = Some (toSeconds ctx2 time2 + fade_of fadeOut2 (BufferSource.fadeOut v)
            - now ctx2)%Q /\
    BufferSource._startTime v2 = BufferSource._startTime v /\
    BufferSource.buffer v2 = BufferSource.buffer v /\
    BufferSource._source_start v2 = BufferSource._source_start v /\
    BufferSource._gainNode v2
    = BufferSource._gainNode v ++ stop_calls ctx1 v time1 fadeOut1
      ++ stop_calls ctx2 v time2 fadeOut2.
Proof.
  intros H1.
  destruct (stop_OK ctx2 v1 time2 fadeOut2 (stop_buffer_loaded _ _ _ _ _ H1))
    as [v2 H2].
  exists v2. split; [exact H2|].
  pose proof (stop_gainNode _ _ _ _ _ H1) as G1.
  pose proof (stop_gainNode _ _ _ _ _ H2) as G2.
  apply stop_fields in H1.
  destruct H1 as (_ & _ & _ & Hst1 & Hb1 & _ & Hg1 & _ & _ & _ & Hs1 & _ & _
                  & Hfo1).
  apply stop_fields in H2.
  destruct H2 as (_ & Hstop2 & Hto2 & Hst2 & Hb2 & _ & _ & _ & _ & _ & Hs2
                  & _).
  rewrite Hfo1 in Hstop2, Hto2.
  split; [exact Hstop2|]. split; [exact Hto2|].
  split; [congruence|]. split; [congruence|]. split; [congruence|].
  rewrite G2, G1, <- app_assoc. f_equal. f_equal.
  unfold stop_calls. rewrite Hst1, Hfo1, Hg1. reflexivity.
Qed.

Lemma stop_may_be_repeated_witness :
  exists v1 v2,
    BufferSource.stop ctx0 voiceX (Some 3%Q) None = OK v1 /\
    BufferSource.stop ctx0 v1 (Some 2%Q) (Some (1 # 2)%Q) = OK v2 /\
    BufferSource._stopTime v2 = (2 + (1 # 2))%Q.
Proof.
  destruct (BufferSource.stop ctx0 voiceX (Some 3%Q) None) as [v1|e] eqn:H1;
    [|vm_compute in H1; discriminate].
  destruct (stop_may_be_repeated ctx0 ctx0 voiceX v1 (Some 3%Q) None
              (Some 2%Q) (Some (1 # 2)%Q) H1) as (v2 & H2 & Hs & _).
  exists v1, v2. split; [reflexivity|]. split; [exact H2|exact Hs].
Defined.

(** X12. The envelope of a voice is scheduled in the order of time. After
    a [start] with a fade-in that is not negative, on a voice whose gain
    parameter had no calls, the values scheduled on the gain parameter
    (the fade-in and, when [start] calls [stop], the fade-out) are
    scheduled at times that never decrease in the order of the calls:
    [stop] starts the fade-out at the later of the recorded start time
    and the stop time, so it never begins before the fade-in has ended,
    also when the duration in effect is negative. *)
Theorem start_schedules_in_order (ctx : Context) (this this' : BufferSource.t)
    (time offset duration gain fadeInTime : option Q) :
  BufferSource.start ctx this time offset duration gain fadeInTime
  = OK this' ->
  BufferSource._gainNode this = [] ->
  (0 <= fade_of fadeInTime (BufferSource.fadeIn this))%Q ->
  StronglySorted Qle (scheduled_times (BufferSource._gainNode this')) /\
  head (scheduled_times (BufferSource._gainNode this'))
  = Some (toSeconds ctx time).
Proof.
  intros H Hnil Hf.
  apply start_inv in H. destruct H as (_ & _ & H). cbv zeta in H.
  destruct H as (this2 & Hstop & ->).
  set (t := toSeconds ctx time) in *.
  set (f := fade_of fadeInTime (BufferSource.fadeIn this)) in *.
  set (d := resolved_duration this (start_offset this offset) duration) in *.
  change (BufferSource._gainNode (BufferSource.source_start t
            (BufferSource.wrapped_offset this (start_offset this offset))
            this2))
    with (BufferSource._gainNode this2).
  pose proof (start_enveloped_gainNode this t gain f) as G1.
  rewrite Hnil in G1. cbn [app] in G1.
  assert (Hin : forall x y : Q, (x <= y -> y <= Qmax y x)%Q)
    by (intros; apply Q.le_max_l).
  destruct (schedules_stop this duration).
  - apply stop_gainNode in Hstop. rewrite Hstop, G1.
    unfold stop_calls.
    rewrite (proj1 (start_enveloped_fields this t gain f)).
    cbn [fade_of toSeconds].
    pose proof (Q.le_max_l (t + f) (t + d + f)) as Hmax.
    destruct (Qlt_bool 0 f); cbn; (split; [|reflexivity]);
      repeat (constructor; [|repeat (constructor; try Lqa.lra)]);
      try apply SSorted_nil; try Lqa.lra.
  - subst this2. rewrite G1.
    destruct (Qlt_bool 0 f); cbn; (split; [|reflexivity]);
      repeat (constructor; [|repeat (constructor; try Lqa.lra)]);
      try apply SSorted_nil; try Lqa.lra.
Qed.

Lemma start_schedules_in_order_witness :
  exists this',
    BufferSource.start ctx0 voiceX (Some 1%Q) (Some 3%Q) None None
      (Some (1 # 2)%Q) = OK this' /\
    StronglySorted Qle (scheduled_times (BufferSource._gainNode this')) /\
    scheduled_times (BufferSource._gainNode this')
    = [1; 1 + (1 # 2); Qmax (1 + (1 # 2)) (1 + (2 - 3) + (1 # 2));
       Qmax (1 + (1 # 2)) (1 + (2 - 3) + (1 # 2)) + (1 # 2)]%Q.
Proof.
  destruct (BufferSource.start ctx0 voiceX (Some 1%Q) (Some 3%Q) None None
              (Some (1 # 2)%Q)) as [this'|e] eqn:H;
    [|vm_compute in H; discriminate].
  exists this'. split; [reflexivity|].
  destruct (start_schedules_in_order ctx0 voiceX this' (Some 1%Q) (Some 3%Q)
              None None (Some (1 # 2)%Q) H eq_refl) as [Hs _];
    [vm_compute; discriminate|].
  split; [exact Hs|].
  vm_compute in H. injection H as <-. vm_compute. reflexivity.
Defined.

(** ** The offset of a looping voice *)

Section LoopOffset.

Import BufferSource.
Local Open Scope Q_scope.

Lemma js_rem_nonneg (a b : Q) :
  0 <= a -> 0 < b ->
  exists (r : Q) (n : Z),
    js_rem a b = Some r /\ 0 <= r /\ r < b /\ (0 <= n)%Z /\
    a == r + b * inject_Z n /\ (b <= a -> (0 < n)%Z).
Proof.
  intros Ha Hb. unfold js_rem.
  assert (Hb0 : ~ b == 0) by Lqa.lra.
  destruct (Qeq_bool b 0) eqn:E; [apply Qeq_bool_iff in E; contradiction|].
  assert (Hq : a == b * (a / b)) by (field; exact Hb0).
  assert (Hq0 : 0 <= a / b)
    by (apply Qle_shift_div_l; [exact Hb|]; Lqa.lra).
  assert (Hq1 : b <= a -> 1 <= a / b)
    by (intros Hle; apply Qle_shift_div_l; [exact Hb|]; Lqa.lra).
  generalize dependent (a / b). intros q Hq Hq0 Hq1.
  assert (Hn : (0 <= Qnum q)%Z).
  { unfold Qle in Hq0. cbn in Hq0. rewrite Z.mul_1_r in Hq0. exact Hq0. }
  rewrite Z.quot_div_nonneg by (try exact Hn; reflexivity).
  replace (Qnum q / Z.pos (Qden q))%Z with (Qfloor q)
    by (destruct q; reflexivity).
  pose proof (Qfloor_le q) as Hlo. pose proof (Qlt_floor q) as Hhi.
  rewrite inject_Z_plus in Hhi. change (inject_Z 1) with 1 in Hhi.
  pose proof (Qfloor_resp_le _ _ Hq0) as Hn0.
  change (Qfloor 0) with 0%Z in Hn0.
  exists (a - b * inject_Z (Qfloor q)), (Qfloor q). split; [reflexivity|].
  assert (H1 : 0 <= b * (q - inject_Z (Qfloor q)))
    by (apply Qmult_le_0_compat; Lqa.lra).
  assert (H2 : b * (q - inject_Z (Qfloor q)) < b * 1)
    by (apply Qmult_lt_l; [exact Hb|Lqa.lra]).
  split; [Lqa.lra|]. split; [Lqa.lra|]. split; [exact Hn0|].
  split; [Lqa.lra|].
  intros Hle. pose proof (Qfloor_resp_le _ _ (Hq1 Hle)) as Hn1.
  change (Qfloor 1) with 1%Z in Hn1. lia.
Qed.

End LoopOffset.

(** X13. The offset that a looping voice gives to the native node. With
    [end] the end of the loop ([loopEnd], or the duration of the buffer
    when [loopEnd] is 0): an offset up to [end] is passed on as it is; an
    offset beyond [end], when the loop is not empty
    ([loopStart < end]), is moved back into the loop: the offset passed on
    lies in [loopStart, end) and differs from the given one by a positive
    whole number of loop lengths; and when the loop has the length 0, an
    offset beyond [end] becomes NaN. *)
Theorem looping_offset_is_moved_into_the_loop (this : BufferSource.t)
    (offset : Q) :
  BufferSource.loop this = true ->
  ((offset <= loop_end this)%Q ->
   BufferSource.wrapped_offset this offset = Some offset) /\
  ((loop_end this < offset)%Q ->
   (BufferSource.loopStart this < loop_end this)%Q ->
   exists (r : Q) (n : Z),
     BufferSource.wrapped_offset this offset = Some r /\
     (BufferSource.loopStart this <= r)%Q /\ (r < loop_end this)%Q /\
     0 < n /\
     (offset ==
      r + inject_Z n * (loop_end this - BufferSource.loopStart this))%Q) /\
  ((loop_end this < offset)%Q ->
   (loop_end this == BufferSource.loopStart this)%Q ->
   BufferSource.wrapped_offset this offset = None).
Proof.
  intros Hloop. unfold BufferSource.wrapped_offset. rewrite Hloop.
  fold (loop_end this). unfold Qlt_bool.
  split; [|split].
  - intros Hle. apply Qle_bool_iff in Hle. rewrite Hle. reflexivity.
  - intros Hlt Hne.
    destruct (Qle_bool offset (loop_end this)) eqn:E;
      [apply Qle_bool_iff in E; Lqa.lra|]. cbn [negb].
    destruct (js_rem_nonneg (offset - BufferSource.loopStart this)
                (loop_end this - BufferSource.loopStart this))
      as (r & n & Hr & H0 & H1 & _ & Heq & Hn); [Lqa.lra|Lqa.lra|].
    rewrite Hr. exists (r + BufferSource.loopStart this)%Q, n.
    split; [reflexivity|]. split; [Lqa.lra|]. split; [Lqa.lra|].
    split; [apply Hn; Lqa.lra|]. Lqa.lra.
  - intros Hlt Heq.
    destruct (Qle_bool offset (loop_end this)) eqn:E;
      [apply Qle_bool_iff in E; Lqa.lra|]. cbn [negb].
    unfold js_rem.
    assert (H0 : (loop_end this - BufferSource.loopStart this == 0)%Q)
      by Lqa.lra.
    apply Qeq_bool_iff in H0. rewrite H0. reflexivity.
Qed.

Lemma looping_offset_is_moved_into_the_loop_witness :
  exists r n,
    BufferSource.wrapped_offset loopingX 5 = Some r /\
    (0 <= r)%Q /\ (r < 2)%Q /\ 0 < n /\
    (5 == r + inject_Z n * (2 - 0))%Q.
Proof.
  destruct (looping_offset_is_moved_into_the_loop loopingX 5 eq_refl)
    as (_ & H & _).
  destruct H as (r & n & Hr & H1 & H2 & Hn & Heq);
    [vm_compute; reflexivity|vm_compute; reflexivity|].
  exists r, n. split; [exact Hr|]. split; [exact H1|]. split; [exact H2|].
  split; [exact Hn|exact Heq].
Defined.

(** ** The conversions of Tone.js *)

Section Conversions.

Local Open Scope R_scope.

Lemma Rpower_2_1 : Rpower 2 1 = 2.
Proof. apply Rpower_1. lra. Qed.

Lemma ln_10_gt_0 : 0 < ln 10.
Proof. rewrite <- ln_1. apply ln_increasing; lra. Qed.

Lemma ln_2_gt_0 : 0 < ln 2.
Proof. rewrite <- ln_1. apply ln_increasing; lra. Qed.

(** [2^10 = 1024 > 1000 = 10^3]: ten octaves are more than three
    decades. *)
Lemma ten_ln_2_gt_three_ln_10 : 3 * ln 10 < 10 * ln 2.
Proof.
  assert (H10 : 3 * ln 10 = ln (10 ^ 3)).
  { rewrite ln_pow by lra. simpl. lra. }
  assert (H2 : 10 * ln 2 = ln (2 ^ 10)).
  { rewrite ln_pow by lra. simpl. lra. }
  rewrite H10, H2. apply ln_increasing; lra.
Qed.

Lemma ratio_plus (a b : Z) :
  Tone.intervalToFrequencyRatio (a + b)
  = Tone.intervalToFrequencyRatio a * Tone.intervalToFrequencyRatio b.
Proof.
  unfold Tone.intervalToFrequencyRatio. rewrite <- Rpower_plus, plus_IZR.
  f_equal. lra.
Qed.

Lemma ratio_12 : Tone.intervalToFrequencyRatio 12 = 2.
Proof.
  unfold Tone.intervalToFrequencyRatio.
  replace (12 / 12) with 1 by lra. exact Rpower_2_1.
Qed.

End Conversions.

(** X14. The frequency ratio of an interval. The ratio of a sum of
    intervals is the product of the ratios, twelve semitones up double the
    frequency and twelve down halve it, so that a shift by an octave
    doubles the ratio; the ratio is positive and grows strictly with the
    interval, so that different intervals have different ratios. *)
Theorem intervalToFrequencyRatio_is_exponential :
  (forall a b,
     Tone.intervalToFrequencyRatio (a + b)
     = (Tone.intervalToFrequencyRatio a
        * Tone.intervalToFrequencyRatio b)%R) /\
  Tone.intervalToFrequencyRatio 12 = 2%R /\
  Tone.intervalToFrequencyRatio (-12) = (/ 2)%R /\
  (forall i,
     Tone.intervalToFrequencyRatio (i + 12)
     = (2 * Tone.intervalToFrequencyRatio i)%R) /\
  (forall i, (0 < Tone.intervalToFrequencyRatio i)%R) /\
  (forall a b, a < b ->
     (Tone.intervalToFrequencyRatio a < Tone.intervalToFrequencyRatio b)%R) /\
  (forall a b,
     Tone.intervalToFrequencyRatio a = Tone.intervalToFrequencyRatio b ->
     a = b).
Proof.
  assert (Hmono : forall a b, a < b ->
            (Tone.intervalToFrequencyRatio a
             < Tone.intervalToFrequencyRatio b)%R).
  { intros a b Hab. unfold Tone.intervalToFrequencyRatio.
    apply Rpower_lt; [lra|]. apply IZR_lt in Hab. lra. }
  split; [exact ratio_plus|]. split; [exact ratio_12|].
  split.
  { unfold Tone.intervalToFrequencyRatio.
    replace (-12 / 12)%R with (- (1))%R by lra.
    rewrite Rpower_Ropp, Rpower_2_1. reflexivity. }
  split; [intros i; rewrite ratio_plus, ratio_12; lra|].
  split; [exact ratio_pos|]. split; [exact Hmono|].
  intros a b Heq.
  destruct (Z.lt_trichotomy a b) as [Hlt|[Heq'|Hgt]]; [|exact Heq'|].
  - apply Hmono in Hlt. lra.
  - apply Hmono in Hgt. lra.
Qed.

Lemma intervalToFrequencyRatio_is_exponential_witness :
  (Tone.intervalToFrequencyRatio (-2) < Tone.intervalToFrequencyRatio 0)%R /\
  Tone.intervalToFrequencyRatio (7 + 12)
  = (2 * Tone.intervalToFrequencyRatio 7)%R.
Proof.
  destruct intervalToFrequencyRatio_is_exponential
    as (_ & _ & _ & Hoct & _ & Hmono & _).
  split; [apply Hmono; lia|apply Hoct].
Defined.

(** X15. Decibels and gain. [dbToGain] turns sums of decibels into
    products of gains, 0 dB into the gain 1, +6 dB into the gain 2 and
    -6 dB into the gain 1/2, and its result is positive. [gainToDb] turns
    the gain 1 into 0 dB and products of positive gains into sums. The
    two are not inverse to each other: [gainToDb(dbToGain(db))] is [db]
    times the constant [20 ln 2 / (6 ln 10)], which is larger than 1
    (the gain 2 reads as more than 6 dB), so the round trip gives back
    the level it was given only at 0 dB. *)
Theorem dbToGain_and_gainToDb :
  (forall a b,
     Tone.dbToGain (a + b) = Tone.dbToGain a * Tone.dbToGain b)%R /\
  Tone.dbToGain 0 = 1%R /\
  Tone.dbToGain 6 = 2%R /\
  Tone.dbToGain (-6) = (/ 2)%R /\
  (forall db, 0 < Tone.dbToGain db)%R /\
  Tone.gainToDb 1 = 0%R /\
  (forall g h, 0 < g -> 0 < h ->
     Tone.gainToDb (g * h) = Tone.gainToDb g + Tone.gainToDb h)%R /\
  (forall db,
     Tone.gainToDb (Tone.dbToGain db) = db * (20 * ln 2 / (6 * ln 10)))%R /\
  (1 < 20 * ln 2 / (6 * ln 10))%R /\
  (6 < Tone.gainToDb 2)%R /\
  (forall db, Tone.gainToDb (Tone.dbToGain db) = db <-> db = 0)%R.
Proof.
  pose proof ln_10_gt_0 as H10. pose proof ln_2_gt_0 as H2.
  pose proof ten_ln_2_gt_three_ln_10 as Hk.
  assert (Hround : forall db : R,
            Tone.gainToDb (Tone.dbToGain db)
            = (db * (20 * ln 2 / (6 * ln 10)))%R).
  { intros db. unfold Tone.gainToDb, Tone.dbToGain. rewrite ln_Rpower.
    field. lra. }
  assert (Hk1 : (1 < 20 * ln 2 / (6 * ln 10))%R).
  { apply (Rmult_lt_reg_r (6 * ln 10)); [lra|].
    replace (20 * ln 2 / (6 * ln 10) * (6 * ln 10))%R with (20 * ln 2)%R
      by (field; lra).
    lra. }
  split.
  { intros a b. unfold Tone.dbToGain. rewrite <- Rpower_plus.
    f_equal. lra. }
  split.
  { unfold Tone.dbToGain. replace (0 / 6)%R with 0%R by lra.
    apply Rpower_O. lra. }
  split.
  { unfold Tone.dbToGain. replace (6 / 6)%R with 1%R by lra.
    exact Rpower_2_1. }
  split.
  { unfold Tone.dbToGain. replace (-6 / 6)%R with (- (1))%R by lra.
    rewrite Rpower_Ropp, Rpower_2_1. reflexivity. }
  split; [intros db; unfold Tone.dbToGain, Rpower; apply exp_pos|].
  split; [unfold Tone.gainToDb; rewrite ln_1; lra|].
  split.
  { intros g h Hg Hh. unfold Tone.gainToDb. rewrite ln_mult by assumption.
    field. lra. }
  split; [exact Hround|]. split; [exact Hk1|].
  split.
  { unfold Tone.gainToDb.
    apply (Rmult_lt_reg_r (ln 10)); [lra|].
    replace (20 * (ln 2 / ln 10) * ln 10)%R with (20 * ln 2)%R
      by (field; lra).
    lra. }
  intros db. rewrite Hround. split.
  - intros H. assert (H' : (db * (20 * ln 2 / (6 * ln 10) - 1) = 0)%R) by lra.
    apply Rmult_integral in H'. destruct H' as [H'|H']; lra.
  - intros ->. lra.
Qed.

Lemma dbToGain_and_gainToDb_witness :
  Tone.gainToDb (2 * Tone.dbToGain 6)
  = (Tone.gainToDb 2 + Tone.gainToDb (Tone.dbToGain 6))%R /\
  Tone.gainToDb (Tone.dbToGain 6) <> 6%R.
Proof.
  destruct dbToGain_and_gainToDb
    as (_ & _ & _ & _ & Hpos & _ & Hmul & _ & _ & _ & Hiff).
  split.
  - apply Hmul; [lra|apply Hpos].
  - intros H. apply Hiff in H. lra.
Defined.

(** X16. The equal-power scale. [equalPowerScale] maps 0 to 0 and 1 to 1,
    stays within 0 and 1 and grows strictly on the normal range, and the
    squares of the gains of the two sides of a cross-fade,
    [equalPowerScale(p)] and [equalPowerScale(1 - p)], add up to 1 at
    every position [p]: the power is constant. *)
Theorem equalPowerScale_keeps_the_power :
  Tone.equalPowerScale 0 = 0%R /\
  Tone.equalPowerScale 1 = 1%R /\
  (forall p,
     (Tone.equalPowerScale p)² + (Tone.equalPowerScale (1 - p))² = 1)%R /\
  (forall p, 0 <= p <= 1 -> 0 <= Tone.equalPowerScale p <= 1)%R /\
  (forall p q, 0 <= p -> p < q -> q <= 1 ->
     Tone.equalPowerScale p < Tone.equalPowerScale q)%R.
Proof.
  pose proof PI_RGT_0 as Hpi. unfold Tone.equalPowerScale. cbv zeta.
  split; [rewrite Rmult_0_l; exact sin_0|].
  split; [replace (1 * (0.5 * PI))%R with (PI / 2)%R by lra; exact sin_PI2|].
  split.
  { intros p.
    replace ((1 - p) * (0.5 * PI))%R with (PI / 2 - p * (0.5 * PI))%R by lra.
    rewrite sin_shift. apply sin2_cos2. }
  split.
  { intros p [H0 H1]. split.
    - apply sin_ge_0; nra.
    - apply SIN_bound. }
  intros p q H0 Hpq H1.
  apply sin_increasing_1; nra.
Qed.

Lemma equalPowerScale_keeps_the_power_witness :
  (Tone.equalPowerScale 0 < Tone.equalPowerScale (1 / 2))%R /\
  (0 <= Tone.equalPowerScale (1 / 2) <= 1)%R.
Proof.
  destruct equalPowerScale_keeps_the_power as (_ & _ & _ & Hr & Hm).
  split; [apply Hm; lra|apply Hr; lra].
Defined.

(** ** Pitch notation and numbers *)

Section NoteKeys.

Lemma startsWithOctave_app (s t : string) :
  Tone.startsWithOctave s = true ->
  Tone.startsWithOctave (s ++ t)%string = true.
Proof.
  destruct s as [|c [|d s]]; cbn; try discriminate; try (intros H; exact H).
  - destruct (Ascii.eqb_spec c "-") as [->|Hc]; [discriminate|].
    intros H. destruct t as [|e t]; cbn;
      destruct c as [[] [] [] [] [] [] [] []]; first [exact H|congruence].
Qed.

Lemma noteRegExp_test_app (s t : string) :
  Tone.noteRegExp_test s = true ->
  Tone.noteRegExp_test (s ++ t)%string = true.
Proof.
  destruct s as [|c r]; [discriminate|].
  change (String c r ++ t)%string with (String c (r ++ t)%string).
  cbn [Tone.noteRegExp_test].
  intros H. apply andb_true_iff in H as [Hc H]. rewrite Hc. cbn [andb].
  apply orb_true_iff in H as [H|H].
  { rewrite (startsWithOctave_app _ t H). reflexivity. }
  destruct r as [|a r1]; [discriminate|].
  change (String a r1 ++ t)%string with (String a (r1 ++ t)%string).
  apply orb_true_iff in H as [H|H].
  { apply andb_true_iff in H as [Ha H].
    rewrite Ha, (startsWithOctave_app _ t H). cbn. apply orb_true_r. }
  destruct r1 as [|a' r2]; [discriminate|].
  change (String a' r2 ++ t)%string with (String a' (r2 ++ t)%string).
  apply andb_true_iff in H as [Haa H].
  rewrite Haa, (startsWithOctave_app _ t H). cbn.
  rewrite !orb_true_r. reflexivity.
Qed.

Lemma parseFloat_pitch_letter (c : ascii) (r : string) :
  Tone.isPitchLetter c = true -> parseFloat (String c r) = NaN.
Proof.
  intros Hc.
  destruct c as [[] [] [] [] [] [] [] []]; try discriminate Hc; reflexivity.
Qed.

Lemma ToString_head (n : Z) :
  exists c r, ToString n = String c r /\ Tone.isPitchLetter c = false.
Proof.
  unfold ToString. destruct (to_int_not_nil n) as [Hp Hn].
  destruct (Z.to_int n) as [d|d]; cbn.
  - destruct (string_of_uint_head d) as (c & r & Hs & Hc); [congruence|].
    exists c, r. split.
    + unfold NilZero.string_of_uint. destruct d; [congruence|..]; exact Hs.
    + destruct c as [[] [] [] [] [] [] [] []]; try discriminate Hc;
        reflexivity.
  - eexists _, _. split; [reflexivity|reflexivity].
Qed.

End NoteKeys.

(** X17. Pitch notation and numbers do not overlap, and [isNote] looks at
    the head of the text only. A text that [isNote] accepts is still
    accepted with any text appended (the regular expression is not
    anchored at the end); [parseFloat] reads no number from it; and no
    number, given as a number or as its text, is pitch notation. Hence the
    two tests of [add] and of the constructor never both accept a key. *)
Theorem isNote_and_numbers_are_disjoint :
  (forall s t, Tone.isNote (JsString s) = true ->
     Tone.isNote (JsString (s ++ t)%string) = true) /\
  (forall v, Tone.isNote v = true -> isNaN (parseFloat_value v) = true) /\
  (forall n, Tone.isNote (JsNumber n) = false /\
             Tone.isNote (JsString (ToString n)) = false).
Proof.
  split; [exact noteRegExp_test_app|]. split.
  - intros [s|n]; [|discriminate]. cbn [Tone.isNote parseFloat_value].
    destruct s as [|c r]; [discriminate|].
    cbn [Tone.noteRegExp_test]. intros H.
    apply andb_true_iff in H as [Hc _].
    change (parseFloat_value (JsString (String c r)))
      with (parseFloat (String c r)).
    rewrite (parseFloat_pitch_letter c r Hc). reflexivity.
  - intros n. split; [reflexivity|].
    destruct (ToString_head n) as (c & r & -> & Hc).
    cbn [Tone.isNote Tone.noteRegExp_test]. rewrite Hc. reflexivity.
Qed.

Lemma isNote_and_numbers_are_disjoint_witness :
  Tone.isNote (JsString ("C4" ++ " is middle C")%string) = true /\
  isNaN (parseFloat_value (JsString "Bb-1")) = true.
Proof.
  destruct isNote_and_numbers_are_disjoint as (Happ & Hnan & _).
  split; [apply Happ|apply Hnan]; reflexivity.
Defined.

(** ** Options and defaults *)

Section DefaultArg.

Import Defaults.

Lemma get_set (props : list (string * Value)) (key k : string) (v : Value) :
  get (set props key v) k = if String.eqb key k then v else get props k.
Proof.
  induction props as [|[k0 w] props IH]; cbn.
  - reflexivity.
  - destruct (String.eqb_spec k0 key) as [->|Hne]; cbn.
    + destruct (String.eqb key k); reflexivity.
    + rewrite IH. destruct (String.eqb_spec k0 k) as [->|Hne'];
        [|reflexivity].
      destruct (String.eqb_spec key k) as [->|_]; [congruence|reflexivity].
Qed.

Lemma keys_set (props : list (string * Value)) (key : string) (v : Value) :
  keys (set props key v) =
  if bool_decide (key ∈ keys props) then keys props else keys props ++ [key].
Proof.
  unfold keys. induction props as [|[k0 w] props IH]; cbn.
  - reflexivity.
  - destruct (String.eqb_spec k0 key) as [->|Hne]; cbn.
    + rewrite bool_decide_eq_true_2 by constructor. reflexivity.
    + rewrite IH. destruct (decide (key ∈ map fst props)) as [Hin|Hnin].
      * rewrite !bool_decide_eq_true_2; [reflexivity|now constructor|exact Hin].
      * rewrite !bool_decide_eq_false_2; [reflexivity| |exact Hnin].
        intros Hc. apply elem_of_cons in Hc as [Hc|Hc]; congruence.
Qed.

Lemma get_not_key (props : list (string * Value)) (k : string) :
  k ∉ keys props -> get props k = Undefined.
Proof.
  unfold keys. induction props as [|[k0 w] props IH]; cbn; [reflexivity|].
  intros Hn. destruct (String.eqb_spec k0 k) as [->|Hne].
  - exfalso. apply Hn. constructor.
  - apply IH. intros Hc. apply Hn. now constructor.
Qed.

Lemma depth_get (props : list (string * Value)) (k : string) :
  (depth (get props k) < depth (Object props))%nat.
Proof.
  cbn [depth]. induction props as [|[k0 w] props IH]; cbn [get foldr].
  - cbn. lia.
  - destruct (String.eqb k0 k); lia.
Qed.

(** The insertions of a loop: the keys stay without repetition, the keys
    of the loop are added, and the value of a key is the one of its last
    insertion. *)
Lemma foldl_set (F : string -> Value) (ks : list string) :
  forall ret : list (string * Value),
    NoDup (keys ret) ->
    let ret' := foldl (fun ret k => set ret k (F k)) ret ks in
    NoDup (keys ret') /\
    (forall k, k ∈ keys ret' <-> k ∈ keys ret \/ k ∈ ks) /\
    (forall k, get ret' k = if bool_decide (k ∈ ks) then F k else get ret k).
Proof.
  induction ks as [|k0 ks IH]; intros ret Hnd; cbn [foldl].
  - split; [exact Hnd|]. split; [intros k; rewrite elem_of_nil; tauto|].
    intros k. rewrite bool_decide_eq_false_2 by apply not_elem_of_nil.
    reflexivity.
  - assert (Hnd' : NoDup (keys (set ret k0 (F k0)))).
    { rewrite keys_set. destruct (decide (k0 ∈ keys ret)) as [Hin|Hnin].
      - rewrite bool_decide_eq_true_2 by exact Hin. exact Hnd.
      - rewrite bool_decide_eq_false_2 by exact Hnin.
        apply NoDup_app. split; [exact Hnd|]. split.
        + intros x Hx Hx'. apply list_elem_of_singleton in Hx'. congruence.
        + apply NoDup_singleton. }
    destruct (IH _ Hnd') as (H1 & H2 & H3). split; [exact H1|]. split.
    + intros k. rewrite H2, keys_set, elem_of_cons.
      destruct (decide (k0 ∈ keys ret)) as [Hin|Hnin].
      * rewrite bool_decide_eq_true_2 by exact Hin.
        split; [tauto|]. intros [H|[->|H]]; tauto.
      * rewrite bool_decide_eq_false_2 by exact Hnin.
        rewrite elem_of_app, list_elem_of_singleton. tauto.
    + intros k. rewrite H3, get_set.
      destruct (decide (k ∈ ks)) as [Hin|Hnin].
      * rewrite !bool_decide_eq_true_2; [reflexivity|now constructor|exact Hin].
      * rewrite (bool_decide_eq_false_2 _ Hnin).
        destruct (String.eqb_spec k0 k) as [->|Hne].
        -- rewrite bool_decide_eq_true_2 by constructor. reflexivity.
        -- rewrite bool_decide_eq_false_2; [reflexivity|].
           intros Hc. apply elem_of_cons in Hc as [Hc|Hc]; congruence.
Qed.

Lemma foldl_set_ext (F G : string -> Value) (ks : list string) :
  (forall k, F k = G k) ->
  forall ret : list (string * Value),
    foldl (fun ret k => set ret k (F k)) ret ks
    = foldl (fun ret k => set ret k (G k)) ret ks.
Proof.
  intros H. induction ks as [|k0 ks IH]; intros ret; cbn [foldl];
    [reflexivity|].
  rewrite H. apply IH.
Qed.

Lemma defaultArg_fuel_enough (fuel1 : nat) :
  forall (fuel2 : nat) (given fallback : Value),
    (depth given < fuel1 \/ depth fallback < fuel1)%nat ->
    (depth given < fuel2 \/ depth fallback < fuel2)%nat ->
    defaultArg_fuel fuel1 given fallback
    = defaultArg_fuel fuel2 given fallback.
Proof.
  induction fuel1 as [|fuel1 IH]; intros fuel2 given fallback H1 H2;
    [lia|].
  destruct fuel2 as [|fuel2]; [lia|].
  cbn [defaultArg_fuel].
  destruct given as [| | | | | | |g]; try reflexivity.
  destruct fallback as [| | | | | | |f]; try reflexivity.
  f_equal.
  assert (Hg : forall k, (depth (get g k) < depth (Object g))%nat)
    by apply depth_get.
  assert (Hf : forall k, (depth (get f k) < depth (Object f))%nat)
    by apply depth_get.
  rewrite (foldl_set_ext
             (fun k => defaultArg_fuel fuel1 (get f k) (get g k))
             (fun k => defaultArg_fuel fuel2 (get f k) (get g k)))
    by (intros k; apply IH; specialize (Hg k); specialize (Hf k); lia).
  apply foldl_set_ext.
  intros k. apply IH; specialize (Hg k); specialize (Hf k); lia.
Qed.

Lemma defaultArg_eq (fuel : nat) (given fallback : Value) :
  (depth given < fuel \/ depth fallback < fuel)%nat ->
  defaultArg_fuel fuel given fallback = defaultArg given fallback.
Proof.
  intros H. apply defaultArg_fuel_enough; [exact H|left; lia].
Qed.

Lemma defaultArg_Undefined_l (fallback : Value) :
  defaultArg Undefined fallback = fallback.
Proof. reflexivity. Qed.

Lemma defaultArg_Undefined_r (given : Value) :
  defaultArg given Undefined = given.
Proof. destruct given; reflexivity. Qed.

Lemma defaultArg_Object (g f : list (string * Value)) :
  exists ret,
    defaultArg (Object g) (Object f) = Object ret /\
    NoDup (keys ret) /\
    (forall k, k ∈ keys ret <-> k ∈ keys g \/ k ∈ keys f) /\
    (forall k, get ret k = defaultArg (get g k) (get f k)).
Proof.
  unfold defaultArg at 1. cbn [defaultArg_fuel].
  set (n := depth (Object g)).
  pose proof (foldl_set
                (fun k => defaultArg_fuel n (get f k) (get g k))
                (keys g) [] (NoDup_nil_2)) as H1.
  cbv zeta in H1. destruct H1 as (N1 & K1 & G1).
  pose proof (foldl_set
                (fun k => defaultArg_fuel n (get g k) (get f k))
                (keys f) _ N1) as H2.
  cbv zeta in H2. destruct H2 as (N2 & K2 & G2).
  eexists. split; [reflexivity|]. split; [exact N2|]. split.
  - intros k. rewrite K2, K1. cbn. rewrite elem_of_nil. tauto.
  - intros k. rewrite G2, G1.
    assert (Hg : (depth (get g k) < n)%nat) by apply depth_get.
    destruct (decide (k ∈ keys f)) as [Hf|Hf].
    + rewrite bool_decide_eq_true_2 by exact Hf.
      apply defaultArg_eq. left. exact Hg.
    + rewrite bool_decide_eq_false_2 by exact Hf.
      rewrite (get_not_key f k Hf), defaultArg_Undefined_r.
      destruct (decide (k ∈ keys g)) as [Hk|Hk].
      * rewrite bool_decide_eq_true_2 by exact Hk.
        rewrite defaultArg_eq by (right; exact Hg). reflexivity.
      * rewrite bool_decide_eq_false_2 by exact Hk.
        rewrite (get_not_key g k Hk). reflexivity.
Qed.

End DefaultArg.

(** X18. [Tone.defaultArg] is a deep merge in which the given value wins.
    An [undefined] given value yields the fallback; a given value that is
    defined yields itself unless both values are object literals; and for
    two object literals the result is an object literal whose properties
    are those of the two, each name once, and whose value at every name
    [k] is [defaultArg(given[k], fallback[k])]. The recursion ends on
    every pair of values: more fuel never changes the result. *)
Theorem defaultArg_is_a_deep_merge (given fallback : Defaults.Value) :
  (Defaults.isUndef given = true ->
   Defaults.defaultArg given fallback = fallback) /\
  (Defaults.isUndef given = false ->
   Defaults.isObject given && Defaults.isObject fallback = false ->
   Defaults.defaultArg given fallback = given) /\
  (forall g f,
     given = Defaults.Object g -> fallback = Defaults.Object f ->
     exists ret,
       Defaults.defaultArg given fallback = Defaults.Object ret /\
       NoDup (Defaults.keys ret) /\
       (forall k, k ∈ Defaults.keys ret <->
                  k ∈ Defaults.keys g \/ k ∈ Defaults.keys f) /\
       (forall k,
          Defaults.get ret k
          = Defaults.defaultArg (Defaults.get g k) (Defaults.get f k))) /\
  (forall extra,
     Defaults.defaultArg_fuel (S (Defaults.depth given) + extra) given
       fallback
     = Defaults.defaultArg given fallback).
Proof.
  split; [|split; [|split]].
  - destruct given; try discriminate. reflexivity.
  - intros Hu Ho. destruct given; try discriminate Hu; try reflexivity.
    destruct fallback; try discriminate Ho; reflexivity.
  - intros g f -> ->. apply defaultArg_Object.
  - intros extra. apply defaultArg_eq. left. lia.
Qed.

Lemma defaultArg_is_a_deep_merge_witness :
  exists ret,
    Defaults.defaultArg
      (Defaults.Object
         [("fadeIn", Defaults.Num 1);
          ("envelope", Defaults.Object [("attack", Defaults.Num 2)])])
      (Defaults.Object
         [("envelope",
           Defaults.Object [("attack", Defaults.Num 0);
                            ("release", Defaults.Num 3)]);
          ("loop", Defaults.Boolean false)])
    = Defaults.Object ret /\
    Defaults.get ret "loop" = Defaults.Boolean false /\
    Defaults.get ret "fadeIn" = Defaults.Num 1 /\
    Defaults.get ret "envelope"
    = Defaults.Object [("attack", Defaults.Num 2);
                       ("release", Defaults.Num 3)].
Proof.
  destruct (defaultArg_is_a_deep_merge
              (Defaults.Object
                 [("fadeIn", Defaults.Num 1);
                  ("envelope", Defaults.Object [("attack", Defaults.Num 2)])])
              (Defaults.Object
                 [("envelope",
                   Defaults.Object [("attack", Defaults.Num 0);
                                    ("release", Defaults.Num 3)]);
                  ("loop", Defaults.Boolean false)]))
    as (_ & _ & H & _).
  destruct (H _ _ eq_refl eq_refl) as (ret & Hret & _ & _ & Hget).
  exists ret. split; [exact Hret|].
  rewrite !Hget. split; [reflexivity|]. split; reflexivity.
Defined.

Section DefaultsOfConstructors.

Import Defaults.

(** The options that [Tone.defaults] builds from positional arguments. *)
Lemma positional_options (values : list Value) (names : list string) :
  NoDup names ->
  forall n, (n <= length names)%nat ->
    let options :=
      foldl (fun options i =>
               match names !! i with
               | Some key => set options key (default Undefined (values !! i))
               | None => options
               end) [] (seq 0 n) in
    (forall i key, (i < n)%nat -> names !! i = Some key ->
       get options key = default Undefined (values !! i)) /\
    (forall k, (forall i, (i < n)%nat -> names !! i <> Some k) ->
       get options k = Undefined).
Proof.
  intros Hnd. induction n as [|n IH]; intros Hn; cbv zeta.
  - split; [intros; lia|reflexivity].
  - rewrite seq_S, foldl_app. cbn [foldl Nat.add].
    destruct IH as [IH1 IH2]; [lia|].
    destruct (lookup_lt_is_Some_2 names n) as [kn Hkn]; [lia|].
    rewrite Hkn. split.
    + intros i key Hi Hkey. rewrite get_set.
      destruct (String.eqb_spec kn key) as [->|Hne].
      * rewrite (NoDup_lookup _ _ _ _ Hnd Hkey Hkn). reflexivity.
      * apply IH1; [|exact Hkey].
        destruct (decide (i = n)) as [->|]; [congruence|lia].
    + intros k Hk. rewrite get_set.
      destruct (String.eqb_spec kn k) as [->|Hne].
      * exfalso. apply (Hk n); [lia|exact Hkn].
      * apply IH2. intros i Hi. apply Hk. lia.
Qed.

Lemma defaults_object (o : list (string * Value)) (names : list string)
    (constr : Constr) :
  defaults [Object o] names constr =
  match c_defaults constr with
  | Some d => defaultArg (Object o) (Object d)
  | None => Object o
  end.
Proof. reflexivity. Qed.

Lemma defaults_positional (values : list Value) (names : list string)
    (constr : Constr) (d : list (string * Value)) :
  (forall o, values <> [Object o]) -> NoDup names ->
  c_defaults constr = Some d ->
  exists ret,
    defaults values names constr = Object ret /\
    (forall i key, names !! i = Some key ->
       get ret key = defaultArg (default Undefined (values !! i)) (get d key))
    /\
    (forall k, k ∉ names -> get ret k = get d k) /\
    (forall k, k ∈ keys d -> k ∈ keys ret).
Proof.
  intros Hv Hnd Hd. unfold defaults. rewrite Hd.
  assert (Hpos : (length values =? 1)%nat
                 && isObject (default Undefined (values !! 0%nat)) = false).
  { destruct values as [|v [|w values]]; try reflexivity.
    destruct v; try reflexivity. exfalso. exact (Hv _ eq_refl). }
  rewrite Hpos.
  destruct (positional_options values names Hnd (length names) (le_n _))
    as [P1 P2].
  match goal with
  | |- context [defaultArg (Object ?o) _] =>
      destruct (defaultArg_Object o d) as (ret & Hret & _ & Hk & Hget)
  end.
  exists ret. split; [exact Hret|]. split; [|split].
  - intros i key Hkey. rewrite Hget, (P1 i key); [reflexivity| |exact Hkey].
    exact (lookup_lt_Some _ _ _ Hkey).
  - intros k Hk'. rewrite Hget, P2; [reflexivity|].
    intros i _ Hi. apply Hk'. exact (list_elem_of_lookup_2 _ _ _ Hi).
  - intros k Hin. apply Hk. right. exact Hin.
Qed.

Lemma collect_loop (superDefs : list string) :
  forall ret : list string,
    NoDup ret ->
    let ret' :=
      foldl (fun ret x => if bool_decide (x ∈ ret) then ret else ret ++ [x])
        ret superDefs in
    NoDup ret' /\
    (forall x, x ∈ ret' <-> x ∈ ret \/ x ∈ superDefs) /\
    exists rest, ret' = ret ++ rest.
Proof.
  induction superDefs as [|y l IH]; intros ret Hnd; cbn [foldl].
  - split; [exact Hnd|]. split; [intros x; rewrite elem_of_nil; tauto|].
    exists []. rewrite app_nil_r. reflexivity.
  - destruct (decide (y ∈ ret)) as [Hin|Hnin].
    + rewrite bool_decide_eq_true_2 by exact Hin.
      destruct (IH ret Hnd) as (H1 & H2 & H3).
      split; [exact H1|]. split; [|exact H3].
      intros x. rewrite H2, elem_of_cons.
      split; [tauto|]. intros [H|[->|H]]; tauto.
    + rewrite bool_decide_eq_false_2 by exact Hnin.
      destruct (IH (ret ++ [y])) as (H1 & H2 & rest & H3).
      { apply NoDup_app. split; [exact Hnd|]. split; [|apply NoDup_singleton].
        intros x Hx Hx'. apply list_elem_of_singleton in Hx'. congruence. }
      split; [exact H1|]. split.
      * intros x. rewrite H2, elem_of_app, list_elem_of_singleton, elem_of_cons.
        tauto.
      * exists (y :: rest). rewrite H3, <- app_assoc. reflexivity.
Qed.

Lemma Constr_chain_ind (P : Constr -> Prop) :
  (forall d, P {| c_defaults := d; _super := None |}) ->
  (forall d super, P super -> P {| c_defaults := d; _super := Some super |}) ->
  forall constr, P constr.
Proof.
  intros H0 HS. fix IH 1. intros [d [super|]].
  - apply HS, IH.
  - apply H0.
Qed.

Lemma _collectDefaults_spec (constr : Constr) :
  Forall (fun c => NoDup (own_keys c)) (ancestry constr) ->
  NoDup (_collectDefaults constr) /\
  (forall x, x ∈ _collectDefaults constr <->
             exists c, c ∈ ancestry constr /\ x ∈ own_keys c) /\
  exists rest, _collectDefaults constr = own_keys constr ++ rest.
Proof.
  induction constr as [d|d super IH] using Constr_chain_ind;
    cbn [ancestry _collectDefaults _super c_defaults]; intros Hwf.
  - apply Forall_cons in Hwf as [Hown _].
    split; [exact Hown|]. split.
    + intros x. split.
      * intros Hx. eexists. split; [constructor|exact Hx].
      * intros (c & Hc & Hx). apply list_elem_of_singleton in Hc. subst c.
        exact Hx.
    + exists []. rewrite app_nil_r. reflexivity.
  - apply Forall_cons in Hwf as [Hown Hwf].
    destruct (IH Hwf) as (_ & IH2 & _).
    destruct (collect_loop (_collectDefaults super) _ Hown)
      as (H1 & H2 & H3).
    split; [exact H1|]. split; [|exact H3].
    intros x. rewrite H2, IH2. split.
    + intros [Hx|(c & Hc & Hx)].
      * eexists. split; [constructor|exact Hx].
      * exists c. split; [now constructor|exact Hx].
    + intros (c & Hc & Hx). apply elem_of_cons in Hc as [->|Hc].
      * left. exact Hx.
      * right. eauto.
Qed.

End DefaultsOfConstructors.

(** X19. [Tone.defaults] resolves the arguments of a constructor against
    the defaults of its class. A single argument that is an object
    literal is taken as the options object and merged with the defaults
    by [defaultArg]. Otherwise the arguments are positional: the option
    named by the i-th name is the i-th argument merged with its default
    (the default when the argument is missing or [undefined]), every
    other option has its default, and no default is lost. A class without
    defaults gets the options as they are. *)
Theorem defaults_resolves_the_arguments (values : list Defaults.Value)
    (names : list string) (constr : Defaults.Constr) :
  (forall o d,
     values = [Defaults.Object o] ->
     Defaults.c_defaults constr = Some d ->
     Defaults.defaults values names constr
     = Defaults.defaultArg (Defaults.Object o) (Defaults.Object d)) /\
  (forall d,
     (forall o, values <> [Defaults.Object o]) -> NoDup names ->
     Defaults.c_defaults constr = Some d ->
     exists ret,
       Defaults.defaults values names constr = Defaults.Object ret /\
       (forall i key, names !! i = Some key ->
          Defaults.get ret key
          = Defaults.defaultArg (default Defaults.Undefined (values !! i))
              (Defaults.get d key)) /\
       (forall k, k ∉ names -> Defaults.get ret k = Defaults.get d k) /\
       (forall k, k ∈ Defaults.keys d -> k ∈ Defaults.keys ret)) /\
  (forall o,
     values = [Defaults.Object o] -> Defaults.c_defaults constr = None ->
     Defaults.defaults values names constr = Defaults.Object o).
Proof.
  split; [|split].
  - intros o d -> Hd. rewrite defaults_object, Hd. reflexivity.
  - intros d. apply defaults_positional.
  - intros o -> Hd. rewrite defaults_object, Hd. reflexivity.
Qed.

Lemma defaults_resolves_the_arguments_witness :
  exists ret,
    Defaults.defaults [Defaults.Num (1 # 2)] ["delayTime"; "maxDelay"]
      Defaults.Delay_constr = Defaults.Object ret /\
    Defaults.get ret "delayTime" = Defaults.Num (1 # 2) /\
    Defaults.get ret "maxDelay" = Defaults.Num 1.
Proof.
  destruct (defaults_resolves_the_arguments [Defaults.Num (1 # 2)]
              ["delayTime"; "maxDelay"] Defaults.Delay_constr)
    as (_ & H & _).
  destruct (H _ ltac:(discriminate)
              ltac:(repeat constructor; intros Hin; inversion Hin as [|? ? ? Hin']; inversion Hin')
              eq_refl)
    as (ret & Hret & Hpos & _).
  exists ret. split; [exact Hret|]. split.
  - exact (Hpos 0%nat "delayTime" eq_refl).
  - exact (Hpos 1%nat "maxDelay" eq_refl).
Defined.

(** X20. [_collectDefaults] gives the names of the defaults of a class and
    of all its ancestors, each name once: the names of the class itself
    come first, in their order, and a name is in the result exactly when
    it is a default of the class or of an ancestor. *)
Theorem collectDefaults_collects_the_ancestry (constr : Defaults.Constr) :
  Forall (fun c => NoDup (Defaults.own_keys c)) (Defaults.ancestry constr) ->
  NoDup (Defaults._collectDefaults constr) /\
  (forall x, x ∈ Defaults._collectDefaults constr <->
             exists c, c ∈ Defaults.ancestry constr /\
                       x ∈ Defaults.own_keys c) /\
  exists rest,
    Defaults._collectDefaults constr = Defaults.own_keys constr ++ rest.
Proof.
  apply _collectDefaults_spec.
Qed.

Lemma collectDefaults_collects_the_ancestry_witness :
  Defaults._collectDefaults
    {| Defaults.c_defaults :=
         Some [("loop", Defaults.Boolean true);
               ("volume", Defaults.Num 0)];
       Defaults._super := Some Defaults.BufferSource_constr |}
  = ["loop"; "volume"; "onended"; "onload"; "loopStart"; "loopEnd";
     "fadeIn"; "fadeOut"; "playbackRate"] /\
  NoDup
    (Defaults._collectDefaults
       {| Defaults.c_defaults :=
            Some [("loop", Defaults.Boolean true);
                  ("volume", Defaults.Num 0)];
          Defaults._super := Some Defaults.BufferSource_constr |}).
Proof.
  split; [vm_compute; reflexivity|].
  refine (proj1 (collectDefaults_collects_the_ancestry _ _)).
  repeat (apply Forall_cons; split);
    [refine (bool_decide_unpack _ _); vm_compute; exact I ..
    |apply Forall_nil_2].
Defined.

(** X21. The options of the constructors of the sources. For
    [new Tone.MultiSampler(urls, ...)]: with positional arguments
    ([onload], [baseUrl]) the attack is always 0 and the release 0.1, the
    defaults of the class (whatever its parent class); with an options
    object they are the values given in it, and the defaults where it
    gives none. For the source that [triggerAttack] creates from the
    options [buffer], [playbackRate], [fadeIn] and [fadeOut]: the buffer is
    the given one, the source does not loop, and its loop starts and ends
    at 0. *)
Theorem constructors_resolve_their_options :
  (forall args super,
     let constr :=
       {| Defaults.c_defaults := Some Defaults.MultiSampler_defaults;
          Defaults._super := super |} in
     ((forall o, args <> [Defaults.Object o]) ->
      exists ret,
        Defaults.defaults args ["onload"; "baseUrl"] constr
        = Defaults.Object ret /\
        Defaults.get ret "attack" = Defaults.Num 0 /\
        Defaults.get ret "release" = Defaults.Num (1 # 10)) /\
     (forall o,
        exists ret,
          Defaults.defaults [Defaults.Object o] ["onload"; "baseUrl"] constr
          = Defaults.Object ret /\
          Defaults.get ret "attack"
          = Defaults.defaultArg (Defaults.get o "attack") (Defaults.Num 0) /\
          Defaults.get ret "release"
          = Defaults.defaultArg (Defaults.get o "release")
              (Defaults.Num (1 # 10)))) /\
  (forall buffer rate fadeIn fadeOut,
     exists ret,
       Defaults.defaults
         [Defaults.Object
            [("buffer", buffer); ("playbackRate", rate);
             ("fadeIn", fadeIn); ("fadeOut", fadeOut)]]
         ["buffer"; "onload"] Defaults.BufferSource_constr
       = Defaults.Object ret /\
       Defaults.get ret "buffer" = buffer /\
       Defaults.get ret "playbackRate"
       = Defaults.defaultArg rate (Defaults.Num 1) /\
       Defaults.get ret "fadeIn"
       = Defaults.defaultArg fadeIn (Defaults.Num 0) /\
       Defaults.get ret "fadeOut"
       = Defaults.defaultArg fadeOut (Defaults.Num 0) /\
       Defaults.get ret "loop" = Defaults.Boolean false /\
       Defaults.get ret "loopStart" = Defaults.Num 0 /\
       Defaults.get ret "loopEnd" = Defaults.Num 0).
Proof.
  assert (Hnd : forall a b : string, a <> b -> NoDup [a; b]).
  { intros a b Hab. apply NoDup_cons. split; [|apply NoDup_singleton].
    rewrite list_elem_of_singleton. exact Hab. }
  split.
  - intros args super constr. split.
    + intros Hpos.
      destruct (defaults_positional args ["onload"; "baseUrl"] constr
                  Defaults.MultiSampler_defaults Hpos
                  (Hnd "onload" "baseUrl" ltac:(discriminate)) eq_refl)
        as (ret & Hret & _ & Hother & _).
      exists ret. split; [exact Hret|].
      split; (rewrite Hother; [reflexivity|]);
        rewrite !not_elem_of_cons; repeat split;
        try discriminate; apply not_elem_of_nil.
    + intros o. rewrite defaults_object. cbn [Defaults.c_defaults constr].
      destruct (defaultArg_Object o Defaults.MultiSampler_defaults)
        as (ret & Hret & _ & _ & Hget).
      exists ret. split; [exact Hret|]. rewrite !Hget.
      split; reflexivity.
  - intros buffer rate fadeIn fadeOut. rewrite defaults_object.
    cbn [Defaults.c_defaults Defaults.BufferSource_constr].
    match goal with
    | |- context [Defaults.defaultArg (Defaults.Object ?o) _] =>
        destruct (defaultArg_Object o Defaults.BufferSource_defaults)
          as (ret & Hret & _ & _ & Hget)
    end.
    exists ret. split; [exact Hret|]. rewrite !Hget.
    split; [apply defaultArg_Undefined_r|].
    repeat split; reflexivity.
Qed.

Lemma constructors_resolve_their_options_witness :
  exists ret,
    Defaults.defaults [Defaults.Func "onload"] ["onload"; "baseUrl"]
      {| Defaults.c_defaults := Some Defaults.MultiSampler_defaults;
         Defaults._super := Some Defaults.Tone_constr |}
    = Defaults.Object ret /\
    Defaults.get ret "attack" = Defaults.Num 0 /\
    Defaults.get ret "release" = Defaults.Num (1 # 10).
Proof.
  destruct constructors_resolve_their_options as [H _].
  destruct (H [Defaults.Func "onload"] (Some Defaults.Tone_constr))
    as [Hpos _].
  apply Hpos. discriminate.
Defined.

(** ** The outcome of [start] *)

(** X22. The outcome of [start] is decided by two tests, in this order: a
    voice whose recorded start time is not -1 is refused with
    AlreadyStartedError, also when its buffer is not loaded; otherwise a
    voice whose buffer is unset or not loaded is refused with
    BufferNotReadyError; otherwise [start] returns. No other error leaves
    [start], whatever the arguments. *)
Theorem start_outcome (ctx : Context) (this : BufferSource.t)
    (time offset duration gain fadeInTime : option Q) :
  (BufferSource.start ctx this time offset duration gain fadeInTime
   = Throw AlreadyStartedError <->
   ~ (BufferSource._startTime this == -1)%Q) /\
  (BufferSource.start ctx this time offset duration gain fadeInTime
   = Throw BufferNotReadyError <->
   (BufferSource._startTime this == -1)%Q /\
   BufferSource.buffer_loaded this = false) /\
  ((exists this',
      BufferSource.start ctx this time offset duration gain fadeInTime
      = OK this') <->
   (BufferSource._startTime this == -1)%Q /\
   BufferSource.buffer_loaded this = true) /\
  (forall e,
     BufferSource.start ctx this time offset duration gain fadeInTime
     = Throw e ->
     e = AlreadyStartedError \/ e = BufferNotReadyError).
Proof.
  destruct (Qeq_bool (BufferSource._startTime this) (-1)) eqn:Hs.
  - assert (Hs' := Hs). apply Qeq_bool_iff in Hs'.
    destruct (BufferSource.buffer_loaded this) eqn:Hl.
    + destruct (start_OK ctx this time offset duration gain fadeInTime Hs Hl)
        as [this' H].
      rewrite H. split; [split; [discriminate|tauto]|].
      split; [split; [discriminate|intros [_ [=]]]|].
      split; [split; eauto|discriminate].
    + assert (H : BufferSource.start ctx this time offset duration gain
                    fadeInTime = Throw BufferNotReadyError)
        by (rewrite start_eq, Hs, Hl; reflexivity).
      rewrite H. split; [split; [discriminate|tauto]|].
      split; [split; auto|].
      split; [split; [intros [? [=]]|intros [_ [=]]]|].
      intros e [= <-]. right. reflexivity.
  - assert (Hs' : ~ (BufferSource._startTime this == -1)%Q)
      by (intros E; apply Qeq_bool_iff in E; congruence).
    rewrite (start_Throw_started ctx this time offset duration gain
               fadeInTime Hs').
    split; [split; auto|].
    split; [split; [discriminate|tauto]|].
    split; [split; [intros [? [=]]|tauto]|].
    intros e [= <-]. left. reflexivity.
Qed.

Lemma start_outcome_witness :
  BufferSource.start ctx0 voice_loading (Some 1%Q) None None None None
  = Throw BufferNotReadyError /\
  exists this',
    BufferSource.start ctx0 voiceX (Some 1%Q) None None None None = OK this'.
Proof.
  split.
  - apply (proj1 (proj2 (start_outcome ctx0 voice_loading (Some 1%Q) None
                           None None None))).
    split; reflexivity.
  - apply (proj1 (proj2 (proj2 (start_outcome ctx0 voiceX (Some 1%Q) None
                                  None None None)))).
    split; reflexivity.
Defined.

(** ** The voice of an attack *)

(** X23. The voice that an attack creates. When [triggerAttack] finds the
    loaded buffer [b] for a note and returns, the new source plays with
    the velocity of the call as its gain (1 when none is given), starts
    the values of its envelope at the time of the call, and is scheduled
    to stop by itself: for a buffer of the duration [D >= 0] the stop time
    is the time of the call plus [D] plus twice the attack time of the
    sampler, so that without a release the source reports [started] from
    the end of the attack time until that moment. *)
Theorem attack_voice_plays_the_whole_sample (toMidi : JsValue -> Z)
    (ctx : Context) (this this' : MultiSampler.t) (note : JsValue)
    (time velocity : option Q) (d : Z) (b : ToneBuffer) :
  MultiSampler._findClosest this (toMidi note) = Some d ->
  MultiSampler._buffers this !! ToString (toMidi note - d) = Some b ->
  (0 <= duration b)%Q ->
  MultiSampler.triggerAttack toMidi ctx this note time velocity = OK this' ->
  exists v,
    MultiSampler.heap this' = MultiSampler.heap this ++ [v] /\
    BufferSource._gain v = Tone.defaultArg velocity 1%Q /\
    head (scheduled_times (BufferSource._gainNode v))
    = Some (toSeconds ctx time) /\
    (BufferSource._stopTime v ==
     toSeconds ctx time + duration b + MultiSampler.attack this
     + MultiSampler.attack this)%Q /\
    (forall ctx',
       BufferSource.state ctx' v = Tone.Started <->
       (~ toSeconds ctx time + MultiSampler.attack this == -1 /\
        toSeconds ctx time + MultiSampler.attack this <= now ctx' /\
        now ctx' < toSeconds ctx time + duration b
                   + MultiSampler.attack this + MultiSampler.attack this)%Q).
Proof.
  intros Hd Hb Hdur H.
  rewrite (triggerAttack_eq toMidi ctx this note time velocity d b Hd Hb)
    in H.
  destruct (BufferSource.start ctx (new_source this b d) time (Some 0%Q)
              (Some (duration b)) velocity None) as [v|e] eqn:Hv;
    [|discriminate].
  cbn [bind] in H. injection H as <-.
  exists v. split; [reflexivity|].
  pose proof (start_fields _ _ _ _ _ _ _ _ Hv) as Hf. cbv zeta in Hf.
  destruct Hf as (Hstart & _ & _ & _ & Hgain & _ & _ & Hst).
  change (schedules_stop (new_source this b d) (Some (duration b)))
    with true in Hst.
  destruct Hst as [Hstop _].
  assert (Hres : (resolved_duration (new_source this b d)
                    (start_offset (new_source this b d) (Some 0))
                    (Some (duration b)) == duration b)%Q).
  { unfold resolved_duration, start_offset.
    cbn [BufferSource.loop new_source BufferSource.new BufferSource.o_loop
         negb Tone.defaultArg BufferSource.buffer_duration
         BufferSource.buffer BufferSource.o_buffer].
    rewrite (Q.max_l (duration b) 0) by exact Hdur.
    apply Q.min_case_strong; intros; Lqa.lra. }
  change (fade_of None (BufferSource.fadeIn (new_source this b d)))
    with (MultiSampler.attack this) in Hstart, Hstop.
  split; [exact Hgain|].
  split.
  { apply start_inv in Hv. destruct Hv as (_ & _ & Hv). cbv zeta in Hv.
    destruct Hv as (this2 & Hs2 & ->).
    change (schedules_stop (new_source this b d) (Some (duration b)))
      with true in Hs2.
    apply stop_gainNode in Hs2.
    change (BufferSource._gainNode (BufferSource.source_start _ _ this2))
      with (BufferSource._gainNode this2).
    rewrite Hs2, start_enveloped_gainNode.
    cbn [BufferSource._gainNode new_source BufferSource.new app].
    destruct (Qlt_bool 0 _); reflexivity. }
  split; [rewrite Hstop, Hres; reflexivity|].
  intros ctx'. rewrite state_Started_iff, Hstart, Hstop, Hres. reflexivity.
Qed.

Lemma attack_voice_plays_the_whole_sample_witness :
  exists this' v,
    MultiSampler.triggerAttack PitchCodec.toMidi ctx0 sampler_A4
      (JsString "A4") (Some 1%Q) (Some (1 # 2)%Q) = OK this' /\
    MultiSampler.heap this' = [v] /\
    BufferSource._gain v = (1 # 2)%Q /\
    (BufferSource._stopTime v == 1 + 2 + 0 + 0)%Q.
Proof.
  destruct (MultiSampler.triggerAttack PitchCodec.toMidi ctx0 sampler_A4
              (JsString "A4") (Some 1%Q) (Some (1 # 2)%Q))
    as [this'|e] eqn:H; [|vm_compute in H; discriminate].
  destruct (attack_voice_plays_the_whole_sample PitchCodec.toMidi ctx0
              sampler_A4 this' (JsString "A4") (Some 1%Q) (Some (1 # 2)%Q)
              0 bufferX)
    as (v & Hheap & Hgain & _ & Hstop & _);
    [vm_compute; reflexivity|reflexivity|vm_compute; discriminate|exact H|].
  exists this', v. split; [reflexivity|]. split; [exact Hheap|].
  split; [exact Hgain|exact Hstop].
Defined.

(** ** The search, characterised *)

(** X24. The result of [_findClosest] is determined by the bank: a
    distance [d] below 24 in absolute value is the result for the note
    [m] as soon as [m - d] is a key of the bank, no key of the bank is
    nearer to [m], and, when the key lies below the note, there is no key
    at the same distance above it. *)
Theorem findClosest_is_determined (this : MultiSampler.t) (m d : Z) :
  Z.abs d < MultiSampler.MAX_INTERVAL ->
  holds (MultiSampler._buffers this) (m - d) = true ->
  (forall k, holds (MultiSampler._buffers this) k = true ->
     Z.abs d <= Z.abs (k - m)) ->
  (0 < d -> holds (MultiSampler._buffers this) (m + d) = false) ->
  MultiSampler._findClosest this m = Some d.
Proof.
  intros Hr Hd Hnear Htie.
  destruct (_findClosest_found (MultiSampler._buffers this) m (m - d) Hd)
    as [d' Hd'];
    [replace (m - d - m) with (- d) by lia; rewrite Z.abs_opp; exact Hr|].
  unfold MultiSampler._findClosest. rewrite Hd'. f_equal.
  destruct (_findClosest_nearest _ m d' Hd') as (_ & Hd'' & Hnear' & Htie').
  pose proof (Hnear (m - d') Hd'') as H1.
  pose proof (Hnear' (m - d) Hd) as H2.
  replace (m - d' - m) with (- d') in H1 by lia.
  replace (m - d - m) with (- d) in H2 by lia.
  rewrite Z.abs_opp in H1, H2.
  destruct (Z.eq_dec d' d) as [E|N]; [exact E|exfalso].
  assert (Hopp : d' = - d) by lia.
  destruct (Z_lt_le_dec 0 d) as [Hpos|Hneg].
  - specialize (Htie Hpos). subst d'.
    replace (m - - d) with (m + d) in Hd'' by lia. congruence.
  - assert (Hpos' : 0 < d') by lia.
    specialize (Htie' Hpos'). subst d'.
    replace (m + - d) with (m - d) in Htie' by lia. congruence.
Qed.

Lemma findClosest_is_determined_witness :
  MultiSampler._findClosest sampler_G4_B4 72 = Some 1.
Proof.
  apply findClosest_is_determined.
  - reflexivity.
  - reflexivity.
  - intros k Hk. unfold holds, Buffers.has in Hk.
    apply bool_decide_eq_true_1 in Hk. cbn [ToPropertyKey] in Hk.
    change (MultiSampler._buffers sampler_G4_B4)
      with (<["67" := bufferX]> ({["71" := bufferX]} : gmap string ToneBuffer))
      in Hk.
    apply lookup_insert_is_Some in Hk as [Hk|[_ Hk]].
    + apply (ToString_inj 67 k) in Hk. lia.
    + apply lookup_singleton_is_Some in Hk.
      apply (ToString_inj 71 k) in Hk. lia.
  - intros _. reflexivity.
Defined.

(** ** The playback rate of an attack *)

Section AttackRate.

Local Open Scope R_scope.

Lemma ratio_lt (a b : Z) :
  (a < b)%Z ->
  Tone.intervalToFrequencyRatio a < Tone.intervalToFrequencyRatio b.
Proof.
  intros Hab. unfold Tone.intervalToFrequencyRatio.
  apply Rpower_lt; [lra|]. apply IZR_lt in Hab. lra.
Qed.

Lemma ratio_24 : Tone.intervalToFrequencyRatio 24 = 4.
Proof.
  change 24%Z with (12 + 12)%Z. rewrite ratio_plus, ratio_12. lra.
Qed.

Lemma ratio_minus24 : Tone.intervalToFrequencyRatio (-24) = / 4.
Proof.
  apply (Rmult_eq_reg_l (Tone.intervalToFrequencyRatio 24));
    [|rewrite ratio_24; lra].
  rewrite <- ratio_plus. change (24 + -24)%Z with 0%Z.
  rewrite ratio_0, ratio_24. lra.
Qed.

End AttackRate.

(** X25. The direction and the range of the repitching. The source that
    an attack creates plays at the rate 1 exactly when the note has a
    sample of its own, slower than 1 exactly when the nearest sample lies
    above the note and faster than 1 exactly when it lies below; and the
    rate always lies strictly between 1/4 and 4: a sample is never
    repitched by two octaves or more. *)
Theorem attack_rate_within_two_octaves (toMidi : JsValue -> Z)
    (ctx : Context) (this this' : MultiSampler.t) (note : JsValue)
    (time velocity : option Q) (d : Z) :
  MultiSampler._findClosest this (toMidi note) = Some d ->
  MultiSampler.triggerAttack toMidi ctx this note time velocity = OK this' ->
  exists v,
    MultiSampler.heap this' = MultiSampler.heap this ++ [v] /\
    holds (MultiSampler._buffers this) (toMidi note - d) = true /\
    (/ 4 < BufferSource.playbackRate v < 4)%R /\
    (BufferSource.playbackRate v = 1%R <-> d = 0) /\
    ((BufferSource.playbackRate v < 1)%R <-> d < 0) /\
    ((1 < BufferSource.playbackRate v)%R <-> 0 < d).
Proof.
  intros Hd H.
  destruct (triggerAttack_cases toMidi ctx this note time velocity)
    as [[Hn _]|(d' & b & Hd' & _ & [[_ E]|[_ (v & Hv & E)]])];
    [congruence|rewrite E in H; discriminate|].
  rewrite E in H. injection H as <-.
  assert (d' = d) by congruence. subst d'.
  exists v. split; [reflexivity|].
  destruct (_findClosest_nearest _ _ _ Hd) as (Hr & Hh & _).
  split; [exact Hh|].
  apply start_fields in Hv. cbv zeta in Hv.
  destruct Hv as (_ & _ & Hrate & _). rewrite Hrate.
  change (BufferSource.playbackRate (new_source this b d))
    with (Tone.intervalToFrequencyRatio d).
  unfold MultiSampler.MAX_INTERVAL in Hr.
  split.
  { rewrite <- ratio_minus24, <- ratio_24. split; apply ratio_lt; lia. }
  rewrite <- ratio_0.
  assert (Hcases : d < 0 \/ d = 0 \/ 0 < d) by lia.
  destruct Hcases as [Hlt|[->|Hgt]].
  - pose proof (ratio_lt d 0 Hlt).
    split; [split; [lra|lia]|]. split; [split; [lia|lra]|split; [lra|lia]].
  - split; [tauto|]. split; [split; [lra|lia]|split; [lra|lia]].
  - pose proof (ratio_lt 0 d Hgt).
    split; [split; [lra|lia]|]. split; [split; [lra|lia]|split; [lia|lra]].
Qed.

Lemma attack_rate_within_two_octaves_witness :
  exists this' v,
    MultiSampler.triggerAttack PitchCodec.toMidi ctx0 sampler_A4
      (JsString "G4") None None = OK this' /\
    MultiSampler.heap this' = [v] /\
    (BufferSource.playbackRate v < 1)%R.
Proof.
  destruct (MultiSampler.triggerAttack PitchCodec.toMidi ctx0 sampler_A4
              (JsString "G4") None None) as [this'|e] eqn:H;
    [|vm_compute in H; discriminate].
  destruct (attack_rate_within_two_octaves PitchCodec.toMidi ctx0 sampler_A4
              this' (JsString "G4") None None (-2))
    as (v & Hheap & _ & _ & _ & Hlt & _);
    [vm_compute; reflexivity|exact H|].
  exists this', v. split; [reflexivity|]. split; [exact Hheap|].
  apply Hlt. lia.
Defined.
